(** * Clique percolation (cpm.go): candidate generation, clique
    verification, merging and the community graph.

    The Go program works on heap-allocated [GraphNode]s that are compared by
    pointer.  Here a pointer is the index of the node in allocation order, a
    graph is the list of node records in that order, and the singly linked
    [CliqueCandidate] / [Clique] chains are lists read from the head. *)

From stdpp Require Import base list gmap sets strings pretty.
From Stdlib Require Import ZArith Lia Ascii.

#[local] Set Warnings "-clear-no-such-hyp".

Local Open Scope Z_scope.

(** * The program *)

(** ** Data model *)

(** [associated_clique] points to a [Clique] cell whose [nodes] field is
    written once; the field is modelled by the node list it points to. *)
Record GraphNode := mkGraphNode {
  label : string;
  neighbors : list nat;
  associated_clique : option (list nat)
}.

Definition NewGraphNode (label : string) (assoc_clique : option (list nat))
  : GraphNode :=
  mkGraphNode label [] assoc_clique.

(** [len(s)] of a slice, as a Go [int]. *)
Definition len {A} (s : list A) : Z := Z.of_nat (length s).

(** Field reads through a pointer into the store [g].  The program never
    follows a pointer that is nil or outside the store; the empty value
    stands for such a read. *)
Definition node_neighbors (g : list GraphNode) (n : nat) : list nat :=
  from_option neighbors [] (g !! n).

Definition node_label (g : list GraphNode) (n : nat) : string :=
  from_option label "" (g !! n).

Definition node_clique (g : list GraphNode) (n : nat) : list nat :=
  default [] (g !! n ≫= associated_clique).

(** [gn.neighbors = append(gn.neighbors, n)] *)
Definition AddNeighbor (g : list GraphNode) (gn n : nat) : list GraphNode :=
  alter (λ nd, mkGraphNode (label nd) (neighbors nd ++ [n])
                           (associated_clique nd)) gn g.

(** ** IsConnected *)

(** The loop of [IsConnected] over [sn.neighbors], leaving at the first hit. *)
Fixpoint is_connected_loop (cn : nat) (items : list nat) : bool :=
  match items with
  | [] => false
  | item :: rest => if decide (item = cn) then true
                    else is_connected_loop cn rest
  end.

Definition IsConnected (g : list GraphNode) (cn sn : nat) : bool :=
  is_connected_loop cn (node_neighbors g sn).

(** ** IsDuplicate *)

(** Innermost loop: is [ccnode] found among [item.nodes]? *)
Fixpoint IsDuplicate_find (ccnode : nat) (item_nodes : list nat) : bool :=
  match item_nodes with
  | [] => false
  | list_node :: rest => if decide (list_node = ccnode) then true
                         else IsDuplicate_find ccnode rest
  end.

(** Loop over [cc.nodes] against one item, carrying [match_count]; [true]
    when the function returns [true] from inside the loop. *)
Fixpoint IsDuplicate_item (cc_nodes item_nodes : list nat) (match_count : Z)
  : bool :=
  match cc_nodes with
  | [] => false
  | ccnode :: rest =>
      if IsDuplicate_find ccnode item_nodes then
        let match_count := match_count - 1 in
        if match_count =? 0 then true
        else IsDuplicate_item rest item_nodes match_count
      else IsDuplicate_item rest item_nodes match_count
  end.

Fixpoint IsDuplicate (cc : list nat) (clist : list (list nat)) : bool :=
  match clist with
  | [] => false
  | item :: rest => if IsDuplicate_item cc item (len cc) then true
                    else IsDuplicate cc rest
  end.

(** ** GetCliqueCandidates *)

(** Body of the loop over the positions [i] of one item: copy, substitute
    the removed node at [i], push unless it duplicates an accumulated one. *)
Definition substitute_at (node : nat) (item : list nat)
    (return_clique_list : list (list nat)) (i : nat) : list (list nat) :=
  let new_candidate := <[i := node]> item in
  if IsDuplicate new_candidate return_clique_list then return_clique_list
  else new_candidate :: return_clique_list.

Definition substitute_item (node : nat) (return_clique_list : list (list nat))
    (item : list nat) : list (list nat) :=
  foldl (substitute_at node item) return_clique_list (seq 0 (length item)).

Fixpoint GetCliqueCandidates (k : Z) (node_list : list nat)
  : list (list nat) :=
  if k <? 2 then []
  else if len node_list <? k - 1 then []
  else if len node_list =? k - 1 then [node_list]
  else match node_list with
       | [] => []  (* [node_list[0]] out of range: not reached *)
       | node :: rest =>
           let clique_list := GetCliqueCandidates k rest in
           foldl (substitute_item node) clique_list clique_list
       end.

(** ** MakeCliqueList *)

(** Loop over [j > i]: the candidate node against the later nodes. *)
Fixpoint connected_to_rest (g : list GraphNode) (candidate_node : nat)
    (later : list nat) : bool :=
  match later with
  | [] => true
  | nj :: rest => if IsConnected g candidate_node nj
                  then connected_to_rest g candidate_node rest
                  else false
  end.

(** Loop over [i]: the final value of [candidate_list_is_clique]. *)
Fixpoint candidate_list_is_clique (g : list GraphNode) (item : list nat)
  : bool :=
  match item with
  | [] => true
  | candidate_node :: later =>
      if connected_to_rest g candidate_node later
      then candidate_list_is_clique g later
      else false
  end.

Definition MakeCliqueList (g : list GraphNode)
    (candidate_list : list (list nat)) (examination_node : nat)
  : list (list nat) :=
  foldl (λ clique_list item,
           if candidate_list_is_clique g item
           then (item ++ [examination_node]) :: clique_list
           else clique_list)
        [] candidate_list.

(** ** NotRecorded *)

(** Loop over [clique.nodes] for one node of the item; [None] when the
    function returns [false] from inside, otherwise the new [match_count]. *)
Fixpoint NotRecorded_exam (node : nat) (clique_nodes : list nat)
    (match_count : Z) : option Z :=
  match clique_nodes with
  | [] => Some match_count
  | exam_node :: rest =>
      if decide (exam_node = node) then
        let match_count := match_count - 1 in
        if match_count =? 0 then None
        else NotRecorded_exam node rest match_count
      else NotRecorded_exam node rest match_count
  end.

Fixpoint NotRecorded_item (item_nodes clique_nodes : list nat)
    (match_count : Z) : option Z :=
  match item_nodes with
  | [] => Some match_count
  | node :: rest =>
      match NotRecorded_exam node clique_nodes match_count with
      | None => None
      | Some match_count => NotRecorded_item rest clique_nodes match_count
      end
  end.

Fixpoint NotRecorded (clique : list nat) (clique_list : list (list nat))
  : bool :=
  match clique_list with
  | [] => true
  | item :: rest =>
      let match_count := len item in
      if negb (match_count =? len clique) then NotRecorded clique rest
      else match NotRecorded_item item clique match_count with
           | None => false
           | Some _ => NotRecorded clique rest
           end
  end.

(** ** MergeCliques (and its twin AppendClique) *)

(** [last_item.next = new_clique] extends the destination chain in place, so
    the later [NotRecorded] calls see the cliques appended so far. *)
Definition MergeCliques (dest_clique_list src_clique_list : list (list nat))
  : list (list nat) :=
  match dest_clique_list with
  | [] => []
  | _ => foldl (λ dest clique,
                  if NotRecorded clique dest then dest ++ [clique] else dest)
               dest_clique_list src_clique_list
  end.

Definition AppendClique := MergeCliques.

(** ** The clique loop of main *)

(** The [if clique_list == nil ... else ...] statement of the loop. *)
Definition main_merge (clique_list temp_clique_list : list (list nat))
  : list (list nat) :=
  match clique_list with
  | [] => temp_clique_list
  | _ => MergeCliques clique_list temp_clique_list
  end.

Definition main_loop_body (k : Z) (g : list GraphNode)
    (clique_list : list (list nat)) (node : nat) : list (list nat) :=
  let candidate_list := GetCliqueCandidates k (node_neighbors g node) in
  match candidate_list with
  | [] => clique_list
  | _ => let temp_clique_list := MakeCliqueList g candidate_list node in
         main_merge clique_list temp_clique_list
  end.

Definition main_cliques (k : Z) (g : list GraphNode) : list (list nat) :=
  foldl (main_loop_body k g) [] (seq 0 (length g)).

(** ** Community graph *)

Definition CreateLabel (g : list GraphNode) (nodes : list nat) : string :=
  match nodes with
  | [] => ""
  | item :: rest =>
      foldl (λ new_label item, new_label +:+ "," +:+ node_label g item)
            (node_label g item) rest
  end.

(** Inner loop of [Kminus1CommonNodes]; [None] when it returns [true]. *)
Fixpoint Kminus1_common (exam_node : nat) (other_nodes : list nat)
    (common_node_count k : Z) : option Z :=
  match other_nodes with
  | [] => Some common_node_count
  | common_node :: rest =>
      if decide (exam_node = common_node) then
        let common_node_count := common_node_count + 1 in
        if common_node_count =? k - 1 then None
        else Kminus1_common exam_node rest common_node_count k
      else Kminus1_common exam_node rest common_node_count k
  end.

Fixpoint Kminus1_exam (gn_nodes other_nodes : list nat)
    (common_node_count k : Z) : bool :=
  match gn_nodes with
  | [] => false
  | exam_node :: rest =>
      match Kminus1_common exam_node other_nodes common_node_count k with
      | None => true
      | Some common_node_count =>
          Kminus1_exam rest other_nodes common_node_count k
      end
  end.

Definition Kminus1CommonNodes (cg : list GraphNode) (gn node : nat) (k : Z)
  : bool :=
  Kminus1_exam (node_clique cg gn) (node_clique cg node) 0 k.

Definition AddNeighbors (cg : list GraphNode) (graph : list nat) (gn : nat)
    (k : Z) : list GraphNode :=
  foldl (λ cg node,
           if bool_decide (gn ≠ node) && Kminus1CommonNodes cg gn node k
           then AddNeighbor cg gn node else cg)
        cg graph.

(** The community nodes live in a store of their own, indexed in creation
    order; [g] is the store of the original graph, read for the labels. *)
Definition CreateCommunityGraph (g : list GraphNode)
    (clique_list : list (list nat)) (k : Z) : list GraphNode :=
  match clique_list with
  | [] => []
  | _ =>
      let community_graph :=
        map (λ item, NewGraphNode (CreateLabel g item) (Some item))
            clique_list in
      let graph := seq 0 (length community_graph) in
      foldl (λ cg node, AddNeighbors cg graph node k) community_graph graph
  end.

(** ** The model graph built by the demo main *)

Definition model_vertices : list GraphNode :=
  map (λ i, NewGraphNode ("v" +:+ pretty i) None) (seq 1 10).

Definition model_edges : list (nat * nat) :=
  [ (0, 1); (0, 2);
    (1, 0); (1, 2);
    (2, 1-1); (2, 2-1); (2, 4-1); (2, 5-1);
    (4-1, 3-1); (4-1, 5-1); (4-1, 6-1); (4-1, 7-1);
    (5-1, 3-1); (5-1, 4-1); (5-1, 6-1); (5-1, 7-1);
    (6-1, 4-1); (6-1, 5-1); (6-1, 7-1); (6-1, 8-1);
    (7-1, 4-1); (7-1, 5-1); (7-1, 6-1); (7-1, 8-1);
    (8-1, 6-1); (8-1, 7-1); (8-1, 9-1); (8-1, 10-1);
    (9-1, 8-1); (9-1, 10-1);
    (10-1, 8-1); (10-1, 9-1) ]%nat.

Definition model_graph : list GraphNode :=
  foldl (λ g e, AddNeighbor g e.1 e.2) model_vertices model_edges.

(** Vertex [v i] of the model graph is the [i]-th node allocated. *)
Definition v (i : nat) : nat := (i - 1)%nat.

(** ** GetCliqueCandidates on slices in memory *)

(** To follow what [GetCliqueCandidates] writes, the backing arrays of the
    node slices are kept in a memory, in allocation order.  A slice is a
    window of one array.  (The capacity is left out: nothing here appends.) *)
Record slice := mkSlice { s_array : nat; s_offset : nat; s_len : nat }.

Abbreviation memory := (list (list nat)).

(** The value of the cells of a fresh array, Go's nil. *)
Definition nil_node : nat := 0%nat.

Definition array_of (m : memory) (a : nat) : list nat := default [] (m !! a).

(** The nodes a slice shows. *)
Definition slice_nodes (m : memory) (s : slice) : list nat :=
  take (s_len s) (drop (s_offset s) (array_of m (s_array s))).

(** [s[i]] *)
Definition slice_get (m : memory) (s : slice) (i : nat) : nat :=
  default nil_node (slice_nodes m s !! i).

(** [s[i] = x] *)
Definition slice_set (m : memory) (s : slice) (i x : nat) : memory :=
  alter (λ arr, <[(s_offset s + i)%nat := x]> arr) (s_array s) m.

(** [make([]*GraphNode, n, n)] *)
Definition make_slice (m : memory) (n : nat) : memory * slice :=
  (m ++ [replicate n nil_node], mkSlice (length m) 0 n).

(** [s[1:]] *)
Definition slice_tail (s : slice) : slice :=
  mkSlice (s_array s) (S (s_offset s)) (pred (s_len s)).

(** [make], the copy loop and [new_candidate.nodes[i] = node]. *)
Definition new_candidate_mem (m : memory) (node : nat) (item : slice)
    (i : nat) : memory * slice :=
  let '(m, new_nodes) := make_slice m (s_len item) in
  let m := foldl (λ m k, slice_set m new_nodes k (slice_get m item k))
                 m (seq 0 (s_len item)) in
  (slice_set m new_nodes i node, new_nodes).

Definition substitute_at_mem (node : nat) (item : slice)
    (st : memory * list slice) (i : nat) : memory * list slice :=
  let '(m, return_clique_list) := st in
  let '(m, new_candidate) := new_candidate_mem m node item i in
  if IsDuplicate (slice_nodes m new_candidate)
                 (slice_nodes m <$> return_clique_list)
  then (m, return_clique_list)
  else (m, new_candidate :: return_clique_list).

Definition substitute_item_mem (node : nat) (st : memory * list slice)
    (item : slice) : memory * list slice :=
  foldl (substitute_at_mem node item) st (seq 0 (s_len item)).

(** [GetCliqueCandidates] on slices; [n] is the length of [node_list], on
    which the recursion runs. *)
Fixpoint GetCliqueCandidates_rec (k : Z) (n : nat) (node_list : slice)
    (m : memory) : memory * list slice :=
  if k <? 2 then (m, [])
  else if Z.of_nat (s_len node_list) <? k - 1 then (m, [])
  else if Z.of_nat (s_len node_list) =? k - 1 then (m, [node_list])
  else match n with
       | O => (m, [])
       | S n' =>
           let node := slice_get m node_list 0 in
           let '(m, clique_list) :=
             GetCliqueCandidates_rec k n' (slice_tail node_list) m in
           foldl (substitute_item_mem node) (m, clique_list) clique_list
       end.

Definition GetCliqueCandidates_mem (k : Z) (node_list : slice) (m : memory)
  : memory * list slice :=
  GetCliqueCandidates_rec k (s_len node_list) node_list m.

(** ** ParseGraphDefFile *)

(** The parser sees the file through [bufio.Reader.ReadLine]: a sequence of
    (line, isPrefix) results that ends at the first read error or end of
    file.  That sequence is the input here.  The two regular expressions
    are written out as the backtracking searches Go's leftmost-first
    matching is defined by. *)

Inductive parse_error :=
  | DuplicateNode (label : string)
  | SyntaxError (line_count : Z)
  | DoesNotExist (neighbor_label : string).

Definition newline : string := String (ascii_of_nat 10) "".

(** The text of [errors.New(errstr)]. *)
Definition error_text (e : parse_error) : string :=
  match e with
  | DuplicateNode label =>
      "'" +:+ label +:+ "': duplicate node; unable to add to graph"
          +:+ newline
  | SyntaxError line_count =>
      "line " +:+ pretty line_count +:+ ": syntax error" +:+ newline
  | DoesNotExist neighbor_label => neighbor_label +:+ ": doesn't exist"
  end.

Record NeighborSpec := mkNeighborSpec {
  ns_node : nat;
  neighbor_str : string
}.

Definition char_code (c : ascii) : nat := nat_of_ascii c.

(** [\s], [\w] and [.] of Go's regexp syntax. *)
Definition re_space (c : ascii) : bool :=
  bool_decide (char_code c ∈ [9; 10; 12; 13; 32]%nat).

Definition re_word (c : ascii) : bool :=
  let n := char_code c in
  bool_decide ((48 ≤ n ≤ 57)%nat ∨ (65 ≤ n ≤ 90)%nat ∨ (97 ≤ n ≤ 122)%nat ∨
               n = 95%nat).

Definition re_dot (c : ascii) : bool := bool_decide (char_code c ≠ 10%nat).

(** [(.+)], greedy: the longest run of [.] characters. *)
Fixpoint dot_run (s : string) : string :=
  match s with
  | EmptyString => ""
  | String c rest => if re_dot c then String c (dot_run rest) else ""
  end.

(** [\s*(.+)] from the current position: [\s*] takes a space and goes on,
    and gives it back when the rest does not match. *)
Fixpoint match_spaces_dots (s : string) : option string :=
  match s with
  | EmptyString => None
  | String c rest =>
      if re_space c then
        match match_spaces_dots rest with
        | Some group => Some group
        | None => if re_dot c then Some (dot_run s) else None
        end
      else if re_dot c then Some (dot_run s) else None
  end.

(** What follows the label: [:\s*(.+)] for the first expression (giving the
    second group) and [:\s*] for the second. *)
Definition after_label_def (s : string) : option string :=
  match s with
  | String ":" rest => match_spaces_dots rest
  | _ => None
  end.

Definition after_label_no_neighbors (s : string) : option string :=
  match s with
  | String ":" rest => Some ""
  | _ => None
  end.

(** [(\w+)] followed by [after]: the longest label first, shorter ones when
    the rest does not match. *)
Fixpoint match_word (after : string → option string) (s : string)
    (label : string) : option (string * string) :=
  match s with
  | EmptyString => None
  | String c rest =>
      if re_word c then
        let label := label +:+ String c "" in
        match match_word after rest label with
        | Some groups => Some groups
        | None => match after rest with
                  | Some group => Some (label, group)
                  | None => None
                  end
        end
      else None
  end.

(** [\s*(\w+)...] at the current position. *)
Fixpoint match_here (after : string → option string) (s : string)
  : option (string * string) :=
  match s with
  | EmptyString => None
  | String c rest =>
      if re_space c then
        match match_here after rest with
        | Some groups => Some groups
        | None => match_word after s ""
        end
      else match_word after s ""
  end.

(** The leftmost match: the first start position that matches. *)
Fixpoint find_match (after : string → option string) (s : string)
  : option (string * string) :=
  match match_here after s with
  | Some groups => Some groups
  | None => match s with
            | EmptyString => None
            | String _ rest => find_match after rest
            end
  end.

(** Groups 1 and 2 of [node_def_re], group 1 of [node_no_neighbors_re]. *)
Definition node_def_re (line : string) : option (string * string) :=
  find_match after_label_def line.

Definition node_no_neighbors_re (line : string) : option string :=
  fst <$> find_match after_label_no_neighbors line.

(** The loop over the runes of [neighbors_str] with [unicode.IsSpace]:
    [false] when every rune is white space.  The string is UTF-8; the
    white-space runes are the six ASCII ones, U+0085, U+00A0, U+1680,
    U+2000..U+200A, U+2028, U+2029, U+202F, U+205F and U+3000. *)
Fixpoint neighbors_defined_codes (codes : list nat) : bool :=
  match codes with
  | [] => false
  | b :: rest =>
      if bool_decide (b ∈ [9; 10; 11; 12; 13; 32]%nat)
      then neighbors_defined_codes rest
      else match b, rest with
           | 194, b2 :: rest2 =>
               if bool_decide (b2 ∈ [133; 160]%nat)
               then neighbors_defined_codes rest2 else true
           | 225, 154 :: 128 :: rest3 => neighbors_defined_codes rest3
           | 226, 128 :: b3 :: rest3 =>
               if bool_decide ((128 ≤ b3 ≤ 138)%nat ∨ b3 ∈ [168; 169; 175]%nat)
               then neighbors_defined_codes rest3 else true
           | 226, 129 :: 159 :: rest3 => neighbors_defined_codes rest3
           | 227, 128 :: 128 :: rest3 => neighbors_defined_codes rest3
           | _, _ => true
           end
  end%nat.

Definition neighbors_defined (neighbors_str : string) : bool :=
  neighbors_defined_codes (char_code <$> String.list_ascii_of_string neighbors_str).

(** [strings.Split(s, " ")] *)
Fixpoint split_on_space (s : string) (current : string) : list string :=
  match s with
  | EmptyString => [current]
  | String c rest =>
      if bool_decide (c = " "%char) then current :: split_on_space rest ""
      else split_on_space rest (current +:+ String c "")
  end.

Definition Split (s : string) : list string := split_on_space s "".

(** [GetNode]: the first node with the label, or nil. *)
Fixpoint GetNode_from (g : list GraphNode) (label_wanted : string)
    (index : nat) : option nat :=
  match g with
  | [] => None
  | n :: rest => if bool_decide (label n = label_wanted) then Some index
                 else GetNode_from rest label_wanted (S index)
  end.

Definition GetNode (g : list GraphNode) (label_wanted : string) : option nat :=
  GetNode_from g label_wanted 0.

(** State of the reading loop. *)
Record parse_state := mkParseState {
  ps_graph : list GraphNode;
  ps_neighbor_spec_list : list NeighborSpec;
  ps_line_count : Z
}.

(** The loop body for one line with [isPrefix == false]; [inr] is a
    [return graph, errors.New(errstr)]. *)
Definition parse_line (st : parse_state) (line : string)
  : parse_state + (list GraphNode * parse_error) :=
  match node_def_re line with
  | Some (add_node_label, neighbors_str) =>
      let new_node := NewGraphNode add_node_label None in
      let new_index := length (ps_graph st) in
      let graph := ps_graph st ++ [new_node] in
      match graph with
      | [] => inr (graph, DuplicateNode (label new_node))
      | _ =>
          let neighbor_spec_list :=
            if neighbors_defined neighbors_str
            then ps_neighbor_spec_list st ++
                 [mkNeighborSpec new_index neighbors_str]
            else ps_neighbor_spec_list st in
          inl (mkParseState graph neighbor_spec_list (ps_line_count st + 1))
      end
  | None =>
      match node_no_neighbors_re line with
      | None => inr (ps_graph st, SyntaxError (ps_line_count st))
      | Some add_node_label =>
          let new_node := NewGraphNode add_node_label None in
          inl (mkParseState (ps_graph st ++ [new_node])
                            (ps_neighbor_spec_list st)
                            (ps_line_count st + 1))
      end
  end.

Fixpoint read_lines (st : parse_state) (lines : list (string * bool))
  : parse_state + (list GraphNode * parse_error) :=
  match lines with
  | [] => inl st
  | (line, isPrefix) :: rest =>
      if isPrefix then read_lines st rest
      else match parse_line st line with
           | inl st => read_lines st rest
           | inr result => inr result
           end
  end.

(** The loop over the labels of one neighbor specification. *)
Fixpoint add_neighbor_labels (graph : list GraphNode) (node : nat)
    (neighbors : list string) : list GraphNode + (list GraphNode * parse_error) :=
  match neighbors with
  | [] => inl graph
  | neighbor_label :: rest =>
      match GetNode graph neighbor_label with
      | None => inr (graph, DoesNotExist neighbor_label)
      | Some nn => add_neighbor_labels (AddNeighbor graph node nn) node rest
      end
  end.

Fixpoint add_neighbor_specs (graph : list GraphNode)
    (neighbor_spec_list : list NeighborSpec)
  : list GraphNode + (list GraphNode * parse_error) :=
  match neighbor_spec_list with
  | [] => inl graph
  | ns :: rest =>
      match add_neighbor_labels graph (ns_node ns) (Split (neighbor_str ns)) with
      | inl graph => add_neighbor_specs graph rest
      | inr result => inr result
      end
  end.

(** The parser after a successful [os.Open]: the graph and the error
    ([None] is a nil error). *)
Definition ParseGraphDefFile (lines : list (string * bool))
  : list GraphNode * option parse_error :=
  match read_lines (mkParseState [] [] 1) lines with
  | inr (graph, e) => (graph, Some e)
  | inl st =>
      match add_neighbor_specs (ps_graph st) (ps_neighbor_spec_list st) with
      | inr (graph, e) => (graph, Some e)
      | inl graph => (graph, None)
      end
  end.

(** The whole function.  When [os.Open] fails, its error is returned with
    the nil graph; otherwise the opened file is read.  The argument is the
    outcome of [os.Open]: the text of its error, or the results of
    [ReadLine] on the file. *)
Inductive file_error :=
  | OpenError (message : string)
  | ParseError (e : parse_error).

Definition ParseGraphDefFile_open (opened : string + list (string * bool))
  : list GraphNode * option file_error :=
  match opened with
  | inl message => ([], Some (OpenError message))
  | inr lines =>
      ((ParseGraphDefFile lines).1, ParseError <$> (ParseGraphDefFile lines).2)
  end.

(** ** The line reader *)

Definition MAX_LINE_LEN : nat := 256.

(** A line without the carriage return at its end, if it has one. *)
Fixpoint drop_carriage_return (line : string) : string :=
  match line with
  | EmptyString => ""
  | String c rest =>
      match rest with
      | EmptyString => if bool_decide (char_code c = 13%nat) then "" else line
      | String _ _ => String c (drop_carriage_return rest)
      end
  end.

(** The results of the calls of [ReadLine] on a text, for the reader of
    [MAX_LINE_LEN] bytes that the parser makes, until the end of the text;
    [current] is what the call has read of its line so far.  A line is cut
    at its line feed, which is dropped together with a carriage return
    before it.  When the buffer is full and holds no line feed, its
    content is returned as a fragment with [isPrefix] set; a carriage
    return at the end of the buffer is left for the next call.  What is
    left at the end of the text is returned as a last line. *)
Fixpoint text_lines_from (s current : string) : list (string * bool) :=
  match s with
  | EmptyString => if bool_decide (current = "") then [] else [(current, false)]
  | String c rest =>
      if bool_decide (char_code c = 10%nat)
      then (drop_carriage_return current, false) :: text_lines_from rest ""
      else if bool_decide (S (String.length current) = MAX_LINE_LEN)
      then if bool_decide (char_code c = 13%nat)
           then (current, true) :: text_lines_from rest (String c "")
           else (current +:+ String c "", true) :: text_lines_from rest ""
      else text_lines_from rest (current +:+ String c "")
  end.

Definition text_lines (s : string) : list (string * bool) :=
  text_lines_from s "".

(** ** PrintGraph *)

(** The text written to standard output.  The graphs that main prints are
    built by [append] from a nil slice, so the nil slice is the empty list;
    a slice that is empty without being nil would print nothing. *)
Definition PrintGraph (g : list GraphNode) : string :=
  let out := match g with
             | [] => "empty graph" +:+ newline
             | _ => ""
             end in
  foldl (λ out e,
           let out := out +:+ label e +:+ ":  " in
           let out := foldl (λ out n, out +:+ node_label g n +:+ " ")
                            out (neighbors e) in
           out +:+ newline)
        out g.

(** * Notions used by the statements *)

(** ** Member sets *)

(** A candidate or clique is identified by the unordered set of its nodes. *)
Definition member_set (nodes : list nat) : gset nat := list_to_set nodes.

Definition member_sets (l : list (list nat)) : gset (gset nat) :=
  list_to_set (member_set <$> l).

(** No two entries (at different positions) have the same member set. *)
Definition distinct_member_sets (l : list (list nat)) : Prop :=
  NoDup (member_set <$> l).

(** ** Graphs *)

(** Every neighbor reference goes both ways. *)
Definition symmetric_graph (g : list GraphNode) : Prop :=
  ∀ a b, b ∈ node_neighbors g a → a ∈ node_neighbors g b.

Definition symmetric_graphb (g : list GraphNode) : bool :=
  forallb (λ a, forallb (λ b, bool_decide (a ∈ node_neighbors g b))
                        (node_neighbors g a))
          (seq 0 (length g)).

(** No neighbor list of a node of the graph repeats a node or holds the
    node itself. *)
Definition simple_graph (g : list GraphNode) : Prop :=
  Forall (λ n, NoDup (node_neighbors g n) ∧ n ∉ node_neighbors g n)
         (seq 0 (length g)).

(** [S] is a set of [k] nodes, any two of which are linked. *)
Definition is_k_clique (g : list GraphNode) (k : Z) (S : gset nat) : Prop :=
  Z.of_nat (size S) = k ∧
  ∀ a b, a ∈ S → b ∈ S → a ≠ b → b ∈ node_neighbors g a.

(** A label the parser can produce: one or more letters, digits or
    underscores. *)
Fixpoint all_word (s : string) : bool :=
  match s with
  | EmptyString => true
  | String c rest => re_word c && all_word rest
  end.

Definition word_label (s : string) : Prop := s ≠ "" ∧ all_word s = true.

(** The complete lines among the results of [ReadLine]. *)
Definition complete_lines (lines : list (string * bool))
  : list (string * bool) :=
  filter (λ l, l.2 = false) lines.

(** While reading: the line count is one more than the number of nodes, no
    node has a neighbor yet, the labels are words, and every neighbor
    specification belongs to a node of the graph. *)
Definition reading_invariant (st : parse_state) : Prop :=
  ps_line_count st = Z.of_nat (length (ps_graph st)) + 1 ∧
  Forall (λ nd, neighbors nd = [] ∧ word_label (label nd)) (ps_graph st) ∧
  Forall (λ ns, (ns_node ns < length (ps_graph st))%nat)
         (ps_neighbor_spec_list st).

(** Every neighbor reference of the graph points to one of its nodes. *)
Definition linked_within (g : list GraphNode) : Prop :=
  Forall (λ nd, Forall (λ b, (b < length g)%nat) (neighbors nd)) g.

(** ** What the counting loops count *)

(** Number of positions of [l] holding [x], and number of position pairs of
    two node lists holding the same node. *)
Fixpoint occurrences (x : nat) (l : list nat) : nat :=
  match l with
  | [] => 0
  | y :: l' => (if decide (x = y) then 1 else 0) + occurrences x l'
  end%nat.

Fixpoint common_pairs (A B : list nat) : nat :=
  match A with
  | [] => 0
  | x :: A' => occurrences x B + common_pairs A' B
  end%nat.

(** Number of positions of [cc] whose node occurs in [item]. *)
Fixpoint found_count (cc item : list nat) : nat :=
  match cc with
  | [] => 0
  | c :: cc' => (if decide (c ∈ item) then 1 else 0) + found_count cc' item
  end%nat.

(** The condition under which one entry of the list makes [NotRecorded]
    return [false]. *)
Definition records (item clique : list nat) : Prop :=
  len item = len clique ∧
  0 < len item ≤ Z.of_nat (common_pairs item clique).

(** The appending loop of [MergeCliques], from any destination list. *)
Definition merge_loop (dest src : list (list nat)) : list (list nat) :=
  foldl (λ dest clique,
           if NotRecorded clique dest then dest ++ [clique] else dest)
        dest src.

(** ** Binomial coefficients *)

Fixpoint choose (n m : nat) : nat :=
  match n, m with
  | _, O => 1
  | O, S _ => 0
  | S n', S m' => choose n' m' + choose n' (S m')
  end%nat.

(** ** Slices and the list version *)

(** A slice lies within an allocated array. *)
Definition valid_slice (m : memory) (s : slice) : Prop :=
  (s_array s < length m)%nat ∧
  (s_offset s + s_len s ≤ length (array_of m (s_array s)))%nat.

(** The memory version computes what the list version computes, in memory
    that extends the memory it started from. *)
Definition sim (m0 : memory) (st : memory * list slice)
    (pure : list (list nat)) : Prop :=
  m0 `prefix_of` st.1 ∧ Forall (valid_slice st.1) st.2 ∧
  slice_nodes st.1 <$> st.2 = pure.

(** The loops only push slices of arrays allocated after they started. *)
Definition pushes_fresh (st st' : memory * list slice) : Prop :=
  (length st.1 ≤ length st'.1)%nat ∧
  ∃ pushed, st'.2 = pushed ++ st.2 ∧
            Forall (λ r, (length st.1 ≤ s_array r)%nat) pushed.

(** ** Printed text *)

(** The neighbor labels and the line that [PrintGraph] prints for a node,
    without the line feed. *)
Fixpoint neighbors_text (g : list GraphNode) (nodes : list nat) : string :=
  match nodes with
  | [] => ""
  | n :: rest => node_label g n +:+ " " +:+ neighbors_text g rest
  end.

Definition PrintGraph_line (g : list GraphNode) (e : GraphNode) : string :=
  label e +:+ ":  " +:+ neighbors_text g (neighbors e).

Fixpoint lines_text (lines : list string) : string :=
  match lines with
  | [] => ""
  | line :: rest => line +:+ newline +:+ lines_text rest
  end.

Fixpoint no_newline (s : string) : bool :=
  match s with
  | EmptyString => true
  | String c rest => re_dot c && no_newline rest
  end.

(** No line feed and no carriage return. *)
Fixpoint no_line_end (s : string) : bool :=
  match s with
  | EmptyString => true
  | String c rest =>
      bool_decide (char_code c ≠ 10%nat ∧ char_code c ≠ 13%nat) &&
      no_line_end rest
  end.

(** No colon. *)
Fixpoint no_colon (s : string) : bool :=
  match s with
  | EmptyString => true
  | String c rest => bool_decide (c ≠ ":"%char) && no_colon rest
  end.

(** ** Inputs of the examples *)

(** The graph of the file ["a: a x x"; "x: a x"]: a self reference next to
    a repeated neighbor. *)
Definition self_loop_graph : list GraphNode :=
  [ mkGraphNode "a" [0; 1; 1]%nat None; mkGraphNode "x" [0; 1]%nat None ].

(** The six member sets that the documentation lists for the model graph. *)
Definition documented_cliques : gset (gset nat) :=
  list_to_set (member_set <$>
    [ [v 1; v 2; v 3]; [v 3; v 4; v 5]; [v 4; v 5; v 6]; [v 4; v 5; v 7];
      [v 5; v 6; v 7]; [v 6; v 7; v 8] ]).

Definition model_cliques : list (list nat) := main_cliques 3 model_graph.

Definition model_community_graph : list GraphNode :=
  CreateCommunityGraph model_graph model_cliques 3.

(** One array of five nodes and the slice of its last four. *)
Definition example_memory : memory := [[7; 2; 3; 5; 6]%nat].
Definition example_slice : slice := mkSlice 0 1 4.

(** Lines short enough for [ReadLine] to return them whole. *)
Definition short_lines (l : list string) : list (string * bool) :=
  (λ line, (line, false)) <$> l.

(** A graph file that declares [v1] twice. *)
Definition duplicate_label_file : list (string * bool) :=
  short_lines ["v1: v2"; "v1: v2"; "v2: v1"].

(** * Verification *)

(** ** The scanning loops *)

Lemma is_connected_loop_spec cn items :
  is_connected_loop cn items = true ↔ cn ∈ items.
Proof.
  induction items as [|item rest IH]; simpl.
  - split; [discriminate | by intros ?%elem_of_nil].
  - rewrite elem_of_cons. case_decide; subst.
    + split; auto.
    + rewrite IH. split; [auto | intros [->|?]; [congruence | done]].
Qed.

Lemma IsConnected_spec g cn sn :
  IsConnected g cn sn = true ↔ cn ∈ node_neighbors g sn.
Proof. apply is_connected_loop_spec. Qed.

Lemma IsDuplicate_find_spec ccnode item_nodes :
  IsDuplicate_find ccnode item_nodes = true ↔ ccnode ∈ item_nodes.
Proof.
  induction item_nodes as [|x rest IH]; simpl.
  - split; [discriminate | by intros ?%elem_of_nil].
  - rewrite elem_of_cons. case_decide; subst.
    + split; auto.
    + rewrite IH. split; [auto | intros [->|?]; [congruence | done]].
Qed.

(** ** MakeCliqueList *)

Lemma connected_to_rest_spec g cn later :
  connected_to_rest g cn later = true ↔
  Forall (λ nj, IsConnected g cn nj = true) later.
Proof.
  induction later as [|nj rest IH]; simpl.
  - split; auto.
  - rewrite Forall_cons. destruct (IsConnected g cn nj).
    + rewrite IH. tauto.
    + split; [discriminate | by intros [? _]].
Qed.

Lemma candidate_list_is_clique_pairs g item :
  candidate_list_is_clique g item = true →
  ∀ i j a b, (i < j)%nat → item !! i = Some a → item !! j = Some b →
             IsConnected g a b = true.
Proof.
  induction item as [|cn later IH]; simpl; intros Hc i j a b Hij Ha Hb.
  - done.
  - destruct (connected_to_rest g cn later) eqn:Hrest; [|done].
    apply connected_to_rest_spec in Hrest.
    destruct j as [|j]; [lia|]. simpl in Hb.
    destruct i as [|i]; simpl in Ha.
    + injection Ha as <-.
      rewrite Forall_forall in Hrest. apply Hrest.
      by eapply list_elem_of_lookup_2.
    + apply (IH Hc i j); [lia|done..].
Qed.

Lemma MakeCliqueList_fold_elem g exam cands acc clique :
  clique ∈ foldl (λ clique_list item,
                    if candidate_list_is_clique g item
                    then (item ++ [exam]) :: clique_list
                    else clique_list) acc cands ↔
  clique ∈ acc ∨
  ∃ item, item ∈ cands ∧ candidate_list_is_clique g item = true ∧
          clique = item ++ [exam].
Proof.
  revert acc. induction cands as [|item rest IH]; intros acc; simpl.
  - split; [auto | intros [?|(? & []%elem_of_nil & _)]; done].
  - rewrite IH. split.
    + intros [H|(it & Hit & Hc & ->)].
      * destruct (candidate_list_is_clique g item) eqn:Hc; [|by left].
        apply elem_of_cons in H as [->|H]; [|by left].
        right. exists item. split; [left | done].
      * right. exists it. split; [by right | done].
    + intros [H|(it & Hit & Hc & ->)].
      * left. destruct (candidate_list_is_clique g item); [by right | done].
      * apply elem_of_cons in Hit as [->|Hit].
        -- left. rewrite Hc. left.
        -- right. by exists it.
Qed.

Lemma MakeCliqueList_elem g cands exam clique :
  clique ∈ MakeCliqueList g cands exam ↔
  ∃ item, item ∈ cands ∧ candidate_list_is_clique g item = true ∧
          clique = item ++ [exam].
Proof.
  unfold MakeCliqueList. rewrite MakeCliqueList_fold_elem.
  split; [intros [[]%elem_of_nil|?]; done | auto].
Qed.

(** C3.  In a graph with symmetric neighbor references, when every node of
    every candidate is in the examination node's neighbor list, each clique
    returned by [MakeCliqueList] is a candidate followed by the examination
    node, and any two members at different positions are linked in the
    graph: each is in the neighbor list of the other, the examination node
    included. *)
Theorem MakeCliqueList_pairwise_connected g candidate_list examination_node :
  symmetric_graph g →
  (∀ item n, item ∈ candidate_list → n ∈ item →
             n ∈ node_neighbors g examination_node) →
  ∀ clique, clique ∈ MakeCliqueList g candidate_list examination_node →
    (∃ item, item ∈ candidate_list ∧ clique = item ++ [examination_node]) ∧
    ∀ i j a b, i ≠ j → clique !! i = Some a → clique !! j = Some b →
               b ∈ node_neighbors g a ∧ a ∈ node_neighbors g b.
Proof.
  intros Hsym Hnb clique (item & Hin & Hc & ->)%MakeCliqueList_elem.
  split; [by exists item|].
  assert (Hlt : ∀ i j a b, (i < j)%nat →
            (item ++ [examination_node]) !! i = Some a →
            (item ++ [examination_node]) !! j = Some b →
            b ∈ node_neighbors g a ∧ a ∈ node_neighbors g b).
  { intros i j a b Hij Ha Hb.
    assert (Hi : (i < length item)%nat).
    { apply lookup_lt_Some in Hb. rewrite length_app in Hb. simpl in Hb. lia. }
    rewrite lookup_app_l in Ha by done.
    destruct (decide (j < length item)%nat) as [Hj|Hj].
    - rewrite lookup_app_l in Hb by done.
      pose proof (candidate_list_is_clique_pairs g item Hc i j a b Hij Ha Hb)
        as Hab.
      apply IsConnected_spec in Hab. split; [by apply Hsym | done].
    - rewrite lookup_app_r in Hb by lia.
      apply list_lookup_singleton_Some in Hb as [_ <-].
      assert (a ∈ node_neighbors g examination_node) as Hnba.
      { eapply Hnb; [done|]. by eapply list_elem_of_lookup_2. }
      split; [by apply Hsym | done]. }
  intros i j a b Hij Ha Hb.
  destruct (decide (i < j)%nat).
  - by apply (Hlt i j a b).
  - apply and_comm. apply (Hlt j i b a); [lia | done..].
Qed.

(** ** Kminus1CommonNodes *)

Lemma Kminus1_common_spec exam_node other c k :
  Kminus1_common exam_node other c k =
  if decide (c < k - 1 ≤ c + Z.of_nat (occurrences exam_node other))
  then None else Some (c + Z.of_nat (occurrences exam_node other)).
Proof.
  revert c. induction other as [|y rest IH]; intros c; simpl.
  - case_decide; [lia | f_equal; lia].
  - destruct (decide (exam_node = y)) as [->|Hne].
    + destruct (Z.eqb_spec (c + 1) (k - 1)) as [Heq|Hneq].
      * case_decide; [done | lia].
      * rewrite IH. repeat case_decide; try lia; try done. f_equal; lia.
    + rewrite IH. repeat case_decide; try lia; try done.
Qed.

Lemma Kminus1_exam_spec A B c k :
  Kminus1_exam A B c k =
  bool_decide (c < k - 1 ≤ c + Z.of_nat (common_pairs A B)).
Proof.
  revert c. induction A as [|x A' IH]; intros c; simpl.
  - symmetry. apply bool_decide_eq_false. lia.
  - rewrite Kminus1_common_spec. case_decide as Hd.
    + symmetry. apply bool_decide_eq_true. lia.
    + rewrite IH. apply bool_decide_ext. lia.
Qed.

Lemma common_pairs_nil_r A : common_pairs A [] = 0%nat.
Proof. induction A; simpl; auto. Qed.

Lemma common_pairs_cons_r A y B :
  common_pairs A (y :: B) = (occurrences y A + common_pairs A B)%nat.
Proof.
  induction A as [|x A' IH]; simpl; [done|].
  rewrite IH. destruct (decide (x = y)) as [->|Hne].
  - rewrite decide_True by done. lia.
  - rewrite decide_False by congruence. lia.
Qed.

Lemma common_pairs_comm A B : common_pairs A B = common_pairs B A.
Proof.
  induction A as [|x A' IH]; simpl.
  - by rewrite common_pairs_nil_r.
  - by rewrite common_pairs_cons_r, IH.
Qed.

Lemma Kminus1_exam_comm A B k :
  Kminus1_exam A B 0 k = Kminus1_exam B A 0 k.
Proof. by rewrite !Kminus1_exam_spec, common_pairs_comm. Qed.

Lemma occurrences_NoDup x l :
  NoDup l → occurrences x l = if decide (x ∈ l) then 1%nat else 0%nat.
Proof.
  induction 1 as [|y l Hy Hl IH]; cbn [occurrences].
  - rewrite decide_False; [done | apply not_elem_of_nil].
  - rewrite IH. destruct (decide (x = y)) as [->|Hne].
    + rewrite (decide_True (P := y ∈ y :: l)) by left.
      by rewrite decide_False.
    + destruct (decide (x ∈ l)).
      * rewrite decide_True by (by right). done.
      * rewrite decide_False; [done|]. by intros [?|?]%elem_of_cons.
Qed.

Lemma common_pairs_NoDup A B :
  NoDup A → NoDup B →
  common_pairs A B = size (member_set A ∩ member_set B).
Proof.
  unfold member_set. intros HA HB.
  induction HA as [|x A' Hx HA' IH]; cbn [common_pairs].
  - symmetry. apply size_empty_iff. set_solver.
  - rewrite IH, occurrences_NoDup by done.
    rewrite list_to_set_cons.
    replace (({[x]} ∪ list_to_set A') ∩ list_to_set B : gset nat)
      with (({[x]} ∩ list_to_set B) ∪ (list_to_set A' ∩ list_to_set B)
            : gset nat) by set_solver.
    rewrite (size_union (C := gset nat) ({[x]} ∩ list_to_set B)
               (list_to_set A' ∩ list_to_set B)) by set_solver.
    f_equal. case_decide.
    + replace ({[x]} ∩ list_to_set B : gset nat) with ({[x]} : gset nat)
        by set_solver.
      by rewrite size_singleton.
    + replace ({[x]} ∩ list_to_set B : gset nat) with (∅ : gset nat)
        by set_solver.
      by rewrite size_empty.
Qed.

(** ** The community graph *)

Lemma node_clique_AddNeighbor cg a b n :
  node_clique (AddNeighbor cg a b) n = node_clique cg n.
Proof.
  unfold node_clique, AddNeighbor.
  destruct (decide (a = n)) as [->|Hne].
  - rewrite list_lookup_alter_eq. by destruct (cg !! n).
  - by rewrite list_lookup_alter_ne.
Qed.

Lemma length_AddNeighbor cg a b : length (AddNeighbor cg a b) = length cg.
Proof. apply length_alter. Qed.

Lemma node_neighbors_AddNeighbor cg a b n :
  node_neighbors (AddNeighbor cg a b) n =
  if decide (a = n ∧ (n < length cg)%nat) then node_neighbors cg n ++ [b]
  else node_neighbors cg n.
Proof.
  unfold node_neighbors, AddNeighbor.
  destruct (decide (a = n)) as [->|Hne].
  - rewrite list_lookup_alter_eq. destruct (cg !! n) eqn:Hn; simpl.
    + rewrite decide_True; [done|]. split; [done|]. by eapply lookup_lt_Some.
    + rewrite decide_False; [done|]. intros [_ ?].
      apply lookup_ge_None in Hn. lia.
  - rewrite list_lookup_alter_ne by done. rewrite decide_False; tauto.
Qed.

Lemma Kminus1CommonNodes_ext cg cg' gn node k :
  (∀ n, node_clique cg n = node_clique cg' n) →
  Kminus1CommonNodes cg gn node k = Kminus1CommonNodes cg' gn node k.
Proof. intros H. unfold Kminus1CommonNodes. by rewrite !H. Qed.

Lemma AddNeighbors_spec cg graph gn k :
  let cg' := AddNeighbors cg graph gn k in
  length cg' = length cg ∧
  (∀ n, node_clique cg' n = node_clique cg n) ∧
  (∀ n, n ≠ gn → node_neighbors cg' n = node_neighbors cg n) ∧
  (∀ j, j ∈ node_neighbors cg' gn ↔
        j ∈ node_neighbors cg gn ∨
        ((gn < length cg)%nat ∧ j ∈ graph ∧ gn ≠ j ∧
         Kminus1CommonNodes cg gn j k = true)).
Proof.
  unfold AddNeighbors. revert cg.
  induction graph as [|node rest IH]; intros cg; simpl.
  - repeat split; auto. intros [?|(_ & []%elem_of_nil & _)]; done.
  - set (cg1 := if bool_decide (gn ≠ node) && Kminus1CommonNodes cg gn node k
                then AddNeighbor cg gn node else cg).
    assert (Hlen : length cg1 = length cg).
    { unfold cg1. destruct (_ && _); [apply length_AddNeighbor | done]. }
    assert (Hcl : ∀ n, node_clique cg1 n = node_clique cg n).
    { intros n. unfold cg1.
      destruct (_ && _); [apply node_clique_AddNeighbor | done]. }
    assert (Hother : ∀ n, n ≠ gn → node_neighbors cg1 n = node_neighbors cg n).
    { intros n Hn. unfold cg1. destruct (_ && _); [|done].
      rewrite node_neighbors_AddNeighbor. rewrite decide_False; [done|].
      intros [? _]; congruence. }
    destruct (IH cg1) as (IH1 & IH2 & IH3 & IH4).
    split; [congruence|]. split; [intros n; by rewrite IH2|].
    split; [intros n Hn; by rewrite IH3, Hother|].
    intros j. rewrite IH4, Hlen.
    rewrite (Kminus1CommonNodes_ext cg1 cg) by done.
    rewrite elem_of_cons. unfold cg1.
    destruct (bool_decide (gn ≠ node) && Kminus1CommonNodes cg gn node k)
      eqn:Htest.
    + apply andb_true_iff in Htest as [Hne%bool_decide_eq_true HK].
      rewrite node_neighbors_AddNeighbor. case_decide as Hd.
      * rewrite elem_of_app, list_elem_of_singleton. naive_solver.
      * split; [naive_solver|].
        intros [?|(Hlt & [->|?] & ? & ?)]; [naive_solver | tauto | naive_solver].
    + split; [naive_solver|].
      intros [?|(Hlt & [->|?] & Hne & HK)]; [naive_solver | | naive_solver].
      apply andb_false_iff in Htest as [Hf%bool_decide_eq_false|Hf];
        [done | congruence].
Qed.

Lemma AddNeighbors_all_spec cg graph nodes k :
  let cg' := foldl (λ cg node, AddNeighbors cg graph node k) cg nodes in
  length cg' = length cg ∧
  (∀ n, node_clique cg' n = node_clique cg n) ∧
  (∀ i j, j ∈ node_neighbors cg' i ↔
          j ∈ node_neighbors cg i ∨
          (i ∈ nodes ∧ (i < length cg)%nat ∧ j ∈ graph ∧ i ≠ j ∧
           Kminus1CommonNodes cg i j k = true)).
Proof.
  revert cg. induction nodes as [|gn rest IH]; intros cg; simpl.
  - repeat split; auto. intros [?|([]%elem_of_nil & _)]; done.
  - destruct (AddNeighbors_spec cg graph gn k) as (A1 & A2 & A3 & A4).
    destruct (IH (AddNeighbors cg graph gn k)) as (IH1 & IH2 & IH3).
    split; [congruence|]. split; [intros n; by rewrite IH2|].
    intros i j. rewrite IH3, A1, elem_of_cons.
    rewrite (Kminus1CommonNodes_ext _ cg) by done.
    destruct (decide (i = gn)) as [->|Hne].
    + rewrite A4. naive_solver.
    + rewrite A3 by done. naive_solver.
Qed.

Lemma CreateCommunityGraph_spec g clique_list k :
  let cg := CreateCommunityGraph g clique_list k in
  length cg = length clique_list ∧
  (∀ n, node_clique cg n = default [] (clique_list !! n)) ∧
  (∀ i j, j ∈ node_neighbors cg i ↔
          (i < length clique_list)%nat ∧ (j < length clique_list)%nat ∧
          i ≠ j ∧
          Kminus1_exam (default [] (clique_list !! i))
                       (default [] (clique_list !! j)) 0 k = true).
Proof.
  unfold CreateCommunityGraph.
  destruct clique_list as [|c0 cl0] eqn:Hcl.
  - split; [done|]. split; [done|]. intros i j. simpl. split.
    + by intros ?%elem_of_nil.
    + intros (? & _). lia.
  - rewrite <- Hcl. clear Hcl c0 cl0.
    set (cg0 := map _ clique_list).
    assert (Hlen0 : length cg0 = length clique_list) by apply length_map.
    assert (Hcl0 : ∀ n, node_clique cg0 n = default [] (clique_list !! n)).
    { intros n. unfold node_clique, cg0.
      change (map ?f ?l) with (f <$> l). rewrite list_lookup_fmap.
      by destruct (clique_list !! n). }
    assert (Hnb0 : ∀ n, node_neighbors cg0 n = []).
    { intros n. unfold node_neighbors, cg0.
      change (map ?f ?l) with (f <$> l). rewrite list_lookup_fmap.
      by destruct (clique_list !! n). }
    destruct (AddNeighbors_all_spec cg0 (seq 0 (length cg0))
                (seq 0 (length cg0)) k) as (B1 & B2 & B3).
    split; [congruence|]. split; [intros n; by rewrite B2|].
    intros i j. rewrite B3, Hnb0, !elem_of_seq, Hlen0.
    unfold Kminus1CommonNodes. rewrite !Hcl0.
    split.
    + intros [[]%elem_of_nil|(? & ? & ? & ? & ?)].
      repeat split; auto; lia.
    + intros (? & ? & ? & ?). right. repeat split; auto; lia.
Qed.

(** C8.  In the graph returned by [CreateCommunityGraph], community node [b]
    is in the neighbor list of [a] exactly when [a] is in the neighbor list
    of [b]. *)
Theorem CreateCommunityGraph_undirected g clique_list k a b :
  b ∈ node_neighbors (CreateCommunityGraph g clique_list k) a ↔
  a ∈ node_neighbors (CreateCommunityGraph g clique_list k) b.
Proof.
  destruct (CreateCommunityGraph_spec g clique_list k) as (_ & _ & Hnb).
  rewrite !Hnb, (Kminus1_exam_comm (default [] (clique_list !! a))).
  naive_solver.
Qed.

Lemma member_set_size (c : list nat) : NoDup c → size (member_set c) = length c.
Proof. apply size_list_to_set. Qed.

Lemma overlap_below_k (A B : list nat) :
  NoDup A → NoDup B → length A = length B →
  member_set A ≠ member_set B →
  (size (member_set A ∩ member_set B) < length A)%nat.
Proof.
  intros HA HB Hlen Hne.
  pose proof (subseteq_size (member_set A ∩ member_set B) (member_set A)
                ltac:(set_solver)) as Hle.
  rewrite member_set_size in Hle by done.
  destruct (decide (size (member_set A ∩ member_set B) = length A))
    as [Heq|]; [|lia].
  exfalso. apply Hne.
  assert (member_set A ∩ member_set B = member_set A) as HAB.
  { apply set_subseteq_size_eq; [set_solver|].
    rewrite member_set_size by done. lia. }
  apply set_subseteq_size_eq; [set_solver|].
  rewrite !member_set_size by done. lia.
Qed.

(** C5.  For a list of cliques that each hold [k >= 2] distinct nodes and
    have pairwise different member sets, the community graph has one node
    per clique of the list, node [a] is associated with the clique at
    position [a], and two distinct nodes are linked exactly when the
    cliques of the list at their positions have exactly [k - 1] nodes in
    common. *)
Theorem CreateCommunityGraph_edge_iff g clique_list k :
  2 ≤ k →
  Forall (λ c, NoDup c ∧ len c = k) clique_list →
  distinct_member_sets clique_list →
  length (CreateCommunityGraph g clique_list k) = length clique_list ∧
  ∀ a b ca cb, clique_list !! a = Some ca → clique_list !! b = Some cb →
               a ≠ b →
    node_clique (CreateCommunityGraph g clique_list k) a = ca ∧
    node_clique (CreateCommunityGraph g clique_list k) b = cb ∧
    (b ∈ node_neighbors (CreateCommunityGraph g clique_list k) a ↔
     Z.of_nat (size (member_set ca ∩ member_set cb)) = k - 1).
Proof.
  intros Hk Hall Hdist.
  destruct (CreateCommunityGraph_spec g clique_list k) as (Hlen & Hcl & Hnb).
  split; [done|]. intros a b ca cb Hca Hcb Hab.
  rewrite Hnb, !Hcl, Hca, Hcb. simpl. split; [done|]. split; [done|].
  pose proof (lookup_lt_Some _ _ _ Hca) as Ha.
  pose proof (lookup_lt_Some _ _ _ Hcb) as Hb.
  rewrite Forall_forall in Hall.
  destruct (Hall ca) as [HNa Hla]; [by eapply list_elem_of_lookup_2|].
  destruct (Hall cb) as [HNb Hlb]; [by eapply list_elem_of_lookup_2|].
  unfold len in Hla, Hlb.
  assert (member_set ca ≠ member_set cb) as Hne.
  { intros Heq. apply Hab.
    apply (NoDup_lookup _ a b (member_set ca) Hdist).
    - by rewrite list_lookup_fmap, Hca.
    - by rewrite list_lookup_fmap, Hcb, Heq. }
  pose proof (overlap_below_k ca cb HNa HNb ltac:(lia) Hne) as Hlt.
  rewrite Kminus1_exam_spec, bool_decide_eq_true.
  rewrite common_pairs_NoDup by done.
  split; [lia|]. intros Heq. repeat split; auto; lia.
Qed.

Lemma CreateCommunityGraph_edge_iff_witness :
  node_clique
    (CreateCommunityGraph [] [[1; 2; 0]; [3; 1; 2]; [5; 6; 4]]%nat 3) 0%nat =
    [1; 2; 0]%nat ∧
  node_clique
    (CreateCommunityGraph [] [[1; 2; 0]; [3; 1; 2]; [5; 6; 4]]%nat 3) 1%nat =
    [3; 1; 2]%nat ∧
  (1%nat ∈ node_neighbors
         (CreateCommunityGraph [] [[1; 2; 0]; [3; 1; 2]; [5; 6; 4]]%nat 3)
         0%nat ↔
   Z.of_nat (size (member_set [1; 2; 0]%nat ∩ member_set [3; 1; 2]%nat))
   = 3 - 1).
Proof.
  refine (proj2 (CreateCommunityGraph_edge_iff []
                   [[1; 2; 0]; [3; 1; 2]; [5; 6; 4]]%nat 3 _ _ _)
                0%nat 1%nat [1; 2; 0]%nat [3; 1; 2]%nat _ _ _).
  - lia.
  - refine (bool_decide_unpack _ _). vm_compute. exact I.
  - refine (bool_decide_unpack _ _). vm_compute. exact I.
  - reflexivity.
  - reflexivity.
  - lia.
Defined.

(** ** NotRecorded and MergeCliques *)

Lemma NotRecorded_exam_spec node clique_nodes mc :
  NotRecorded_exam node clique_nodes mc =
  if decide (0 < mc ≤ Z.of_nat (occurrences node clique_nodes)) then None
  else Some (mc - Z.of_nat (occurrences node clique_nodes)).
Proof.
  revert mc. induction clique_nodes as [|y rest IH]; intros mc; simpl.
  - case_decide; [lia | f_equal; lia].
  - destruct (decide (y = node)) as [->|Hne].
    + rewrite (decide_True (P := node = node)) by done.
      destruct (Z.eqb_spec (mc - 1) 0) as [Heq|Hneq].
      * case_decide; [done | lia].
      * rewrite IH. repeat case_decide; try lia; try done. f_equal; lia.
    + rewrite (decide_False (P := node = y)) by congruence.
      rewrite IH. repeat case_decide; try lia; try done.
Qed.

Lemma NotRecorded_item_spec item_nodes clique_nodes mc :
  NotRecorded_item item_nodes clique_nodes mc =
  if decide (0 < mc ≤ Z.of_nat (common_pairs item_nodes clique_nodes))
  then None
  else Some (mc - Z.of_nat (common_pairs item_nodes clique_nodes)).
Proof.
  revert mc. induction item_nodes as [|x rest IH]; intros mc; simpl.
  - case_decide; [lia | f_equal; lia].
  - rewrite NotRecorded_exam_spec. case_decide as Hd.
    + case_decide; [done | lia].
    + rewrite IH. repeat case_decide; try lia; try done. f_equal; lia.
Qed.

Lemma NotRecorded_false clique clique_list :
  NotRecorded clique clique_list = false ↔
  ∃ item, item ∈ clique_list ∧ records item clique.
Proof.
  unfold records. induction clique_list as [|item rest IH]; simpl.
  - split; [discriminate | intros (? & []%elem_of_nil & _)].
  - destruct (Z.eqb_spec (len item) (len clique)) as [Heq|Hneq]; simpl.
    + rewrite NotRecorded_item_spec. case_decide as Hd.
      * split; [|done]. intros _. exists item. split; [left | done].
      * rewrite IH. split.
        -- intros (it & ? & ?). exists it. split; [by right | done].
        -- intros (it & [->|?]%elem_of_cons & ?); [tauto | by exists it].
    + rewrite IH. split.
      * intros (it & ? & ?). exists it. split; [by right | done].
      * intros (it & [->|?]%elem_of_cons & ?); [tauto | by exists it].
Qed.

Lemma NotRecorded_false_app clique l l' :
  NotRecorded clique l = false → NotRecorded clique (l ++ l') = false.
Proof.
  rewrite !NotRecorded_false. intros (it & ? & ?). exists it.
  split; [apply elem_of_app; by left | done].
Qed.

Lemma occurrences_elem x l : x ∈ l → (1 ≤ occurrences x l)%nat.
Proof.
  induction l as [|y l IH]; simpl.
  - by intros ?%elem_of_nil.
  - intros [->|?]%elem_of_cons.
    + rewrite decide_True by done. lia.
    + specialize (IH ltac:(done)). lia.
Qed.

Lemma common_pairs_incl A B :
  (∀ x, x ∈ A → x ∈ B) → (length A ≤ common_pairs A B)%nat.
Proof.
  induction A as [|x A IH]; simpl; intros HAB; [lia|].
  pose proof (occurrences_elem x B (HAB x ltac:(left))) as Hx.
  specialize (IH (λ y Hy, HAB y ltac:(by right))). lia.
Qed.

Lemma records_same_member_set item clique :
  len item = len clique → item ≠ [] →
  member_set item = member_set clique → records item clique.
Proof.
  unfold records, len. intros Hlen Hne Hset. split; [done|].
  pose proof (common_pairs_incl item clique) as Hle.
  destruct item; [done|]. simpl length in *.
  split; [lia|]. apply inj_le, Hle. intros x Hx.
  apply (elem_of_list_to_set (C := gset nat)).
  unfold member_set in Hset. rewrite <- Hset.
  by apply elem_of_list_to_set.
Qed.

Lemma records_refl clique : clique ≠ [] → records clique clique.
Proof. intros. by apply records_same_member_set. Qed.

Lemma NotRecorded_nil clique_list : NotRecorded [] clique_list = true.
Proof.
  destruct (NotRecorded [] clique_list) eqn:H; [done|].
  apply NotRecorded_false in H as (it & _ & Hlen & Hpos & _).
  unfold len in *. simpl in *. lia.
Qed.

Lemma MergeCliques_loop dest src :
  dest ≠ [] → MergeCliques dest src = merge_loop dest src.
Proof. by destruct dest. Qed.

Lemma merge_loop_extends dest src :
  ∃ added, merge_loop dest src = dest ++ added ∧
           ∀ c, c ∈ added → c ∈ src.
Proof.
  revert dest. induction src as [|c src IH]; intros dest; simpl.
  - exists []. split; [by rewrite app_nil_r | by intros ? ?%elem_of_nil].
  - destruct (NotRecorded c dest).
    + destruct (IH (dest ++ [c])) as (added & -> & Hadd).
      exists (c :: added). split; [by rewrite <- app_assoc|].
      intros c' [->|?]%elem_of_cons; [left | right; auto].
    + destruct (IH dest) as (added & -> & Hadd).
      exists added. split; [done|]. intros c' ?; right; auto.
Qed.

Lemma merge_loop_ne dest src : dest ≠ [] → merge_loop dest src ≠ [].
Proof.
  intros Hne. destruct (merge_loop_extends dest src) as (added & -> & _).
  by destruct dest.
Qed.

(** After the loop every non-empty source clique is found recorded, and an
    empty source clique has been appended. *)
Lemma merge_loop_records dest src :
  ∀ c, c ∈ src →
    (c ≠ [] → NotRecorded c (merge_loop dest src) = false) ∧
    (c = [] → c ∈ merge_loop dest src).
Proof.
  revert dest. induction src as [|c0 src IH]; intros dest c Hc; simpl.
  - by apply elem_of_nil in Hc.
  - set (dest1 := if NotRecorded c0 dest then dest ++ [c0] else dest).
    apply elem_of_cons in Hc as [->|Hc]; [|by apply IH].
    destruct (merge_loop_extends dest1 src) as (added & Hext & _).
    fold (merge_loop dest1 src). rewrite Hext. split.
    + intros Hne. apply NotRecorded_false_app. unfold dest1.
      destruct (NotRecorded c0 dest) eqn:Hnr; [|done].
      apply NotRecorded_false. exists c0.
      split; [apply elem_of_app; right; left | by apply records_refl].
    + intros ->. apply elem_of_app; left. unfold dest1.
      rewrite NotRecorded_nil. apply elem_of_app; right; left.
Qed.

Lemma member_sets_app l l' :
  member_sets (l ++ l') = member_sets l ∪ member_sets l'.
Proof. unfold member_sets. by rewrite fmap_app, list_to_set_app_L. Qed.

Lemma elem_of_member_sets S l :
  S ∈ member_sets l ↔ ∃ c, c ∈ l ∧ member_set c = S.
Proof.
  unfold member_sets. rewrite elem_of_list_to_set, list_elem_of_fmap.
  naive_solver.
Qed.

Lemma merge_loop_recorded_noop dest src :
  (∀ c, c ∈ src → c ≠ [] → NotRecorded c dest = false) →
  ([] ∈ src → [] ∈ dest) →
  member_sets (merge_loop dest src) = member_sets dest.
Proof.
  revert dest. induction src as [|c src IH]; intros dest Hrec Hnil; simpl.
  - done.
  - fold (merge_loop (if NotRecorded c dest then dest ++ [c] else dest) src).
    destruct (NotRecorded c dest) eqn:Hnr.
    + assert (c = []) as ->.
      { destruct c; [done|]. rewrite Hrec in Hnr; [done | left | done]. }
      rewrite IH.
      * rewrite member_sets_app. apply set_eq. intros S.
        rewrite elem_of_union, !elem_of_member_sets.
        split; [|auto]. intros [?|(c & ->%list_elem_of_singleton & <-)]; [done|].
        exists []. split; [apply Hnil; left | done].
      * intros c Hc Hne. apply NotRecorded_false_app, Hrec; [by right | done].
      * intros _. apply elem_of_app; right; left.
    + apply IH.
      * intros c' Hc' Hne. apply Hrec; [by right | done].
      * intros H. apply Hnil. by right.
Qed.

(** Merging again without empty cliques in the source appends nothing. *)
Lemma merge_loop_recorded_same dest src :
  (∀ c, c ∈ src → NotRecorded c dest = false) → merge_loop dest src = dest.
Proof.
  induction src as [|c src IH]; intros Hrec; simpl; [done|].
  rewrite (Hrec c) by left. apply IH. intros c' ?. apply Hrec. by right.
Qed.

(** C7.  Merging the same incoming list a second time into a non-empty
    global list leaves the set of member sets of the global list as the
    first merge made it. *)
Theorem MergeCliques_idempotent global incoming :
  global ≠ [] →
  member_sets (MergeCliques (MergeCliques global incoming) incoming) =
  member_sets (MergeCliques global incoming).
Proof.
  intros Hne. rewrite (MergeCliques_loop global) by done.
  rewrite MergeCliques_loop by by apply merge_loop_ne.
  apply merge_loop_recorded_noop.
  - intros c Hc Hcne. by apply merge_loop_records.
  - intros Hnil. by apply merge_loop_records.
Qed.

Lemma MergeCliques_idempotent_witness :
  member_sets (MergeCliques (MergeCliques [[1; 2; 0]; [3; 4; 2]]
                                          [[2; 0; 1]; [5; 6; 3]])
                            [[2; 0; 1]; [5; 6; 3]])%nat =
  member_sets (MergeCliques [[1; 2; 0]; [3; 4; 2]]
                            [[2; 0; 1]; [5; 6; 3]])%nat.
Proof. apply MergeCliques_idempotent. discriminate. Defined.

(** With no empty clique in the incoming list, the second merge returns the
    very same list. *)
Lemma MergeCliques_twice_same_list global incoming :
  global ≠ [] → Forall (λ c, c ≠ []) incoming →
  MergeCliques (MergeCliques global incoming) incoming =
  MergeCliques global incoming.
Proof.
  intros Hne Hall. rewrite (MergeCliques_loop global) by done.
  rewrite MergeCliques_loop by by apply merge_loop_ne.
  apply merge_loop_recorded_same. intros c Hc.
  apply merge_loop_records; [done|]. rewrite Forall_forall in Hall. auto.
Qed.

(** C6 as stated fails for [MergeCliques]: called with a nil global list it
    returns nil and the incoming cliques are lost. *)
Lemma MergeCliques_nil_global_loses_incoming :
  MergeCliques [] [[0; 1; 2]%nat] = [] ∧
  member_sets (MergeCliques [] [[0; 1; 2]%nat]) ≠
  member_sets [[0; 1; 2]%nat].
Proof.
  split; [reflexivity|]. intros H.
  assert (member_set [0; 1; 2]%nat ∈
          member_sets (MergeCliques [] [[0; 1; 2]%nat])) as Hin.
  { rewrite H. apply elem_of_member_sets. exists [0; 1; 2]%nat.
    split; [left | done]. }
  apply elem_of_member_sets in Hin as (c & Hc & _).
  by apply elem_of_nil in Hc.
Qed.

(** C6, amended.  The nil global list is handled by the loop of main, whose
    merge statement takes the incoming list as the global list;
    [MergeCliques] itself returns nil there.  An empty incoming list leaves
    the global list as it is, through either. *)
Theorem merge_nil_cases :
  (∀ incoming, main_merge [] incoming = incoming) ∧
  (∀ incoming, MergeCliques [] incoming = []) ∧
  (∀ global, MergeCliques global [] = global) ∧
  (∀ global, main_merge global [] = global).
Proof.
  repeat split; try done.
  - by intros [|c l].
  - by intros [|c l].
Qed.

(** ** IsDuplicate *)

Lemma IsDuplicate_item_spec cc item mc :
  IsDuplicate_item cc item mc =
  bool_decide (0 < mc ≤ Z.of_nat (found_count cc item)).
Proof.
  revert mc. induction cc as [|c cc IH]; intros mc; cbn [IsDuplicate_item found_count].
  - symmetry. apply bool_decide_eq_false. simpl. lia.
  - destruct (IsDuplicate_find c item) eqn:Hf.
    + apply IsDuplicate_find_spec in Hf. rewrite decide_True by done.
      destruct (Z.eqb_spec (mc - 1) 0) as [Heq|Hneq].
      * symmetry. apply bool_decide_eq_true. lia.
      * rewrite IH. apply bool_decide_ext. lia.
    + rewrite decide_False.
      * rewrite IH. apply bool_decide_ext. lia.
      * intros Hin%IsDuplicate_find_spec. congruence.
Qed.

Lemma found_count_le cc item : (found_count cc item ≤ length cc)%nat.
Proof. induction cc; simpl; [lia|]. case_decide; lia. Qed.

Lemma found_count_all cc item :
  found_count cc item = length cc ↔ cc ⊆ item.
Proof.
  induction cc as [|c cc IH]; cbn [found_count length].
  - split; [intros _ x []%elem_of_nil | done].
  - pose proof (found_count_le cc item). case_decide as Hc.
    + split.
      * intros Heq x [->|Hx]%elem_of_cons; [done|]. apply IH; [lia | done].
      * intros Hsub. f_equal. apply IH. intros x Hx. apply Hsub. by right.
    + split; [lia|]. intros Hsub. exfalso. apply Hc, Hsub. left.
Qed.

Lemma IsDuplicate_spec cc clist :
  IsDuplicate cc clist = true ↔
  cc ≠ [] ∧ ∃ item, item ∈ clist ∧ cc ⊆ item.
Proof.
  induction clist as [|item rest IH]; cbn [IsDuplicate].
  - split; [discriminate | intros (_ & ? & []%elem_of_nil & _)].
  - rewrite IsDuplicate_item_spec. unfold len.
    pose proof (found_count_le cc item) as Hle.
    pose proof (found_count_all cc item) as Hall.
    case_bool_decide as Hd.
    + split; [|done]. intros _. split.
      * intros ->. simpl in Hd. lia.
      * exists item. split; [left|]. apply Hall. lia.
    + rewrite IH. split.
      * intros (? & it & ? & ?). split; [done|]. exists it.
        split; [by right | done].
      * intros (Hne & it & [->|Hin]%elem_of_cons & Hsub).
        -- exfalso. apply Hd. apply Hall in Hsub.
           destruct cc; [done|]. simpl length in *. lia.
        -- split; [done|]. by exists it.
Qed.

(** ** GetCliqueCandidates *)

Lemma GetCliqueCandidates_unfold k node_list :
  GetCliqueCandidates k node_list =
  if k <? 2 then []
  else if len node_list <? k - 1 then []
  else if len node_list =? k - 1 then [node_list]
  else match node_list with
       | [] => []
       | node :: rest =>
           foldl (substitute_item node) (GetCliqueCandidates k rest)
                 (GetCliqueCandidates k rest)
       end.
Proof. by destruct node_list. Qed.

Lemma GetCliqueCandidates_small k node_list :
  k < 2 ∨ len node_list < k - 1 → GetCliqueCandidates k node_list = [].
Proof.
  intros H. rewrite GetCliqueCandidates_unfold.
  destruct (Z.ltb_spec k 2); [done|].
  destruct (Z.ltb_spec (len node_list) (k - 1)); [done | lia].
Qed.

Lemma GetCliqueCandidates_base k node_list :
  2 ≤ k → len node_list = k - 1 → GetCliqueCandidates k node_list = [node_list].
Proof.
  intros Hk H. rewrite GetCliqueCandidates_unfold.
  destruct (Z.ltb_spec k 2); [lia|].
  destruct (Z.ltb_spec (len node_list) (k - 1)); [lia|].
  destruct (Z.eqb_spec (len node_list) (k - 1)); [done | lia].
Qed.

Lemma GetCliqueCandidates_step k node rest :
  2 ≤ k → k - 1 < len (node :: rest) →
  GetCliqueCandidates k (node :: rest) =
  foldl (substitute_item node) (GetCliqueCandidates k rest)
        (GetCliqueCandidates k rest).
Proof.
  intros Hk H. rewrite GetCliqueCandidates_unfold.
  destruct (Z.ltb_spec k 2); [lia|].
  destruct (Z.ltb_spec (len (node :: rest)) (k - 1)); [lia|].
  destruct (Z.eqb_spec (len (node :: rest)) (k - 1)); [lia | done].
Qed.

(** The index [node_list[0]] is in range whenever it is reached. *)
Lemma GetCliqueCandidates_cases k node_list :
  (GetCliqueCandidates k node_list = [] ∧ (k < 2 ∨ len node_list < k - 1)) ∨
  (GetCliqueCandidates k node_list = [node_list] ∧
   2 ≤ k ∧ len node_list = k - 1) ∨
  (∃ node rest, node_list = node :: rest ∧ 2 ≤ k ∧ k - 1 < len node_list ∧
     GetCliqueCandidates k node_list =
     foldl (substitute_item node) (GetCliqueCandidates k rest)
           (GetCliqueCandidates k rest)).
Proof.
  destruct (Z.lt_ge_cases k 2) as [?|Hk].
  { left. split; [apply GetCliqueCandidates_small|]; auto. }
  destruct (Z.lt_total (len node_list) (k - 1)) as [?|[?|Hgt]].
  - left. split; [apply GetCliqueCandidates_small|]; auto.
  - right; left. split; [by apply GetCliqueCandidates_base | lia].
  - right; right. destruct node_list as [|node rest].
    + unfold len in Hgt. simpl in Hgt. lia.
    + exists node, rest. repeat split; try lia.
      apply GetCliqueCandidates_step; lia.
Qed.

(** Induction over the two substitution loops: a property of the
    accumulated list that survives every push holds at the end. *)
Lemma substitute_fold_ind node (P : list (list nat) → Prop) items ret0 :
  P ret0 →
  (∀ ret item i, item ∈ items → (i < length item)%nat → P ret →
     IsDuplicate (<[i := node]> item) ret = false →
     P (<[i := node]> item :: ret)) →
  P (foldl (substitute_item node) ret0 items).
Proof.
  revert ret0. induction items as [|item items IH]; intros ret0 H0 Hstep.
  - done.
  - simpl. apply IH.
    + unfold substitute_item.
      assert (Hidx : ∀ i, i ∈ seq 0 (length item) → (i < length item)%nat).
      { intros i Hi%elem_of_seq. lia. }
      revert ret0 H0 Hidx. generalize (seq 0 (length item)).
      intros idx. induction idx as [|i idx IHi]; intros ret0 H0 Hidx.
      * done.
      * simpl. apply IHi.
        -- unfold substitute_at.
           destruct (IsDuplicate (<[i:=node]> item) ret0) eqn:Hdup; [done|].
           apply Hstep; [left | apply Hidx; left | done | done].
        -- intros j Hj. apply Hidx. by right.
    + intros ret it i Hit. apply Hstep. by right.
Qed.

Lemma elem_of_insert_inv (l : list nat) i x y :
  x ∈ <[i := y]> l → x = y ∨ x ∈ l.
Proof.
  revert i. induction l as [|z l IH]; intros i; simpl.
  - by intros ?%elem_of_nil.
  - destruct i as [|i]; simpl.
    + intros [->|?]%elem_of_cons; [by left | right; by right].
    + intros [->|H]%elem_of_cons; [right; left|].
      destruct (IH i H); [by left | right; by right].
Qed.

Lemma GetCliqueCandidates_shape k node_list :
  Forall (λ c, len c = k - 1 ∧ c ⊆ node_list)
         (GetCliqueCandidates k node_list).
Proof.
  induction node_list as [|node rest IH].
  { destruct (GetCliqueCandidates_cases k []) as
      [[-> _]|[[-> [_ ?]]|(? & ? & Heq & _)]];
      [constructor | by apply Forall_singleton | done]. }
  destruct (GetCliqueCandidates_cases k (node :: rest)) as
    [[-> _]|[[-> [_ ?]]|(? & ? & Heq & Hk & Hlen & ->)]];
    [constructor | by apply Forall_singleton | ].
  injection Heq as <- <-.
  rewrite Forall_forall in IH.
  apply substitute_fold_ind.
  - apply Forall_forall. intros c Hc. destruct (IH c Hc) as [? Hsub].
    split; [done|]. intros x Hx. right. by apply Hsub.
  - intros ret item i Hitem Hi Hret _. constructor; [|done].
    destruct (IH item Hitem) as [Hl Hsub]. unfold len in *.
    rewrite length_insert. split; [done|].
    intros x Hx. apply elem_of_insert_inv in Hx as [->|Hx]; [left|].
    right. by apply Hsub.
Qed.

Lemma member_set_subseteq (c c' : list nat) :
  member_set c = member_set c' → c ⊆ c'.
Proof.
  unfold member_set. intros Heq x Hx.
  apply (elem_of_list_to_set (C := gset nat)). rewrite <- Heq.
  by apply elem_of_list_to_set.
Qed.

Lemma GetCliqueCandidates_distinct k node_list :
  distinct_member_sets (GetCliqueCandidates k node_list).
Proof.
  unfold distinct_member_sets.
  induction node_list as [|node rest IH].
  { destruct (GetCliqueCandidates_cases k []) as
      [[-> _]|[[-> _]|(? & ? & Heq & _)]];
      [constructor | apply NoDup_singleton | done]. }
  destruct (GetCliqueCandidates_cases k (node :: rest)) as
    [[-> _]|[[-> _]|(? & ? & Heq & Hk & Hlen & ->)]];
    [constructor | apply NoDup_singleton | ].
  injection Heq as <- <-.
  pose proof (GetCliqueCandidates_shape k rest) as Hshape.
  rewrite Forall_forall in Hshape.
  apply (substitute_fold_ind node (λ ret, NoDup (member_set <$> ret)));
    [done|].
  intros ret item i Hitem Hi Hret Hdup. rewrite fmap_cons.
  apply NoDup_cons. split; [|done].
  intros (c & Hset & Hc)%list_elem_of_fmap.
  assert (IsDuplicate (<[i:=node]> item) ret = true) as Htrue;
    [|congruence].
  apply IsDuplicate_spec. split.
  - intros Hnil. apply (f_equal length) in Hnil.
    rewrite length_insert in Hnil. simpl in Hnil. lia.
  - exists c. split; [done|]. by apply member_set_subseteq.
Qed.

Lemma NoDup_insert_fresh (l : list nat) i x :
  NoDup l → x ∉ l → NoDup (<[i := x]> l).
Proof.
  intros Hl. revert i. induction Hl as [|y l Hy Hl IH]; intros i Hx.
  - constructor.
  - apply not_elem_of_cons in Hx as [Hxy Hxl].
    destruct i as [|i]; simpl.
    + by constructor.
    + constructor; [|by apply IH].
      intros [->|?]%elem_of_insert_inv; done.
Qed.

Lemma GetCliqueCandidates_NoDup k node_list :
  NoDup node_list → Forall NoDup (GetCliqueCandidates k node_list).
Proof.
  induction node_list as [|node rest IH]; intros Hnd.
  { destruct (GetCliqueCandidates_cases k []) as
      [[-> _]|[[-> _]|(? & ? & Heq & _)]];
      [constructor | by apply Forall_singleton | done]. }
  destruct (GetCliqueCandidates_cases k (node :: rest)) as
    [[-> _]|[[-> _]|(? & ? & Heq & Hk & Hlen & ->)]];
    [constructor | by apply Forall_singleton | ].
  injection Heq as <- <-.
  apply NoDup_cons in Hnd as [Hnode Hrest].
  specialize (IH Hrest). rewrite Forall_forall in IH.
  pose proof (GetCliqueCandidates_shape k rest) as Hshape.
  rewrite Forall_forall in Hshape.
  apply substitute_fold_ind; [by apply Forall_forall|].
  intros ret item i Hitem Hi Hret _. constructor; [|done].
  apply NoDup_insert_fresh; [by apply IH|].
  intros Hin. apply Hnode. by apply (Hshape item Hitem).
Qed.

(** *** What the substitution loops have pushed *)

Lemma substitute_at_mono node item ret i c :
  c ∈ ret → c ∈ substitute_at node item ret i.
Proof.
  unfold substitute_at. destruct (IsDuplicate _ ret); [done | by right].
Qed.

Lemma substitute_at_covers node item ret i :
  ∃ c, c ∈ substitute_at node item ret i ∧ <[i := node]> item ⊆ c.
Proof.
  unfold substitute_at.
  destruct (IsDuplicate (<[i:=node]> item) ret) eqn:Hdup.
  - apply IsDuplicate_spec in Hdup as (_ & c & ? & ?). by exists c.
  - exists (<[i:=node]> item). split; [left | done].
Qed.

Lemma substitute_at_fold_mono node item idx ret c :
  c ∈ ret → c ∈ foldl (substitute_at node item) ret idx.
Proof.
  revert ret. induction idx as [|j idx IH]; intros ret Hc; simpl; [done|].
  by apply IH, substitute_at_mono.
Qed.

Lemma substitute_at_fold_covers node item idx ret i :
  i ∈ idx →
  ∃ c, c ∈ foldl (substitute_at node item) ret idx ∧ <[i := node]> item ⊆ c.
Proof.
  revert ret. induction idx as [|j idx IH]; intros ret Hi; simpl.
  - by apply elem_of_nil in Hi.
  - apply elem_of_cons in Hi as [->|Hi]; [|by apply IH].
    destruct (substitute_at_covers node item ret j) as (c & Hc & Hsub).
    exists c. split; [by apply substitute_at_fold_mono | done].
Qed.

Lemma substitute_fold_mono node items ret c :
  c ∈ ret → c ∈ foldl (substitute_item node) ret items.
Proof.
  revert ret. induction items as [|it items IH]; intros ret Hc; simpl; [done|].
  by apply IH, substitute_at_fold_mono.
Qed.

Lemma substitute_fold_covers node items ret item i :
  item ∈ items → (i < length item)%nat →
  ∃ c, c ∈ foldl (substitute_item node) ret items ∧ <[i := node]> item ⊆ c.
Proof.
  revert ret. induction items as [|it items IH]; intros ret Hitem Hi; simpl.
  - by apply elem_of_nil in Hitem.
  - apply elem_of_cons in Hitem as [->|Hitem]; [|by apply IH].
    destruct (substitute_at_fold_covers node it (seq 0 (length it)) ret i)
      as (c & Hc & Hsub); [apply elem_of_seq; lia|].
    exists c. split; [by apply substitute_fold_mono | done].
Qed.

Lemma elem_of_insert_NoDup (item : list nat) i x y z :
  NoDup item → item !! i = Some y →
  z ∈ <[i := x]> item ↔ z = x ∨ (z ∈ item ∧ z ≠ y).
Proof.
  intros Hnd. revert i. induction Hnd as [|a l Ha Hl IH]; intros i Hi.
  - done.
  - destruct i as [|i]; simpl in *.
    + injection Hi as ->. rewrite !elem_of_cons.
      split; [|tauto]. intros [?|?]; [by left | right].
      split; [by right | congruence].
    + rewrite !elem_of_cons, (IH i Hi).
      assert (y ∈ l) by by eapply list_elem_of_lookup_2.
      split; [|tauto]. intros [->|[?|[? ?]]]; [right | by left | right].
      * split; [by left | congruence].
      * split; [by right | done].
Qed.

Lemma member_set_insert (item : list nat) i x y :
  NoDup item → item !! i = Some y →
  member_set (<[i := x]> item) = {[x]} ∪ (member_set item ∖ {[y]}).
Proof.
  unfold member_set. intros Hnd Hi. apply set_eq. intros z.
  rewrite elem_of_union, elem_of_difference, !elem_of_singleton,
    !elem_of_list_to_set.
  by apply elem_of_insert_NoDup.
Qed.

Lemma member_set_size_le (c : list nat) :
  (size (member_set c) ≤ length c)%nat.
Proof.
  unfold member_set. induction c as [|x c IH]; cbn [length].
  - by rewrite list_to_set_nil, size_empty.
  - rewrite list_to_set_cons.
    pose proof (size_union_alt (C := gset nat) {[x]} (list_to_set c)) as H.
    pose proof (subseteq_size (C := gset nat)
                  (list_to_set c ∖ {[x]}) (list_to_set c)
                  ltac:(set_solver)) as H'.
    rewrite size_singleton in H. lia.
Qed.

Lemma subset_size_eq (c c' : list nat) :
  NoDup c → length c = length c' → c ⊆ c' → member_set c = member_set c'.
Proof.
  intros Hnd Hlen Hsub. apply set_subseteq_size_eq.
  - intros x. unfold member_set. rewrite !elem_of_list_to_set. apply Hsub.
  - rewrite (member_set_size c) by done. rewrite Hlen.
    apply member_set_size_le.
Qed.

Lemma GetCliqueCandidates_covers k node_list :
  NoDup node_list → 2 ≤ k →
  ∀ S : gset nat, S ⊆ member_set node_list → Z.of_nat (size S) = k - 1 →
                  S ∈ member_sets (GetCliqueCandidates k node_list).
Proof.
  intros Hnd Hk. induction Hnd as [|node rest Hnode Hrest IH]; intros S HS Hsize.
  { pose proof (subseteq_size _ _ HS) as Hle.
    pose proof (member_set_size_le []) as Hle'. cbn [length] in Hle'. lia. }
  pose proof (subseteq_size _ _ HS) as Hle.
  pose proof (member_set_size (node :: rest)
                ltac:(by apply NoDup_cons)) as Hsz.
  destruct (GetCliqueCandidates_cases k (node :: rest)) as
    [[_ Hsmall]|[[-> [_ Hbase]]|(? & ? & Heq & _ & Hlen & Hstep)]].
  - unfold len in Hsmall. lia.
  - apply elem_of_member_sets. exists (node :: rest). split; [left|].
    symmetry. apply set_subseteq_size_eq; [done|]. unfold len in Hbase. lia.
  - injection Heq as <- <-.
    pose proof (member_set_size rest Hrest) as Hszr.
    unfold len in Hlen. simpl length in Hlen.
    pose proof (GetCliqueCandidates_shape k (node :: rest)) as Hshape'.
    rewrite Forall_forall in Hshape'.
    rewrite Hstep in Hshape' |- *.
    destruct (decide (node ∈ S)) as [Hin|Hnin].
    + (* the subsets holding the removed node come from a substitution *)
      set (S' := S ∖ {[node]}).
      assert (size S' = size S - 1)%nat as HszS'.
      { unfold S'. rewrite size_difference by set_solver.
        by rewrite size_singleton. }
      assert (S' ⊆ member_set rest) as HS'.
      { unfold S', member_set in *. set_solver. }
      assert (∃ y, y ∈ member_set rest ∖ S') as [y Hy].
      { apply size_pos_elem_of. rewrite size_difference by done. lia. }
      apply elem_of_difference in Hy as [Hyr HyS'].
      destruct (elem_of_member_sets ({[y]} ∪ S') (GetCliqueCandidates k rest))
        as [(item & Hitem & Hset) _].
      { apply IH; [set_solver|].
        rewrite size_union by set_solver. rewrite size_singleton. lia. }
      pose proof (GetCliqueCandidates_NoDup k rest Hrest) as Hnds.
      rewrite Forall_forall in Hnds. specialize (Hnds item Hitem).
      pose proof (GetCliqueCandidates_shape k rest) as Hshape.
      rewrite Forall_forall in Hshape.
      destruct (Hshape item Hitem) as [Hlitem Hsub].
      assert (y ∈ item) as Hyi.
      { apply (elem_of_list_to_set (C := gset nat)).
        fold (member_set item). rewrite Hset. set_solver. }
      apply list_elem_of_lookup_1 in Hyi as [i Hi].
      pose proof (lookup_lt_Some _ _ _ Hi) as Hilt.
      destruct (substitute_fold_covers node (GetCliqueCandidates k rest)
                  (GetCliqueCandidates k rest) item i Hitem Hilt)
        as (c & Hc & Hcsub).
      apply elem_of_member_sets. exists c. split; [done|].
      rewrite <- (subset_size_eq (<[i:=node]> item) c).
      * rewrite (member_set_insert item i node y) by done.
        rewrite Hset. unfold S'. apply set_eq. intros z.
        destruct (decide (z = node)) as [->|?]; set_solver.
      * apply NoDup_insert_fresh; [done|]. intros Hni. by apply Hnode, Hsub.
      * rewrite length_insert. destruct (Hshape' c Hc) as [Hlc _].
        unfold len in *. lia.
      * done.
    + (* the others are kept from the recursive result *)
      destruct (elem_of_member_sets S (GetCliqueCandidates k rest))
        as [(c & Hc & Hset) _].
      { apply IH; [|done]. unfold member_set in *. set_solver. }
      apply elem_of_member_sets. exists c.
      split; [by apply substitute_fold_mono | done].
Qed.

(** ** Counting the subsets of a given size *)

Lemma choose_gt n m : (n < m)%nat → choose n m = 0%nat.
Proof.
  revert m. induction n as [|n IH]; intros [|m] H; simpl; try lia.
  rewrite !IH by lia. done.
Qed.

Lemma choose_diag n : choose n n = 1%nat.
Proof. induction n; simpl; [done|]. rewrite IHn, choose_gt by lia. done. Qed.

(** [choose] is the binomial coefficient n! / (m! (n-m)!). *)
Lemma choose_fact n m :
  (m ≤ n)%nat → (choose n m * (fact m * fact (n - m)) = fact n)%nat.
Proof.
  revert m. induction n as [|n IH]; intros m Hm.
  - assert (m = 0%nat) as -> by lia. done.
  - destruct m as [|m].
    + cbn [choose fact]. rewrite Nat.sub_0_r. simpl. lia.
    + destruct (decide (m = n)) as [->|Hne].
      * rewrite choose_diag, Nat.sub_diag. simpl. lia.
      * cbn [choose]. replace (S n - S m)%nat with (n - m)%nat by lia.
        pose proof (IH m ltac:(lia)) as H1.
        pose proof (IH (S m) ltac:(lia)) as H2.
        replace (n - m)%nat with (S (n - S m)) in * by lia.
        change (fact (S n)) with (S n * fact n)%nat.
        change (fact (S (n - S m))) with (S (n - S m) * fact (n - S m))%nat
          in *.
        change (fact (S m)) with (S m * fact m)%nat in *.
        replace (S n) with (S m + S (n - S m))%nat at 3 by lia.
        nia.
Qed.

Lemma NoDup_all_equal_length (R : list (gset nat)) a :
  NoDup R → a ∈ R → (∀ S, S ∈ R → S = a) → length R = 1%nat.
Proof.
  intros Hnd Ha Hall. destruct R as [|S1 [|S2 R]].
  - by apply elem_of_nil in Ha.
  - done.
  - exfalso. apply NoDup_cons in Hnd as [Hnin _]. apply Hnin.
    rewrite (Hall S1) by left. rewrite (Hall S2) by (right; left). left.
Qed.

(** A duplicate-free list holding exactly the [m]-element subsets of a set
    of [n] nodes has [choose n m] entries. *)
Lemma count_subsets (U : list nat) (m : nat) (R : list (gset nat)) :
  NoDup U → NoDup R →
  (∀ S, S ∈ R ↔ S ⊆ member_set U ∧ size S = m) →
  length R = choose (length U) m.
Proof.
  unfold member_set. intros HU. revert m R.
  induction HU as [|x U Hx HU IH]; intros m R HR Hchar.
  - destruct m as [|m]; cbn [choose length].
    + apply (NoDup_all_equal_length R ∅); [done | |].
      * apply Hchar. by rewrite size_empty.
      * intros S [HS _]%Hchar. rewrite list_to_set_nil in HS. set_solver.
    + destruct R as [|S R]; [done|]. exfalso.
      destruct (Hchar S) as [[HS Hsz] _]; [left|].
      rewrite list_to_set_nil in HS.
      assert (S = ∅) as -> by set_solver. by rewrite size_empty in Hsz.
  - destruct m as [|m]; cbn [choose length].
    + apply (NoDup_all_equal_length R ∅); [done | |].
      * apply Hchar. rewrite size_empty. split; [set_solver | done].
      * intros S [_ HS]%Hchar. by apply size_empty_iff, leibniz_equiv in HS.
    + rewrite list_to_set_cons in Hchar.
      pose proof (filter_app_complement (λ S : gset nat, x ∈ S) R) as Hperm.
      apply Permutation_length in Hperm. rewrite length_app in Hperm.
      rewrite <- Hperm. f_equal.
      * rewrite <- (length_fmap (λ S : gset nat, S ∖ {[x]})).
        apply IH.
        -- apply NoDup_fmap_2_strong; [|by apply NoDup_filter].
           intros S T [HxS _]%list_elem_of_filter [HxT _]%list_elem_of_filter
             Heq.
           apply set_eq. intros z. destruct (decide (z = x)) as [->|?];
             [tauto | set_solver].
        -- intros S'. rewrite list_elem_of_fmap. split.
           ++ intros (S & -> & [HxS [HS Hsz]%Hchar]%list_elem_of_filter).
              split; [set_solver|].
              rewrite size_difference by set_solver.
              rewrite size_singleton. lia.
           ++ intros [HS' Hsz]. exists ({[x]} ∪ S').
              assert (x ∉ S').
              { intros Hin. apply Hx.
                by apply (elem_of_list_to_set (C := gset nat)), HS'. }
              split; [set_solver|]. apply list_elem_of_filter.
              split; [set_solver|]. apply Hchar. split; [set_solver|].
              rewrite size_union by set_solver. rewrite size_singleton. lia.
      * apply IH; [by apply NoDup_filter|].
        intros S. rewrite list_elem_of_filter, Hchar. split.
        -- intros (HxS & HS & Hsz). split; [set_solver | done].
        -- intros [HS Hsz]. split; [|split; [set_solver | done]].
           intros Hin. apply Hx.
           by apply (elem_of_list_to_set (C := gset nat)), HS.
Qed.

(** C1.  For a list of pairwise distinct nodes and [k >= 2] with at least
    [k - 1] nodes, [GetCliqueCandidates] returns [choose n (k-1)]
    candidates; each has [k - 1] nodes, all different and taken from the
    list; no two candidates have the same member set; and every set of
    [k - 1] nodes of the list is the member set of a candidate. *)
Theorem GetCliqueCandidates_combinations k node_list :
  NoDup node_list → 2 ≤ k → k - 1 ≤ len node_list →
  length (GetCliqueCandidates k node_list) =
    choose (length node_list) (Z.to_nat (k - 1)) ∧
  Forall (λ c, len c = k - 1 ∧ NoDup c ∧ c ⊆ node_list)
         (GetCliqueCandidates k node_list) ∧
  distinct_member_sets (GetCliqueCandidates k node_list) ∧
  (∀ S : gset nat, S ⊆ member_set node_list → Z.of_nat (size S) = k - 1 →
                   S ∈ member_sets (GetCliqueCandidates k node_list)).
Proof.
  intros Hnd Hk _.
  pose proof (GetCliqueCandidates_shape k node_list) as Hshape.
  pose proof (GetCliqueCandidates_NoDup k node_list Hnd) as Hnds.
  pose proof (GetCliqueCandidates_distinct k node_list) as Hdist.
  pose proof (GetCliqueCandidates_covers k node_list Hnd Hk) as Hcov.
  rewrite Forall_forall in Hshape, Hnds.
  split; [|split; [|split]]; [| |done|done].
  - rewrite <- (length_fmap member_set).
    apply count_subsets; [done | done |].
    intros S. split.
    + intros (c & -> & Hc)%list_elem_of_fmap.
      destruct (Hshape c Hc) as [Hl Hsub]. split.
      * intros x. unfold member_set. rewrite !elem_of_list_to_set.
        apply Hsub.
      * rewrite member_set_size by auto. unfold len in Hl. lia.
    + intros [HS Hsz].
      apply (elem_of_list_to_set (C := gset (gset nat))), Hcov; [done | lia].
  - apply Forall_forall. intros c Hc. destruct (Hshape c Hc). auto.
Qed.

Lemma GetCliqueCandidates_combinations_witness :
  length (GetCliqueCandidates 3 [2; 3; 5; 6]%nat) =
    choose (length [2; 3; 5; 6]%nat) (Z.to_nat (3 - 1)) ∧
  Forall (λ c, len c = 3 - 1 ∧ NoDup c ∧ c ⊆ [2; 3; 5; 6]%nat)
         (GetCliqueCandidates 3 [2; 3; 5; 6]%nat) ∧
  distinct_member_sets (GetCliqueCandidates 3 [2; 3; 5; 6]%nat) ∧
  (∀ S : gset nat, S ⊆ member_set [2; 3; 5; 6]%nat →
                   Z.of_nat (size S) = 3 - 1 →
                   S ∈ member_sets (GetCliqueCandidates 3 [2; 3; 5; 6]%nat)).
Proof.
  apply GetCliqueCandidates_combinations.
  - refine (bool_decide_unpack _ _). vm_compute. exact I.
  - lia.
  - vm_compute. discriminate.
Defined.

(** ** The clique loop of main *)

Lemma MakeCliqueList_eq g candidate_list examination_node :
  MakeCliqueList g candidate_list examination_node =
  reverse ((λ item, item ++ [examination_node]) <$>
           filter (λ item, candidate_list_is_clique g item = true)
                  candidate_list).
Proof.
  unfold MakeCliqueList.
  rewrite <- (app_nil_r (reverse _)). generalize (@nil (list nat)).
  induction candidate_list as [|item rest IH]; intros acc; simpl; [done|].
  rewrite IH, filter_cons.
  destruct (candidate_list_is_clique g item).
  - rewrite decide_True by done.
    by rewrite fmap_cons, reverse_cons, <- app_assoc.
  - by rewrite decide_False by done.
Qed.


(** Adding the examination node keeps candidates apart when it is in none
    of them, or when they are duplicate-free and equally long. *)
Lemma member_set_snoc (x : list nat) (e : nat) :
  member_set (x ++ [e]) = member_set x ∪ {[e]}.
Proof.
  unfold member_set. rewrite list_to_set_app_L. f_equal.
  apply set_eq. set_solver.
Qed.








(** ** The model graph *)

Lemma symmetric_graphb_correct g :
  symmetric_graphb g = true → symmetric_graph g.
Proof.
  unfold symmetric_graphb, symmetric_graph. intros H a b Hb.
  destruct (decide (a < length g)%nat) as [Ha|Ha].
  - rewrite forallb_forall in H. specialize (H a).
    rewrite <- list_elem_of_In, elem_of_seq in H.
    specialize (H ltac:(lia)). rewrite forallb_forall in H.
    specialize (H b). rewrite <- list_elem_of_In in H.
    eapply bool_decide_eq_true_1, H, Hb.
  - unfold node_neighbors in Hb. rewrite lookup_ge_None_2 in Hb by lia.
    by apply elem_of_nil in Hb.
Qed.

Lemma model_graph_symmetric : symmetric_graph model_graph.
Proof. apply symmetric_graphb_correct. reflexivity. Qed.

Lemma MakeCliqueList_pairwise_connected_witness :
  (∃ item,
     item ∈ GetCliqueCandidates 3 (node_neighbors model_graph (v 5)) ∧
     [v 6; v 7; v 5] = item ++ [v 5]) ∧
  ∀ i j a b, i ≠ j → [v 6; v 7; v 5] !! i = Some a →
             [v 6; v 7; v 5] !! j = Some b →
             b ∈ node_neighbors model_graph a ∧
             a ∈ node_neighbors model_graph b.
Proof.
  apply (MakeCliqueList_pairwise_connected model_graph
           (GetCliqueCandidates 3 (node_neighbors model_graph (v 5))) (v 5)).
  - apply symmetric_graphb_correct. vm_compute. reflexivity.
  - assert (Forall (Forall (λ n, n ∈ node_neighbors model_graph (v 5)))
              (GetCliqueCandidates 3 (node_neighbors model_graph (v 5))))
      as Hall.
    { refine (bool_decide_unpack _ _). vm_compute. exact I. }
    intros item n Hitem Hn. rewrite Forall_forall in Hall.
    specialize (Hall item Hitem). rewrite Forall_forall in Hall. auto.
  - refine (bool_decide_unpack _ _). vm_compute. exact I.
Defined.

(** C2 as stated fails in each of its three parts: the run finds eight
    cliques, builds eight community nodes, and [{v8, v9, v10}] is among
    them, as v8, v9 and v10 are pairwise linked in the graph main builds. *)
Lemma model_graph_not_six_cliques :
  member_sets model_cliques ≠ documented_cliques ∧
  length model_community_graph ≠ 6%nat ∧
  ¬ (member_set [v 8; v 9; v 10] ∉ member_sets model_cliques).
Proof.
  split; [|split].
  - refine (bool_decide_unpack _ _). vm_compute. exact I.
  - vm_compute. discriminate.
  - refine (bool_decide_unpack _ _). vm_compute. exact I.
Qed.

(** C2, amended.  On the model graph with k = 3 the global clique list has
    exactly the member sets of the eight triangles of the graph, the six
    documented ones together with [{v4, v6, v7}] and [{v8, v9, v10}], and the
    community graph has eight nodes. *)
Theorem model_graph_eight_cliques :
  model_cliques =
    [ [v 2; v 3; v 1]; [v 4; v 5; v 3]; [v 6; v 7; v 4]; [v 5; v 7; v 4];
      [v 6; v 5; v 4]; [v 6; v 7; v 5]; [v 7; v 8; v 6]; [v 9; v 10; v 8] ] ∧
  member_sets model_cliques =
    documented_cliques ∪
    {[ member_set [v 4; v 6; v 7]; member_set [v 8; v 9; v 10] ]} ∧
  length model_cliques = 8%nat ∧
  length model_community_graph = 8%nat ∧
  map label model_community_graph =
    [ "v2,v3,v1"; "v4,v5,v3"; "v6,v7,v4"; "v5,v7,v4";
      "v6,v5,v4"; "v6,v7,v5"; "v7,v8,v6"; "v9,v10,v8" ] ∧
  member_set [v 8; v 9; v 10] ∈ member_sets model_cliques.
Proof.
  split; [reflexivity|]. split.
  { refine (bool_decide_unpack _ _). vm_compute. exact I. }
  split; [reflexivity|]. split; [reflexivity|]. split; [reflexivity|].
  refine (bool_decide_unpack _ _). vm_compute. exact I.
Qed.

(** ** Slices in memory *)

Lemma array_of_prefix m m' a :
  m `prefix_of` m' → (a < length m)%nat → array_of m' a = array_of m a.
Proof.
  intros Hpre Ha. unfold array_of.
  destruct (lookup_lt_is_Some_2 m a Ha) as [arr Harr].
  by rewrite Harr, (prefix_lookup_Some _ _ _ _ Harr Hpre).
Qed.

Lemma slice_nodes_prefix m m' s :
  m `prefix_of` m' → (s_array s < length m)%nat →
  slice_nodes m' s = slice_nodes m s.
Proof. intros. unfold slice_nodes. by rewrite (array_of_prefix m m'). Qed.

Lemma valid_slice_prefix m m' s :
  m `prefix_of` m' → valid_slice m s → valid_slice m' s.
Proof.
  intros Hpre [Ha Hb]. split.
  - apply prefix_length in Hpre. lia.
  - by rewrite (array_of_prefix m m').
Qed.

Lemma length_slice_nodes m s :
  valid_slice m s → length (slice_nodes m s) = s_len s.
Proof.
  intros [_ Hb]. unfold slice_nodes. rewrite length_take, length_drop. lia.
Qed.

Lemma slice_nodes_cons m s n :
  valid_slice m s → s_len s = S n →
  slice_nodes m s = slice_get m s 0 :: slice_nodes m (slice_tail s) ∧
  valid_slice m (slice_tail s) ∧ s_len (slice_tail s) = n.
Proof.
  intros [Ha Hb] Hn. unfold slice_get, slice_nodes, slice_tail, valid_slice.
  simpl. rewrite Hn in *. simpl.
  destruct (lookup_lt_is_Some_2 (array_of m (s_array s)) (s_offset s)
              ltac:(lia)) as [x Hx].
  rewrite (drop_S _ x _ Hx). simpl. repeat split; auto. lia.
Qed.

Lemma slice_set_fresh m arr n i x :
  slice_set (m ++ [arr]) (mkSlice (length m) 0 n) i x = m ++ [<[i := x]> arr].
Proof.
  unfold slice_set. simpl.
  rewrite <- (Nat.add_0_r (length m)) at 1. by rewrite alter_app_r.
Qed.

Lemma copy_loop_spec m item n arr ks :
  valid_slice m item →
  foldl (λ m' k, slice_set m' (mkSlice (length m) 0 n) k (slice_get m' item k))
        (m ++ [arr]) ks =
  m ++ [foldl (λ a k, <[k := default nil_node (slice_nodes m item !! k)]> a)
              arr ks].
Proof.
  intros [Ha Hb]. revert arr. induction ks as [|k ks IH]; intros arr; simpl.
  - done.
  - assert (slice_get (m ++ [arr]) item k =
            default nil_node (slice_nodes m item !! k)) as ->.
    { unfold slice_get. rewrite (slice_nodes_prefix m (m ++ [arr])); [done | |done].
      by apply prefix_app_r. }
    rewrite slice_set_fresh. apply IH.
Qed.

Lemma copy_cells (l : list nat) j :
  (j ≤ length l)%nat →
  foldl (λ a k, <[k := default nil_node (l !! k)]> a)
        (replicate (length l) nil_node) (seq 0 j) =
  take j l ++ replicate (length l - j) nil_node.
Proof.
  induction j as [|j IH]; intros Hj.
  - simpl. by rewrite Nat.sub_0_r.
  - rewrite seq_S, foldl_snoc, IH by lia. simpl.
    destruct (lookup_lt_is_Some_2 l j ltac:(lia)) as [x Hx].
    rewrite Hx. simpl. rewrite (take_S_r l j x Hx).
    replace (length l - j)%nat with (S (length l - S j)) by lia. simpl.
    rewrite <- app_assoc. simpl.
    rewrite insert_app_r_alt by (rewrite length_take; lia).
    rewrite length_take. replace (j - j `min` length l)%nat with 0%nat by lia.
    done.
Qed.

Lemma new_candidate_mem_spec m node item i :
  valid_slice m item →
  new_candidate_mem m node item i =
  (m ++ [<[i := node]> (slice_nodes m item)],
   mkSlice (length m) 0 (s_len item)).
Proof.
  intros Hv. unfold new_candidate_mem, make_slice.
  rewrite (copy_loop_spec m item) by done.
  rewrite slice_set_fresh. do 3 f_equal.
  pose proof (length_slice_nodes m item Hv) as Hlen.
  rewrite <- Hlen, copy_cells by done.
  by rewrite Nat.sub_diag, take_ge, app_nil_r.
Qed.

Lemma slice_nodes_fresh m arr :
  slice_nodes (m ++ [arr]) (mkSlice (length m) 0 (length arr)) = arr.
Proof.
  unfold slice_nodes, array_of. simpl.
  rewrite list_lookup_middle by done. simpl. by rewrite take_ge.
Qed.

Lemma substitute_at_sim m0 st pure node item i :
  sim m0 st pure → valid_slice st.1 item →
  sim m0 (substitute_at_mem node item st i)
         (substitute_at node (slice_nodes st.1 item) pure i) ∧
  st.1 `prefix_of` (substitute_at_mem node item st i).1.
Proof.
  destruct st as [m ret]. unfold sim. cbn [fst snd].
  intros (Hpre & Hval & Hread) Hitem.
  unfold substitute_at_mem, substitute_at.
  rewrite new_candidate_mem_spec by done. cbv beta iota zeta.
  set (arr := <[i:=node]> (slice_nodes m item)).
  assert (length arr = s_len item) as Hlen.
  { unfold arr. by rewrite length_insert, length_slice_nodes. }
  rewrite <- Hlen, slice_nodes_fresh.
  assert (m `prefix_of` m ++ [arr]) as Hext by by apply prefix_app_r.
  assert (slice_nodes (m ++ [arr]) <$> ret = pure) as Hread'.
  { rewrite <- Hread. apply list_fmap_ext. intros j s Hs.
    apply slice_nodes_prefix; [done|].
    rewrite Forall_forall in Hval. apply Hval.
    by eapply list_elem_of_lookup_2. }
  assert (Forall (valid_slice (m ++ [arr])) ret) as Hval'.
  { eapply Forall_impl; [done|]. intros s. by apply valid_slice_prefix. }
  rewrite Hread'. destruct (IsDuplicate arr pure); cbn [fst snd].
  - split; [|done]. split; [by etrans|]. done.
  - split; [|done]. split; [by etrans|]. split.
    + constructor; [|done]. split; simpl.
      * rewrite length_app. simpl. lia.
      * unfold array_of. rewrite list_lookup_middle by done. simpl. lia.
    + rewrite fmap_cons, Hread'. f_equal. apply slice_nodes_fresh.
Qed.

Lemma substitute_at_fold_sim m0 st pure node item idx :
  sim m0 st pure → valid_slice st.1 item →
  sim m0 (foldl (substitute_at_mem node item) st idx)
         (foldl (substitute_at node (slice_nodes st.1 item)) pure idx) ∧
  st.1 `prefix_of` (foldl (substitute_at_mem node item) st idx).1.
Proof.
  revert st pure. induction idx as [|i idx IH]; intros st pure Hsim Hitem.
  - done.
  - simpl.
    destruct (substitute_at_sim m0 st pure node item i Hsim Hitem)
      as [Hsim1 Hpre1].
    destruct (IH _ _ Hsim1 (valid_slice_prefix _ _ _ Hpre1 Hitem))
      as [Hsim2 Hpre2].
    rewrite (slice_nodes_prefix st.1) in Hsim2 by (done || apply Hitem).
    split; [done | by etrans].
Qed.

Lemma substitute_fold_sim m0 st pure node items :
  sim m0 st pure → Forall (valid_slice st.1) items →
  sim m0 (foldl (substitute_item_mem node) st items)
         (foldl (substitute_item node) pure (slice_nodes st.1 <$> items)) ∧
  st.1 `prefix_of` (foldl (substitute_item_mem node) st items).1.
Proof.
  revert st pure. induction items as [|item items IH]; intros st pure Hsim Hv.
  - done.
  - apply Forall_cons in Hv as [Hitem Hitems]. simpl.
    unfold substitute_item_mem at 2 4, substitute_item at 2.
    rewrite length_slice_nodes by done.
    destruct (substitute_at_fold_sim m0 st pure node item
                (seq 0 (s_len item)) Hsim Hitem) as [Hsim1 Hpre1].
    set (st1 := foldl (substitute_at_mem node item) st (seq 0 (s_len item)))
      in *.
    destruct (IH st1 _ Hsim1) as [Hsim2 Hpre2].
    { eapply Forall_impl; [done|]. intros s. by apply valid_slice_prefix. }
    replace (slice_nodes st1.1 <$> items) with (slice_nodes st.1 <$> items)
      in Hsim2.
    + split; [done | by etrans].
    + apply list_fmap_ext. intros j s Hs. symmetry.
      apply slice_nodes_prefix; [done|].
      rewrite Forall_forall in Hitems. apply Hitems.
      by eapply list_elem_of_lookup_2.
Qed.

Lemma GetCliqueCandidates_rec_sim k n node_list m :
  s_len node_list = n → valid_slice m node_list →
  sim m (GetCliqueCandidates_rec k n node_list m)
        (GetCliqueCandidates k (slice_nodes m node_list)).
Proof.
  revert node_list m. induction n as [|n IH]; intros node_list m Hn Hv;
    rewrite GetCliqueCandidates_unfold; unfold len;
    rewrite length_slice_nodes by done; cbn [GetCliqueCandidates_rec];
    destruct (Z.ltb_spec k 2) as [Hk|Hk]; try (by repeat split);
    destruct (Z.ltb_spec (Z.of_nat (s_len node_list)) (k - 1)) as [Hlt|Hlt];
      try (by repeat split);
    destruct (Z.eqb_spec (Z.of_nat (s_len node_list)) (k - 1)) as [Heq|Heq];
      try (by split; [|split; [apply Forall_singleton|]]).
  - exfalso. rewrite Hn in *. lia.
  - destruct (slice_nodes_cons m node_list n Hv Hn) as (-> & Hvt & Hnt).
    specialize (IH (slice_tail node_list) m Hnt Hvt).
    destruct (GetCliqueCandidates_rec k n (slice_tail node_list) m)
      as [m1 clique_list] eqn:Hrec.
    destruct IH as (Hpre & Hval & Hread). simpl in *.
    destruct (substitute_fold_sim m1 (m1, clique_list)
                (slice_nodes m1 <$> clique_list)
                (slice_get m node_list 0) clique_list) as [Hsim Hpre'].
    { by repeat split. }
    { done. }
    simpl in *. rewrite Hread in Hsim.
    destruct Hsim as (_ & Hval' & Hread').
    split; [by etrans|]. by split.
Qed.

(** The candidates read back from memory are those of the list version. *)
Lemma GetCliqueCandidates_mem_refines k node_list m :
  valid_slice m node_list →
  slice_nodes (GetCliqueCandidates_mem k node_list m).1 <$>
    (GetCliqueCandidates_mem k node_list m).2 =
  GetCliqueCandidates k (slice_nodes m node_list).
Proof.
  intros Hv. by apply (GetCliqueCandidates_rec_sim k (s_len node_list)).
Qed.

(** In the base case the candidate is the input slice itself and memory is
    not touched. *)
Lemma GetCliqueCandidates_mem_base k node_list m :
  2 ≤ k → Z.of_nat (s_len node_list) = k - 1 →
  GetCliqueCandidates_mem k node_list m = (m, [node_list]).
Proof.
  intros Hk Hlen. unfold GetCliqueCandidates_mem.
  generalize (s_len node_list) at 1. intros n.
  destruct n; cbn [GetCliqueCandidates_rec];
    destruct (Z.ltb_spec k 2); try lia;
    destruct (Z.ltb_spec (Z.of_nat (s_len node_list)) (k - 1)); try lia;
    destruct (Z.eqb_spec (Z.of_nat (s_len node_list)) (k - 1)); try lia;
    done.
Qed.

(** C10.  The call leaves every array that existed before it as it was:
    the memory afterwards extends the memory before, so the input slice
    shows the same nodes in the same order. *)
Theorem GetCliqueCandidates_mem_frame k node_list m :
  valid_slice m node_list →
  m `prefix_of` (GetCliqueCandidates_mem k node_list m).1 ∧
  slice_nodes (GetCliqueCandidates_mem k node_list m).1 node_list =
    slice_nodes m node_list.
Proof.
  intros Hv.
  destruct (GetCliqueCandidates_rec_sim k (s_len node_list) node_list m
              eq_refl Hv) as (Hpre & _ & _).
  split; [done|]. apply slice_nodes_prefix; [done | apply Hv].
Qed.

Lemma GetCliqueCandidates_mem_frame_witness :
  example_memory `prefix_of`
    (GetCliqueCandidates_mem 3 example_slice example_memory).1 ∧
  slice_nodes (GetCliqueCandidates_mem 3 example_slice example_memory).1
              example_slice =
    slice_nodes example_memory example_slice.
Proof.
  apply GetCliqueCandidates_mem_frame.
  split; vm_compute; lia.
Defined.

(** ** ParseGraphDefFile *)

Lemma parse_line_no_duplicate_error st line graph label_found :
  parse_line st line ≠ inr (graph, DuplicateNode label_found).
Proof.
  unfold parse_line. destruct (node_def_re line) as [[lbl nstr]|].
  - destruct (ps_graph st); simpl; discriminate.
  - destruct (node_no_neighbors_re line); discriminate.
Qed.

Lemma read_lines_no_duplicate_error lines st graph label_found :
  read_lines st lines ≠ inr (graph, DuplicateNode label_found).
Proof.
  revert st. induction lines as [|[line isPrefix] rest IH]; intros st; simpl.
  - discriminate.
  - destruct isPrefix; [apply IH|].
    destruct (parse_line st line) as [st'|res] eqn:Hline; [apply IH|].
    intros [= ->]. by apply parse_line_no_duplicate_error in Hline.
Qed.

Lemma add_neighbor_labels_error graph node neighbors graph' e :
  add_neighbor_labels graph node neighbors = inr (graph', e) →
  ∃ neighbor_label, e = DoesNotExist neighbor_label.
Proof.
  revert graph. induction neighbors as [|l rest IH]; intros graph; simpl.
  - discriminate.
  - destruct (GetNode graph l); [apply IH|].
    intros [= _ <-]. by exists l.
Qed.

Lemma add_neighbor_specs_error graph specs graph' e :
  add_neighbor_specs graph specs = inr (graph', e) →
  ∃ neighbor_label, e = DoesNotExist neighbor_label.
Proof.
  revert graph. induction specs as [|ns rest IH]; intros graph; simpl.
  - discriminate.
  - destruct (add_neighbor_labels graph (ns_node ns) (Split (neighbor_str ns)))
      as [g1|[g1 e1]] eqn:Hl; [apply IH|].
    intros [= _ <-]. by apply add_neighbor_labels_error in Hl.
Qed.

(** The parser accepts a file with a self reference and a repeated
    neighbor, and builds [self_loop_graph] from it. *)
Lemma ParseGraphDefFile_self_loop_graph :
  ParseGraphDefFile (short_lines ["a: a x x"; "x: a x"]) =
  (self_loop_graph, None).
Proof. reflexivity. Qed.

(** The branch that reports a duplicate node is never taken: [graph] has
    just been appended to when it is compared with nil. *)
Lemma ParseGraphDefFile_never_reports_duplicate lines label_found :
  (ParseGraphDefFile lines).2 ≠ Some (DuplicateNode label_found).
Proof.
  unfold ParseGraphDefFile.
  destruct (read_lines _ lines) as [st|[g e]] eqn:Hread.
  - destruct (add_neighbor_specs _ _) as [g|[g e]] eqn:Hspecs; simpl.
    + discriminate.
    + apply add_neighbor_specs_error in Hspecs as [l ->]. discriminate.
  - simpl. intros [= ->]. by apply read_lines_no_duplicate_error in Hread.
Qed.

(** C9 (the code departs from it).  On a file that declares [v1] twice the
    parser reports no error and returns a graph with two nodes labelled
    [v1]; the reference to [v1] from [v2] goes to the first of them. *)
Theorem ParseGraphDefFile_accepts_duplicate_label :
  ParseGraphDefFile duplicate_label_file =
  ([ mkGraphNode "v1" [2%nat] None;
     mkGraphNode "v1" [2%nat] None;
     mkGraphNode "v2" [0%nat] None ], None).
Proof. reflexivity. Qed.

(** * Further properties *)

(** ** IsDuplicate and NotRecorded *)

(** [IsDuplicate] answers yes exactly when the candidate is not empty and
    all its nodes occur in one candidate of the list: an inclusion test,
    which for duplicate-free candidates of one length is set equality. *)
Theorem IsDuplicate_iff_included cc clist :
  IsDuplicate cc clist = true ↔
  cc ≠ [] ∧ ∃ item, item ∈ clist ∧ ∀ n, n ∈ cc → n ∈ item.
Proof. apply IsDuplicate_spec. Qed.

Lemma records_NoDup_member_set item clique :
  NoDup item → NoDup clique →
  records item clique ↔ item ≠ [] ∧ member_set item = member_set clique.
Proof.
  intros Hi Hc. unfold records, len. split.
  - intros (Hlen & Hpos & Hle). split.
    { intros ->. simpl in Hpos. lia. }
    rewrite common_pairs_NoDup in Hle by done.
    assert (member_set item ∩ member_set clique = member_set item) as Hsub.
    { apply set_subseteq_size_eq; [set_solver|].
      rewrite (member_set_size item) by done. lia. }
    apply set_subseteq_size_eq; [set_solver|].
    rewrite !member_set_size by done. lia.
  - intros [Hne Hset].
    assert (length item = length clique) as Hlen.
    { by rewrite <- (member_set_size item), <- (member_set_size clique), Hset. }
    apply records_same_member_set; [unfold len; lia | done | done].
Qed.

Lemma NotRecorded_false_member_set clique clique_list :
  NoDup clique → Forall NoDup clique_list →
  (NotRecorded clique clique_list = false ↔
   clique ≠ [] ∧
   ∃ item, item ∈ clique_list ∧ member_set item = member_set clique).
Proof.
  intros Hc Hl. rewrite Forall_forall in Hl. rewrite NotRecorded_false. split.
  - intros (item & Hin & Hrec).
    apply records_NoDup_member_set in Hrec as [Hne Hset]; [|auto..].
    split; [|by exists item].
    intros ->. apply Hne. apply (f_equal size) in Hset.
    rewrite member_set_size in Hset by auto. by destruct item.
  - intros (Hne & item & Hin & Hset). exists item. split; [done|].
    apply records_NoDup_member_set; [auto | done |]. split; [|done].
    intros ->. apply Hne. apply (f_equal size) in Hset.
    rewrite (member_set_size clique) in Hset by auto. by destruct clique.
Qed.

(** For cliques without repeated nodes [NotRecorded] is a test of set
    equality: it answers no exactly when the clique is not empty and an
    entry of the list has the same member set. *)
Theorem NotRecorded_iff_member_set clique clique_list :
  NoDup clique → Forall NoDup clique_list →
  (NotRecorded clique clique_list = false ↔
   clique ≠ [] ∧
   ∃ item, item ∈ clique_list ∧ member_set item = member_set clique).
Proof. apply NotRecorded_false_member_set. Qed.

Lemma NotRecorded_iff_member_set_witness :
  NotRecorded [0; 1; 2]%nat [[3; 4; 5]; [2; 0; 1]]%nat = false ↔
  [0; 1; 2]%nat ≠ [] ∧
  ∃ item, item ∈ [[3; 4; 5]; [2; 0; 1]]%nat ∧
          member_set item = member_set [0; 1; 2]%nat.
Proof.
  apply NotRecorded_iff_member_set.
  - refine (bool_decide_unpack _ _). vm_compute. exact I.
  - refine (bool_decide_unpack _ _). vm_compute. exact I.
Defined.

(** ** MergeCliques *)




Lemma merge_loop_sublist dest src :
  ∃ added, merge_loop dest src = dest ++ added ∧ added `sublist_of` src.
Proof.
  revert dest. induction src as [|c src IH]; intros dest; simpl.
  - exists []. by rewrite app_nil_r.
  - fold (merge_loop (if NotRecorded c dest then dest ++ [c] else dest) src).
    destruct (NotRecorded c dest).
    + destruct (IH (dest ++ [c])) as (added & -> & Hsub).
      exists (c :: added). split; [by rewrite <- app_assoc|].
      by apply sublist_skip.
    + destruct (IH dest) as (added & -> & Hsub).
      exists added. split; [done|]. by apply sublist_cons.
Qed.

(** [MergeCliques] keeps the destination list as it is and appends cliques
    of the source after it, in source order; nothing is removed or moved. *)
Theorem MergeCliques_appends dest src :
  ∃ added, MergeCliques dest src = dest ++ added ∧ added `sublist_of` src.
Proof.
  destruct dest as [|c dest].
  - exists []. split; [done | apply sublist_nil_l].
  - rewrite MergeCliques_loop by done. apply merge_loop_sublist.
Qed.

(** On cliques without repeated nodes merging is set union: the member
    sets of the result are those of the destination and of the source. *)
Theorem MergeCliques_member_sets_union dest src :
  dest ≠ [] → Forall NoDup dest → Forall NoDup src →
  member_sets (MergeCliques dest src) = member_sets dest ∪ member_sets src.
Proof.
  intros Hne Hd Hs. rewrite MergeCliques_loop by done.
  destruct (merge_loop_sublist dest src) as (added & Heq & Hsub).
  assert (Forall NoDup (merge_loop dest src)) as Hall.
  { rewrite Heq. apply Forall_app. split; [done|].
    rewrite Forall_forall in Hs |- *. intros c Hc. apply Hs.
    by eapply elem_of_sublist. }
  apply set_eq. intros S. rewrite elem_of_union, !elem_of_member_sets. split.
  - rewrite Heq. intros (c & [Hc|Hc]%elem_of_app & <-).
    + left. by exists c.
    + right. exists c. split; [by eapply elem_of_sublist | done].
  - intros [(c & Hc & <-)|(c & Hc & <-)].
    + exists c. split; [|done]. rewrite Heq. apply elem_of_app. by left.
    + destruct (merge_loop_records dest src c Hc) as [Hrec Hnil].
      destruct (decide (c = [])) as [->|Hcne].
      * exists []. split; [by apply Hnil | done].
      * rewrite Forall_forall in Hs.
        apply (NotRecorded_false_member_set c _ (Hs c Hc) Hall) in Hrec
          as (_ & item & Hitem & Hset); [|done].
        by exists item.
Qed.

Lemma MergeCliques_member_sets_union_witness :
  member_sets (MergeCliques [[1; 2; 0]; [3; 4; 2]] [[2; 0; 1]; [5; 6; 3]])%nat =
  member_sets [[1; 2; 0]; [3; 4; 2]]%nat ∪
  member_sets [[2; 0; 1]; [5; 6; 3]]%nat.
Proof.
  apply MergeCliques_member_sets_union.
  - discriminate.
  - refine (bool_decide_unpack _ _). vm_compute. exact I.
  - refine (bool_decide_unpack _ _). vm_compute. exact I.
Defined.

(** ** MakeCliqueList *)

Lemma candidate_list_is_clique_complete g item :
  (∀ i j a b, (i < j)%nat → item !! i = Some a → item !! j = Some b →
              a ∈ node_neighbors g b) →
  candidate_list_is_clique g item = true.
Proof.
  induction item as [|cn later IH]; intros Hp; simpl; [done|].
  assert (connected_to_rest g cn later = true) as ->.
  { apply connected_to_rest_spec, Forall_forall. intros nj Hnj.
    apply list_elem_of_lookup_1 in Hnj as [j Hj].
    apply IsConnected_spec. by apply (Hp 0%nat (S j)); [lia | |]. }
  apply IH. intros i j a b Hij Ha Hb.
  by apply (Hp (S i) (S j)); [lia | |].
Qed.

(** A candidate passes the check of [MakeCliqueList] exactly when, for every
    two positions, the node at the earlier one is in the neighbor list of
    the node at the later one.  Only that direction is looked at, and the
    examination node is not looked at. *)
Theorem candidate_list_is_clique_iff g item :
  candidate_list_is_clique g item = true ↔
  ∀ i j a b, (i < j)%nat → item !! i = Some a → item !! j = Some b →
             a ∈ node_neighbors g b.
Proof.
  split.
  - intros Hc i j a b Hij Ha Hb. apply IsConnected_spec.
    by apply (candidate_list_is_clique_pairs g item Hc i j).
  - apply candidate_list_is_clique_complete.
Qed.

(** [MakeCliqueList] returns the candidates that pass the check, each with
    the examination node appended at the end, in the reverse of the order
    of the candidate list. *)
Theorem MakeCliqueList_reverse_filter g candidate_list examination_node :
  MakeCliqueList g candidate_list examination_node =
  reverse ((λ item, item ++ [examination_node]) <$>
           filter (λ item, candidate_list_is_clique g item = true)
                  candidate_list).
Proof. apply MakeCliqueList_eq. Qed.

(** ** GetCliqueCandidates *)

Lemma GetCliqueCandidates_nonempty k node_list :
  2 ≤ k → k - 1 ≤ len node_list → GetCliqueCandidates k node_list ≠ [].
Proof.
  intros Hk. induction node_list as [|node rest IH]; intros Hlen.
  - unfold len in Hlen. simpl in Hlen. lia.
  - destruct (GetCliqueCandidates_cases k (node :: rest)) as
      [[_ [?|?]]|[[-> _]|(? & ? & Heq & _ & Hgt & ->)]]; [lia | lia | done |].
    injection Heq as <- <-.
    assert (GetCliqueCandidates k rest ≠ []) as Hrest.
    { apply IH. unfold len in *. simpl length in Hgt. lia. }
    destruct (GetCliqueCandidates k rest) as [|c l] eqn:Hc; [done|].
    intros Hnil.
    assert (c ∈ foldl (substitute_item node) (c :: l) (c :: l)) as Hin.
    { apply substitute_fold_mono. left. }
    rewrite Hnil in Hin. by apply elem_of_nil in Hin.
Qed.

(** [GetCliqueCandidates] returns nil exactly when [k < 2] or the list has
    fewer than [k - 1] nodes; this is the case the loop of main skips. *)
Theorem GetCliqueCandidates_nil_iff k node_list :
  GetCliqueCandidates k node_list = [] ↔ k < 2 ∨ len node_list < k - 1.
Proof.
  split; [|apply GetCliqueCandidates_small].
  intros Hnil. destruct (Z.lt_ge_cases k 2) as [?|Hk]; [by left|].
  destruct (Z.lt_ge_cases (len node_list) (k - 1)) as [?|Hlen]; [by right|].
  by apply GetCliqueCandidates_nonempty in Hnil.
Qed.

(** Whatever the list, also one with repeated nodes: every candidate has
    [k - 1] nodes, all taken from the list, and no two candidates have
    the same member set. *)
Theorem GetCliqueCandidates_any_list k node_list :
  Forall (λ c, len c = k - 1 ∧ ∀ n, n ∈ c → n ∈ node_list)
         (GetCliqueCandidates k node_list) ∧
  distinct_member_sets (GetCliqueCandidates k node_list).
Proof.
  split; [apply GetCliqueCandidates_shape | apply GetCliqueCandidates_distinct].
Qed.

(** ** The clique loop of main, as a whole *)

(** Every entry of the global list is a checked candidate of some node of
    the graph, followed by that node. *)
Lemma main_cliques_Forall (P : list nat → Prop) k g :
  (∀ node item, (node < length g)%nat →
     item ∈ GetCliqueCandidates k (node_neighbors g node) →
     candidate_list_is_clique g item = true → P (item ++ [node])) →
  Forall P (main_cliques k g).
Proof.
  intros HP. unfold main_cliques.
  assert (Hnodes : ∀ n, n ∈ seq 0 (length g) → (n < length g)%nat).
  { intros n Hn%elem_of_seq. lia. }
  assert (Hinit : Forall P []) by constructor.
  revert Hinit Hnodes. generalize (@nil (list nat)) (seq 0 (length g)).
  intros L nodes. revert L.
  induction nodes as [|node nodes IH]; intros L HL Hnodes; simpl; [done|].
  apply IH; [|intros n Hn; apply Hnodes; by right].
  unfold main_loop_body.
  destruct (GetCliqueCandidates k (node_neighbors g node)) as [|c0 cs] eqn:Hc;
    [done|]. rewrite <- Hc.
  assert (Forall P (MakeCliqueList g
            (GetCliqueCandidates k (node_neighbors g node)) node)) as Htemp.
  { apply Forall_forall.
    intros c (item & Hitem & Hok & ->)%MakeCliqueList_elem.
    apply HP; [apply Hnodes; left | done | done]. }
  destruct L as [|l0 ls]; [done|]. unfold main_merge.
  rewrite MergeCliques_loop by done.
  destruct (merge_loop_extends (l0 :: ls)
              (MakeCliqueList g (GetCliqueCandidates k (node_neighbors g node))
                              node)) as (added & -> & Hadd).
  apply Forall_app. split; [done|].
  rewrite Forall_forall in Htemp |- *. auto.
Qed.

(** Every entry of the global clique list has exactly [k] node references,
    on every graph. *)
Theorem main_cliques_length k g :
  Forall (λ c, len c = k) (main_cliques k g).
Proof.
  apply main_cliques_Forall. intros node item _ Hitem _.
  pose proof (GetCliqueCandidates_shape k (node_neighbors g node)) as Hshape.
  rewrite Forall_forall in Hshape. destruct (Hshape item Hitem) as [Hl _].
  unfold len in *. rewrite length_app. simpl. lia.
Qed.

Lemma checked_candidate_connected g item node :
  symmetric_graph g → candidate_list_is_clique g item = true →
  (∀ n, n ∈ item → n ∈ node_neighbors g node) →
  ∀ i j a b, i ≠ j → (item ++ [node]) !! i = Some a →
             (item ++ [node]) !! j = Some b → b ∈ node_neighbors g a.
Proof.
  intros Hsym Hok Hnb.
  assert (Hlt : ∀ i j a b, (i < j)%nat → (item ++ [node]) !! i = Some a →
            (item ++ [node]) !! j = Some b →
            b ∈ node_neighbors g a ∧ a ∈ node_neighbors g b).
  { intros i j a b Hij Ha Hb.
    assert (Hi : (i < length item)%nat).
    { apply lookup_lt_Some in Hb. rewrite length_app in Hb. simpl in Hb. lia. }
    rewrite lookup_app_l in Ha by done.
    destruct (decide (j < length item)%nat) as [Hj|Hj].
    - rewrite lookup_app_l in Hb by done.
      pose proof (candidate_list_is_clique_pairs g item Hok i j a b Hij Ha Hb)
        as Hab%IsConnected_spec.
      split; [by apply Hsym | done].
    - rewrite lookup_app_r in Hb by lia.
      apply list_lookup_singleton_Some in Hb as [_ <-].
      assert (a ∈ node_neighbors g node) as Hnba.
      { apply Hnb. by eapply list_elem_of_lookup_2. }
      split; [by apply Hsym | done]. }
  intros i j a b Hij Ha Hb. destruct (decide (i < j)%nat).
  - by apply (Hlt i j a b).
  - apply (Hlt j i b a); [lia | done..].
Qed.

(** In a graph with symmetric neighbor references, any two members of an
    entry of the global clique list, at different positions, are linked. *)
Theorem main_cliques_connected k g :
  symmetric_graph g →
  Forall (λ c, ∀ i j a b, i ≠ j → c !! i = Some a → c !! j = Some b →
                          b ∈ node_neighbors g a)
         (main_cliques k g).
Proof.
  intros Hsym. apply main_cliques_Forall. intros node item _ Hitem Hok.
  apply checked_candidate_connected; [done | done |].
  pose proof (GetCliqueCandidates_shape k (node_neighbors g node)) as Hshape.
  rewrite Forall_forall in Hshape. by destruct (Hshape item Hitem).
Qed.

Lemma main_cliques_connected_witness :
  Forall (λ c, ∀ i j a b, i ≠ j → c !! i = Some a → c !! j = Some b →
                          b ∈ node_neighbors model_graph a)
         (main_cliques 3 model_graph).
Proof.
  apply main_cliques_connected.
  apply symmetric_graphb_correct. vm_compute. reflexivity.
Defined.

Lemma simple_graph_node g n :
  simple_graph g → NoDup (node_neighbors g n) ∧ n ∉ node_neighbors g n.
Proof.
  intros Hs. destruct (decide (n < length g)%nat) as [Hn|Hn].
  - unfold simple_graph in Hs. rewrite Forall_forall in Hs.
    apply Hs, elem_of_seq. lia.
  - unfold node_neighbors. rewrite lookup_ge_None_2 by lia. simpl.
    split; [constructor | apply not_elem_of_nil].
Qed.

Lemma main_cliques_NoDup k g :
  simple_graph g → Forall NoDup (main_cliques k g).
Proof.
  intros Hs. apply main_cliques_Forall. intros node item _ Hitem _.
  destruct (simple_graph_node g node Hs) as [Hnd Hself].
  pose proof (GetCliqueCandidates_shape k (node_neighbors g node)) as Hshape.
  pose proof (GetCliqueCandidates_NoDup k _ Hnd) as Hnds.
  rewrite Forall_forall in Hshape, Hnds.
  apply NoDup_app. split; [auto|]. split; [|apply NoDup_singleton].
  intros x Hx ->%list_elem_of_singleton.
  apply Hself. by apply (Hshape item Hitem).
Qed.

Lemma main_loop_body_keeps k g clique_list node S :
  S ∈ member_sets clique_list →
  S ∈ member_sets (main_loop_body k g clique_list node).
Proof.
  intros HS. unfold main_loop_body.
  destruct (GetCliqueCandidates k (node_neighbors g node)) as [|c0 cs];
    [done|].
  destruct clique_list as [|e0 es].
  - apply elem_of_member_sets in HS as (c & []%elem_of_nil & _).
  - unfold main_merge. rewrite MergeCliques_loop by done.
    destruct (merge_loop_extends (e0 :: es)
                (MakeCliqueList g (c0 :: cs) node)) as (added & -> & _).
    rewrite member_sets_app. apply elem_of_union. by left.
Qed.

Lemma main_loop_body_NoDup k g clique_list node :
  NoDup (node_neighbors g node) → node ∉ node_neighbors g node →
  Forall NoDup clique_list →
  Forall NoDup (MakeCliqueList g
                  (GetCliqueCandidates k (node_neighbors g node)) node) ∧
  Forall NoDup (main_loop_body k g clique_list node).
Proof.
  intros Hnd Hself HL.
  pose proof (GetCliqueCandidates_shape k (node_neighbors g node)) as Hshape.
  pose proof (GetCliqueCandidates_NoDup k _ Hnd) as Hnds.
  rewrite Forall_forall in Hshape, Hnds.
  assert (Forall NoDup (MakeCliqueList g
            (GetCliqueCandidates k (node_neighbors g node)) node)) as Htemp.
  { apply Forall_forall.
    intros c (item & Hitem & _ & ->)%MakeCliqueList_elem.
    apply NoDup_app. split; [auto|]. split; [|apply NoDup_singleton].
    intros x Hx ->%list_elem_of_singleton.
    apply Hself. by apply (Hshape item Hitem). }
  split; [done|]. unfold main_loop_body.
  destruct (GetCliqueCandidates k (node_neighbors g node)) as [|c0 cs] eqn:Hc;
    [done|].
  destruct clique_list as [|e0 es]; [done|]. unfold main_merge.
  rewrite MergeCliques_loop by done.
  destruct (merge_loop_extends (e0 :: es)
              (MakeCliqueList g (c0 :: cs) node)) as (added & -> & Hadd).
  apply Forall_app. split; [done|].
  rewrite Forall_forall in Htemp |- *. auto.
Qed.

(** At a node of a clique the loop body records the clique, unless an
    entry with the same member set is there already. *)
Lemma main_loop_body_finds k g clique_list a S :
  2 ≤ k → NoDup (node_neighbors g a) → a ∉ node_neighbors g a →
  Forall NoDup clique_list → is_k_clique g k S → a ∈ S →
  S ∈ member_sets (main_loop_body k g clique_list a).
Proof.
  intros Hk Hnd Hself HL [Hsize Hadj] Ha.
  destruct (main_loop_body_NoDup k g clique_list a Hnd Hself HL)
    as [Htemp Hbody].
  set (T := S ∖ {[a]}).
  assert (size T = size S - 1)%nat as HsT.
  { unfold T. rewrite size_difference by set_solver.
    by rewrite size_singleton. }
  assert (T ∈ member_sets (GetCliqueCandidates k (node_neighbors g a)))
    as (cand & Hcand & Hset)%elem_of_member_sets.
  { apply GetCliqueCandidates_covers; [done | done | | lia].
    intros b [Hb Hba]%elem_of_difference.
    apply elem_of_list_to_set, Hadj; [done | done |].
    intros ->. apply Hba. by apply elem_of_singleton. }
  pose proof (GetCliqueCandidates_NoDup k _ Hnd) as Hnds.
  rewrite Forall_forall in Hnds. specialize (Hnds cand Hcand).
  assert (HinT : ∀ x, x ∈ cand → x ∈ S ∧ x ≠ a).
  { intros x Hx.
    assert (x ∈ T) as [? Hxa]%elem_of_difference.
    { rewrite <- Hset. by apply elem_of_list_to_set. }
    split; [done|]. intros ->. apply Hxa. by apply elem_of_singleton. }
  assert (candidate_list_is_clique g cand = true) as Hok.
  { apply candidate_list_is_clique_complete. intros i j x y Hij Hx Hy.
    destruct (HinT x) as [HxS _]; [by eapply list_elem_of_lookup_2|].
    destruct (HinT y) as [HyS _]; [by eapply list_elem_of_lookup_2|].
    apply Hadj; [done | done |]. intros <-.
    pose proof (NoDup_lookup _ _ _ _ Hnds Hx Hy). lia. }
  assert (member_set (cand ++ [a]) = S) as HsetS.
  { rewrite member_set_snoc, Hset. unfold T. apply set_eq. intros z.
    destruct (decide (z = a)) as [->|?]; set_solver. }
  assert (cand ++ [a] ∈ MakeCliqueList g
            (GetCliqueCandidates k (node_neighbors g a)) a) as Hin.
  { apply MakeCliqueList_elem. by exists cand. }
  unfold main_loop_body in *.
  destruct (GetCliqueCandidates k (node_neighbors g a)) as [|c0 cs] eqn:Hc.
  { by apply elem_of_nil in Hcand. }
  destruct clique_list as [|e0 es].
  - apply elem_of_member_sets. by exists (cand ++ [a]).
  - unfold main_merge in *. rewrite MergeCliques_loop in * by done.
    destruct (merge_loop_records (e0 :: es) _ _ Hin) as [Hrec _].
    apply NotRecorded_false_member_set in Hrec as (_ & item & Hitem & Hi).
    + apply elem_of_member_sets. exists item. split; [done | congruence].
    + rewrite Forall_forall in Htemp. by apply Htemp.
    + done.
    + by destruct cand.
Qed.

Lemma main_cliques_finds k g S :
  simple_graph g → 2 ≤ k → is_k_clique g k S →
  S ∈ member_sets (main_cliques k g).
Proof.
  intros Hs Hk Hclique.
  (* a node of the clique, which the loop visits *)
  destruct Hclique as [Hsize Hadj].
  destruct (size_pos_elem_of S ltac:(lia)) as [a Ha].
  destruct (size_pos_elem_of (S ∖ {[a]})) as [b Hb].
  { rewrite size_difference by set_solver. rewrite size_singleton. lia. }
  apply elem_of_difference in Hb as [Hb Hba].
  assert (a ∈ seq 0 (length g)) as Hseq.
  { apply elem_of_seq. split; [lia|]. simpl.
    destruct (decide (a < length g)%nat) as [|Hge]; [done|].
    assert (b ∈ node_neighbors g a) as Hnb.
    { apply Hadj; [done | done |]. intros ->. apply Hba.
      by apply elem_of_singleton. }
    unfold node_neighbors in Hnb. rewrite lookup_ge_None_2 in Hnb by lia.
    by apply elem_of_nil in Hnb. }
  unfold main_cliques.
  assert (Forall NoDup (@nil (list nat))) as Hinit by constructor.
  revert Hinit Hseq. generalize (@nil (list nat)) (seq 0 (length g)).
  intros L nodes. revert L.
  induction nodes as [|node nodes IH]; intros L HL Hin.
  - by apply elem_of_nil in Hin.
  - simpl. destruct (simple_graph_node g node Hs) as [Hnd Hself].
    destruct (main_loop_body_NoDup k g L node Hnd Hself HL) as [_ HL'].
    destruct (decide (node = a)) as [->|Hne].
    + assert (S ∈ member_sets (main_loop_body k g L a)) as Hfound.
      { by apply main_loop_body_finds. }
      clear IH Hin. revert Hfound HL'.
      generalize (main_loop_body k g L a). clear L HL.
      induction nodes as [|n nodes IH]; intros L Hfound HL; [done|].
      simpl. apply IH; [by apply main_loop_body_keeps|].
      destruct (simple_graph_node g n Hs) as [Hnd' Hself'].
      by destruct (main_loop_body_NoDup k g L n Hnd' Hself' HL).
    + apply IH; [done|]. by apply elem_of_cons in Hin as [->|?].
Qed.

(** On a graph whose neighbor lists are symmetric, free of repetitions and
    of self references, and for [k >= 2], the global clique list holds the
    k-cliques of the graph and nothing else: a set of nodes is the member
    set of an entry exactly when it has [k] nodes that are pairwise
    linked. *)
Theorem main_cliques_are_the_k_cliques k g S :
  simple_graph g → symmetric_graph g → 2 ≤ k →
  (S ∈ member_sets (main_cliques k g) ↔ is_k_clique g k S).
Proof.
  intros Hs Hsym Hk. split; [|by apply main_cliques_finds].
  intros (c & Hc & <-)%elem_of_member_sets.
  pose proof (main_cliques_NoDup k g Hs) as Hnd.
  assert (Forall (λ c, len c = k ∧
                       ∀ i j a b, i ≠ j → c !! i = Some a → c !! j = Some b →
                                  b ∈ node_neighbors g a)
                 (main_cliques k g)) as Hall.
  { apply main_cliques_Forall. intros node item _ Hitem Hok.
    pose proof (GetCliqueCandidates_shape k (node_neighbors g node)) as Hshape.
    rewrite Forall_forall in Hshape. destruct (Hshape item Hitem) as [Hl Hsub].
    split.
    - unfold len in *. rewrite length_app. simpl. lia.
    - by apply checked_candidate_connected. }
  rewrite Forall_forall in Hnd, Hall.
  destruct (Hall c Hc) as [Hlen Hpairs].
  split.
  - rewrite member_set_size by auto. done.
  - intros a b Ha%elem_of_list_to_set Hb%elem_of_list_to_set Hab.
    apply list_elem_of_lookup_1 in Ha as [i Hi].
    apply list_elem_of_lookup_1 in Hb as [j Hj].
    apply (Hpairs i j); [congruence | done | done].
Qed.

Lemma main_cliques_are_the_k_cliques_witness :
  member_set [v 4; v 6; v 7] ∈ member_sets (main_cliques 3 model_graph) ↔
  is_k_clique model_graph 3 (member_set [v 4; v 6; v 7]).
Proof.
  apply main_cliques_are_the_k_cliques.
  - refine (bool_decide_unpack _ _). vm_compute. exact I.
  - apply symmetric_graphb_correct. vm_compute. reflexivity.
  - lia.
Defined.

(** ** The community graph, node by node *)

(** [Kminus1CommonNodes] counts the pairs of positions, one in each clique,
    that hold the same node, and answers yes exactly when [k - 1] is at
    least 1 and at most that count.  A node that one clique holds twice is
    counted twice. *)
Theorem Kminus1CommonNodes_counts_pairs cg gn node k :
  Kminus1CommonNodes cg gn node k = true ↔
  1 ≤ k - 1 ≤
    Z.of_nat (common_pairs (node_clique cg gn) (node_clique cg node)).
Proof.
  unfold Kminus1CommonNodes. rewrite Kminus1_exam_spec, bool_decide_eq_true.
  lia.
Qed.

Lemma node_label_AddNeighbor cg a b n :
  node_label (AddNeighbor cg a b) n = node_label cg n.
Proof.
  unfold node_label, AddNeighbor.
  destruct (decide (a = n)) as [->|Hne].
  - rewrite list_lookup_alter_eq. by destruct (cg !! n).
  - by rewrite list_lookup_alter_ne.
Qed.

Lemma node_label_AddNeighbors cg graph gn k n :
  node_label (AddNeighbors cg graph gn k) n = node_label cg n.
Proof.
  unfold AddNeighbors. revert cg.
  induction graph as [|node rest IH]; intros cg; simpl; [done|].
  rewrite IH. destruct (_ && _); [apply node_label_AddNeighbor | done].
Qed.

Lemma AddNeighbors_neighbors cg graph gn k :
  (gn < length cg)%nat →
  node_neighbors (AddNeighbors cg graph gn k) gn =
  node_neighbors cg gn ++
  filter (λ node, gn ≠ node ∧ Kminus1CommonNodes cg gn node k = true) graph.
Proof.
  unfold AddNeighbors. revert cg.
  induction graph as [|node rest IH]; intros cg Hlt; simpl.
  - by rewrite app_nil_r.
  - set (cg1 := if bool_decide (gn ≠ node) && Kminus1CommonNodes cg gn node k
                then AddNeighbor cg gn node else cg).
    assert (length cg1 = length cg) as Hlen.
    { unfold cg1. destruct (_ && _); [apply length_AddNeighbor | done]. }
    assert (∀ n, node_clique cg1 n = node_clique cg n) as Hcl.
    { intros n. unfold cg1.
      destruct (_ && _); [apply node_clique_AddNeighbor | done]. }
    rewrite IH by lia.
    rewrite (list_filter_iff _
      (λ node, gn ≠ node ∧ Kminus1CommonNodes cg gn node k = true)).
    2:{ intros x. by rewrite (Kminus1CommonNodes_ext cg1 cg). }
    rewrite filter_cons. unfold cg1.
    destruct (bool_decide (gn ≠ node) && Kminus1CommonNodes cg gn node k)
      eqn:Htest.
    + apply andb_true_iff in Htest as [Hne%bool_decide_eq_true HK].
      rewrite decide_True by done.
      rewrite node_neighbors_AddNeighbor, decide_True by done.
      by rewrite <- app_assoc.
    + rewrite decide_False; [done|]. intros [Hne HK].
      apply andb_false_iff in Htest as [Hf%bool_decide_eq_false|Hf];
        [done | congruence].
Qed.

Lemma AddNeighbors_all_neighbors cg graph nodes k i :
  NoDup nodes → (i < length cg)%nat →
  node_neighbors (foldl (λ cg node, AddNeighbors cg graph node k) cg nodes) i =
  node_neighbors cg i ++
  if decide (i ∈ nodes)
  then filter (λ node, i ≠ node ∧ Kminus1CommonNodes cg i node k = true) graph
  else [].
Proof.
  intros Hnd. revert cg. induction Hnd as [|gn rest Hgn Hrest IH];
    intros cg Hlt; cbn [foldl].
  - rewrite decide_False by apply not_elem_of_nil. by rewrite app_nil_r.
  - destruct (AddNeighbors_spec cg graph gn k) as (A1 & A2 & A3 & _).
    rewrite IH by lia.
    rewrite (list_filter_iff _
      (λ node, i ≠ node ∧ Kminus1CommonNodes cg i node k = true)).
    2:{ intros x. by rewrite (Kminus1CommonNodes_ext _ cg). }
    destruct (decide (i = gn)) as [->|Hne].
    + rewrite AddNeighbors_neighbors by done.
      rewrite (decide_False (P := gn ∈ rest)) by done.
      rewrite (decide_True (P := gn ∈ gn :: rest)) by left.
      by rewrite app_nil_r.
    + rewrite A3 by done. f_equal.
      destruct (decide (i ∈ rest)).
      * by rewrite decide_True by by right.
      * rewrite decide_False; [done|]. by intros [?|?]%elem_of_cons.
Qed.

(** The community graph has one node per clique, in list order.  Node [i]
    carries the label made from clique [i] and the clique itself, and its
    neighbor list holds, in increasing order and once each, the other nodes
    whose cliques pass [Kminus1CommonNodes] with clique [i]. *)
Theorem CreateCommunityGraph_nodes g clique_list k :
  length (CreateCommunityGraph g clique_list k) = length clique_list ∧
  ∀ i c, clique_list !! i = Some c →
    node_label (CreateCommunityGraph g clique_list k) i = CreateLabel g c ∧
    node_clique (CreateCommunityGraph g clique_list k) i = c ∧
    node_neighbors (CreateCommunityGraph g clique_list k) i =
      filter (λ j, i ≠ j ∧
                   Kminus1_exam c (default [] (clique_list !! j)) 0 k = true)
             (seq 0 (length clique_list)).
Proof.
  destruct (CreateCommunityGraph_spec g clique_list k) as (Hlen & Hcl & _).
  split; [done|]. intros i c Hi. split; [|split].
  - unfold CreateCommunityGraph. destruct clique_list as [|c0 cl0] eqn:Heq;
      [done|]. rewrite <- Heq in *. clear Heq.
    set (cg0 := map _ clique_list).
    assert (∀ nodes, node_label
              (foldl (λ cg node, AddNeighbors cg (seq 0 (length cg0)) node k)
                     cg0 nodes) i = node_label cg0 i) as Hlab.
    { intros nodes. generalize cg0 at 2 3.
      induction nodes as [|n nodes IH]; intros cg; simpl; [done|].
      by rewrite IH, node_label_AddNeighbors. }
    rewrite Hlab. unfold node_label, cg0.
    change (map ?f ?l) with (f <$> l). by rewrite list_lookup_fmap, Hi.
  - by rewrite Hcl, Hi.
  - unfold CreateCommunityGraph. destruct clique_list as [|c0 cl0] eqn:Heq;
      [done|]. rewrite <- Heq in *. clear Heq.
    set (cg0 := map _ clique_list).
    assert (length cg0 = length clique_list) as Hlen0 by apply length_map.
    assert (∀ n, node_clique cg0 n = default [] (clique_list !! n)) as Hcl0.
    { intros n. unfold node_clique, cg0.
      change (map ?f ?l) with (f <$> l). rewrite list_lookup_fmap.
      by destruct (clique_list !! n). }
    assert (node_neighbors cg0 i = []) as Hnb0.
    { unfold node_neighbors, cg0.
      change (map ?f ?l) with (f <$> l). rewrite list_lookup_fmap.
      by destruct (clique_list !! i). }
    pose proof (lookup_lt_Some _ _ _ Hi) as Hilt.
    rewrite AddNeighbors_all_neighbors by (apply NoDup_seq || lia).
    rewrite Hnb0, decide_True by (apply elem_of_seq; lia).
    rewrite Hlen0. simpl. apply list_filter_iff. intros j.
    unfold Kminus1CommonNodes. by rewrite !Hcl0, Hi.
Qed.

Lemma CreateCommunityGraph_nodes_witness :
  node_label
    (CreateCommunityGraph model_graph [[v 1; v 2; v 3]; [v 2; v 3; v 4]] 3)
    0 = CreateLabel model_graph [v 1; v 2; v 3] ∧
  node_clique
    (CreateCommunityGraph model_graph [[v 1; v 2; v 3]; [v 2; v 3; v 4]] 3)
    0 = [v 1; v 2; v 3] ∧
  node_neighbors
    (CreateCommunityGraph model_graph [[v 1; v 2; v 3]; [v 2; v 3; v 4]] 3)
    0 =
    filter (λ j, 0%nat ≠ j ∧
                 Kminus1_exam [v 1; v 2; v 3]
                   (default [] ([[v 1; v 2; v 3]; [v 2; v 3; v 4]] !! j))
                   0 3 = true)
           (seq 0 (length [[v 1; v 2; v 3]; [v 2; v 3; v 4]])).
Proof.
  apply (proj2 (CreateCommunityGraph_nodes model_graph
                  [[v 1; v 2; v 3]; [v 2; v 3; v 4]] 3) 0%nat [v 1; v 2; v 3]).
  reflexivity.
Defined.

(** For [k <= 1] no pair of cliques passes the test, and the community
    graph has no edge. *)
Theorem CreateCommunityGraph_small_k g clique_list k n :
  k ≤ 1 → node_neighbors (CreateCommunityGraph g clique_list k) n = [].
Proof.
  intros Hk.
  destruct (CreateCommunityGraph_spec g clique_list k) as (_ & _ & Hnb).
  destruct (node_neighbors (CreateCommunityGraph g clique_list k) n)
    as [|j l] eqn:Heq; [done|]. exfalso.
  assert (j ∈ node_neighbors (CreateCommunityGraph g clique_list k) n) as Hj.
  { rewrite Heq. left. }
  apply Hnb in Hj as (_ & _ & _ & HK).
  rewrite Kminus1_exam_spec in HK. apply bool_decide_eq_true in HK. lia.
Qed.

Lemma CreateCommunityGraph_small_k_witness :
  node_neighbors
    (CreateCommunityGraph model_graph [[0; 1]; [1; 2]; [1; 0]]%nat 1) 0 = [].
Proof. apply CreateCommunityGraph_small_k. lia. Defined.

(** ** CreateLabel *)

Lemma string_app_assoc (s1 s2 s3 : string) :
  (s1 +:+ s2) +:+ s3 = s1 +:+ s2 +:+ s3.
Proof.
  induction s1 as [|c s1 IH]; [done|].
  change (String c ((s1 +:+ s2) +:+ s3) = String c (s1 +:+ s2 +:+ s3)).
  by rewrite IH.
Qed.

Lemma CreateLabel_fold g new_label rest :
  foldl (λ new_label item, new_label +:+ "," +:+ node_label g item)
        new_label rest =
  String.concat "," (new_label :: (node_label g <$> rest)).
Proof.
  revert new_label. induction rest as [|item rest IH]; intros new_label.
  - done.
  - cbn [foldl]. rewrite IH, !fmap_cons. cbn [String.concat].
    destruct (node_label g <$> rest); [done|].
    by rewrite string_app_assoc.
Qed.

(** The label of a community node is the labels of the clique's nodes, in
    the order of the clique, joined by commas; it is empty for an empty
    clique. *)
Theorem CreateLabel_joins g nodes :
  CreateLabel g nodes = String.concat "," (node_label g <$> nodes).
Proof. destruct nodes; [done | apply CreateLabel_fold]. Qed.

(** ** GetNode *)

Lemma GetNode_from_spec g label_wanted index :
  match GetNode_from g label_wanted index with
  | Some i => ∃ j, i = (index + j)%nat ∧
                   (∃ nd, g !! j = Some nd ∧ label nd = label_wanted) ∧
                   ∀ j' nd, (j' < j)%nat → g !! j' = Some nd →
                            label nd ≠ label_wanted
  | None => ∀ nd, nd ∈ g → label nd ≠ label_wanted
  end.
Proof.
  revert index. induction g as [|n rest IH]; intros index; simpl.
  - by intros nd ?%elem_of_nil.
  - case_bool_decide as Hl.
    + exists 0%nat. split; [lia|]. split; [by exists n|]. intros; lia.
    + specialize (IH (S index)).
      destruct (GetNode_from rest label_wanted (S index)) as [i|].
      * destruct IH as (j & -> & Hj & Hbefore). exists (S j).
        split; [lia|]. split; [done|].
        intros [|j'] nd Hlt; simpl; [by intros [= <-]|].
        apply Hbefore. lia.
      * intros nd [->|?]%elem_of_cons; auto.
Qed.

(** [GetNode] returns the first node that has the label, and nil exactly
    when no node of the graph has it. *)
Theorem GetNode_first g label_wanted :
  (∀ i, GetNode g label_wanted = Some i →
     (∃ nd, g !! i = Some nd ∧ label nd = label_wanted) ∧
     ∀ j nd, (j < i)%nat → g !! j = Some nd → label nd ≠ label_wanted) ∧
  (GetNode g label_wanted = None ↔
   ∀ nd, nd ∈ g → label nd ≠ label_wanted).
Proof.
  unfold GetNode. pose proof (GetNode_from_spec g label_wanted 0) as H.
  destruct (GetNode_from g label_wanted 0) as [i|].
  - destruct H as (j & -> & (nd & Hnd & Hl) & Hbefore). split.
    + intros i' [= <-]. simpl. split; [by exists nd | done].
    + split; [done|]. intros Hno. exfalso. apply (Hno nd); [|done].
      by eapply list_elem_of_lookup_2.
  - split; [done | by split].
Qed.

Lemma GetNode_first_witness :
  (∃ nd, self_loop_graph !! 1%nat = Some nd ∧ label nd = "x") ∧
  ∀ j nd, (j < 1)%nat → self_loop_graph !! j = Some nd → label nd ≠ "x".
Proof.
  apply (proj1 (GetNode_first self_loop_graph "x") 1%nat). reflexivity.
Defined.

Lemma GetNode_lt g label_wanted i :
  GetNode g label_wanted = Some i → (i < length g)%nat.
Proof.
  unfold GetNode. pose proof (GetNode_from_spec g label_wanted 0) as H.
  intros Heq. rewrite Heq in H. destruct H as (j & -> & (nd & Hnd & _) & _).
  simpl. by eapply lookup_lt_Some.
Qed.

Lemma GetNode_from_labels g g' label_wanted index :
  label <$> g = label <$> g' →
  GetNode_from g label_wanted index = GetNode_from g' label_wanted index.
Proof.
  revert g' index. induction g as [|n rest IH]; intros [|n' rest'] index Heq;
    try done.
  simpl in *. injection Heq as Hl Hrest. rewrite Hl.
  case_bool_decide; [done|]. by apply IH.
Qed.

(** ** ParseGraphDefFile *)

(** The function ends in one of four ways: with the error of [os.Open]
    and the nil graph, without error, with a syntax error, or with a
    neighbor label that does not exist.  The duplicate node error is never
    returned: the comparison of [graph] with nil comes right after an
    append. *)
Theorem ParseGraphDefFile_possible_errors opened :
  (∃ message, opened = inl message ∧
     ParseGraphDefFile_open opened = ([], Some (OpenError message))) ∨
  (ParseGraphDefFile_open opened).2 = None ∨
  (∃ n, (ParseGraphDefFile_open opened).2 =
          Some (ParseError (SyntaxError n))) ∨
  (∃ l, (ParseGraphDefFile_open opened).2 =
          Some (ParseError (DoesNotExist l))).
Proof.
  destruct opened as [message|lines]; [left; by exists message|right].
  pose proof (ParseGraphDefFile_never_reports_duplicate lines) as Hno.
  cbn [ParseGraphDefFile_open snd].
  destruct ((ParseGraphDefFile lines).2) as [[l|n|l]|]; cbn; eauto.
  by destruct (Hno l).
Qed.

Lemma read_lines_complete st lines :
  read_lines st lines = read_lines st (complete_lines lines).
Proof.
  unfold complete_lines. revert st.
  induction lines as [|[line isPrefix] rest IH]; intros st; [done|].
  rewrite filter_cons. simpl. destruct isPrefix.
  - rewrite decide_False by done. apply IH.
  - rewrite decide_True by done. simpl.
    destruct (parse_line st line); [apply IH | done].
Qed.

(** The fragments of a line that did not fit the read buffer, all but its
    last, are passed over: they raise no error, count for no line number
    and add no node. *)
Theorem ParseGraphDefFile_skips_prefixes lines :
  ParseGraphDefFile lines = ParseGraphDefFile (complete_lines lines).
Proof. unfold ParseGraphDefFile. by rewrite <- read_lines_complete. Qed.

Lemma all_word_app s1 s2 :
  all_word (s1 +:+ s2) = all_word s1 && all_word s2.
Proof.
  induction s1 as [|c s1 IH]; [done|].
  change (re_word c && all_word (s1 +:+ s2) =
          re_word c && all_word s1 && all_word s2).
  by rewrite IH, andb_assoc.
Qed.

Lemma match_word_label after s label_so_far label_found group :
  all_word label_so_far = true →
  match_word after s label_so_far = Some (label_found, group) →
  word_label label_found.
Proof.
  revert label_so_far. induction s as [|c rest IH]; intros acc Hacc; simpl;
    [done|].
  destruct (re_word c) eqn:Hc; [|done].
  assert (all_word (acc +:+ String c "") = true) as Hacc'.
  { rewrite all_word_app, Hacc. simpl. by rewrite Hc. }
  destruct (match_word after rest (acc +:+ String c "")) as [[l g]|] eqn:Hm.
  - intros [= <- <-]. by eapply IH.
  - destruct (after rest); [|done]. intros [= <- <-]. split; [|done].
    by destruct acc.
Qed.

Lemma find_match_label after s label_found group :
  find_match after s = Some (label_found, group) → word_label label_found.
Proof.
  assert (Hhere : ∀ s, match_here after s = Some (label_found, group) →
                       word_label label_found).
  { clear s. induction s as [|c rest IH]; cbn [match_here]; [done|].
    destruct (re_space c).
    - destruct (match_here after rest) as [[l g]|] eqn:Hm.
      + intros [= -> ->]. by apply IH.
      + by apply match_word_label.
    - by apply match_word_label. }
  induction s as [|c rest IH]; cbn [find_match].
  - destruct (match_here after "") eqn:Hm; [|done].
    intros [= ->]. by apply (Hhere "").
  - destruct (match_here after (String c rest)) as [[l g]|] eqn:Hm; [|done].
    intros [= -> ->]. by apply (Hhere (String c rest)).
Qed.

Lemma parse_line_invariant st line :
  reading_invariant st →
  match parse_line st line with
  | inl st' => reading_invariant st' ∧
               length (ps_graph st') = S (length (ps_graph st))
  | inr (graph, e) => graph = ps_graph st ∧ e = SyntaxError (ps_line_count st)
  end.
Proof.
  intros (Hcount & Hnodes & Hspecs). unfold parse_line.
  assert (Hgrow : ∀ lbl specs,
    word_label lbl →
    Forall (λ ns, (ns_node ns < S (length (ps_graph st)))%nat) specs →
    reading_invariant
      (mkParseState (ps_graph st ++ [NewGraphNode lbl None]) specs
                    (ps_line_count st + 1)) ∧
    length (ps_graph st ++ [NewGraphNode lbl None]) = S (length (ps_graph st))).
  { intros lbl specs Hl Hs.
    assert (length (ps_graph st ++ [NewGraphNode lbl None]) =
            S (length (ps_graph st))) as Hlen.
    { rewrite length_app. simpl. lia. }
    split; [|done]. unfold reading_invariant. simpl. rewrite Hlen.
    split; [lia|]. split; [|done].
    apply Forall_app. split; [done|]. by apply Forall_singleton. }
  assert (Hspecs' : Forall (λ ns, (ns_node ns < S (length (ps_graph st)))%nat)
                           (ps_neighbor_spec_list st)).
  { eapply Forall_impl; [done|]. simpl. intros; lia. }
  destruct (node_def_re line) as [[lbl nstr]|] eqn:Hdef.
  - apply find_match_label in Hdef.
    destruct (ps_graph st ++ [NewGraphNode lbl None]) as [|n0 l0] eqn:Happ.
    { by destruct (ps_graph st). }
    rewrite <- Happ. apply Hgrow; [done|].
    destruct (neighbors_defined nstr); [|done].
    apply Forall_app. split; [done|]. apply Forall_singleton. simpl. lia.
  - unfold node_no_neighbors_re.
    destruct (find_match after_label_no_neighbors line) as [[lbl grp]|] eqn:Hn;
      simpl; [|done].
    apply find_match_label in Hn. by apply Hgrow.
Qed.

Lemma read_lines_invariant st lines :
  reading_invariant st →
  match read_lines st lines with
  | inl st' => reading_invariant st' ∧
               length (ps_graph st') =
               (length (ps_graph st) + length (complete_lines lines))%nat
  | inr (graph, e) =>
      e = SyntaxError (Z.of_nat (length graph) + 1) ∧
      Forall (λ nd, neighbors nd = [] ∧ word_label (label nd)) graph
  end.
Proof.
  unfold complete_lines. revert st.
  induction lines as [|[line isPrefix] rest IH]; intros st Hinv; simpl.
  - split; [done | lia].
  - rewrite filter_cons. simpl. destruct isPrefix.
    + rewrite decide_False by done. by apply IH.
    + rewrite decide_True by done.
      pose proof (parse_line_invariant st line Hinv) as Hline.
      destruct (parse_line st line) as [st'|[graph e]].
      * destruct Hline as [Hinv' Hlen]. specialize (IH st' Hinv').
        destruct (read_lines st' rest) as [st''|[graph e]]; [|done].
        destruct IH as [? ->]. split; [done|]. simpl. lia.
      * destruct Hline as [-> ->]. destruct Hinv as (-> & ? & _). done.
Qed.

Lemma reading_invariant_init : reading_invariant (mkParseState [] [] 1).
Proof. repeat split; constructor. Qed.

Lemma AddNeighbor_labels g a b : label <$> AddNeighbor g a b = label <$> g.
Proof.
  unfold AddNeighbor. apply list_eq. intros i.
  rewrite !list_lookup_fmap. destruct (decide (a = i)) as [->|Hne].
  - rewrite list_lookup_alter_eq. by destruct (g !! i).
  - by rewrite list_lookup_alter_ne.
Qed.

Lemma AddNeighbor_linked_within g a b :
  linked_within g → (b < length g)%nat → linked_within (AddNeighbor g a b).
Proof.
  unfold linked_within, AddNeighbor. intros Hg Hb.
  rewrite length_alter. apply Forall_alter; [done|].
  intros nd Hnd HP. simpl. apply Forall_app.
  split; [done | by apply Forall_singleton].
Qed.

Lemma GetNode_labels g g' label_wanted :
  label <$> g = label <$> g' → GetNode g label_wanted = GetNode g' label_wanted.
Proof. apply GetNode_from_labels. Qed.

Lemma add_neighbor_labels_invariant g node neighbor_labels :
  linked_within g →
  match add_neighbor_labels g node neighbor_labels with
  | inl g' => label <$> g' = label <$> g ∧ linked_within g'
  | inr (g', e) =>
      label <$> g' = label <$> g ∧ linked_within g' ∧
      ∃ l, e = DoesNotExist l ∧ GetNode g' l = None
  end.
Proof.
  revert g. induction neighbor_labels as [|l rest IH]; intros g Hg; simpl.
  - done.
  - destruct (GetNode g l) as [nn|] eqn:Hget.
    + specialize (IH (AddNeighbor g node nn)
                     (AddNeighbor_linked_within g node nn Hg
                        (GetNode_lt _ _ _ Hget))).
      destruct (add_neighbor_labels (AddNeighbor g node nn) node rest)
        as [g'|[g' e]]; rewrite AddNeighbor_labels in IH; done.
    + split; [done|]. split; [done|]. by exists l.
Qed.

Lemma add_neighbor_specs_invariant g specs :
  linked_within g →
  match add_neighbor_specs g specs with
  | inl g' => label <$> g' = label <$> g ∧ linked_within g'
  | inr (g', e) =>
      label <$> g' = label <$> g ∧ linked_within g' ∧
      ∃ l, e = DoesNotExist l ∧ GetNode g' l = None
  end.
Proof.
  revert g. induction specs as [|ns rest IH]; intros g Hg; simpl.
  - done.
  - pose proof (add_neighbor_labels_invariant g (ns_node ns)
                  (Split (neighbor_str ns)) Hg) as Hl.
    destruct (add_neighbor_labels g (ns_node ns) (Split (neighbor_str ns)))
      as [g1|[g1 e1]]; [|done].
    destruct Hl as [Hlab Hlinked]. specialize (IH g1 Hlinked).
    destruct (add_neighbor_specs g1 rest) as [g'|[g' e]];
      rewrite Hlab in IH; done.
Qed.

Lemma no_neighbors_linked_within g :
  Forall (λ nd, neighbors nd = [] ∧ word_label (label nd)) g →
  linked_within g.
Proof.
  unfold linked_within. intros H. eapply Forall_impl; [done|].
  intros nd [-> _]. constructor.
Qed.

(** What the parser returns in each of its outcomes, by the error [e]
    ([None] for success) and the number [n] of complete lines read. *)
Lemma ParseGraphDefFile_outcomes lines :
  let g := (ParseGraphDefFile lines).1 in
  linked_within g ∧ Forall (λ nd, word_label (label nd)) g ∧
  match (ParseGraphDefFile lines).2 with
  | Some (SyntaxError n) =>
      n = Z.of_nat (length g) + 1 ∧ Forall (λ nd, neighbors nd = []) g
  | Some (DoesNotExist l) =>
      GetNode g l = None ∧ length g = length (complete_lines lines)
  | Some (DuplicateNode _) => False
  | None => length g = length (complete_lines lines)
  end.
Proof.
  unfold ParseGraphDefFile.
  pose proof (read_lines_invariant _ lines reading_invariant_init) as Hread.
  destruct (read_lines _ lines) as [st|[g e]].
  - destruct Hread as [(_ & Hnodes & _) Hlen]. simpl in Hlen.
    pose proof (add_neighbor_specs_invariant (ps_graph st)
                  (ps_neighbor_spec_list st)
                  (no_neighbors_linked_within _ Hnodes)) as Hspecs.
    assert (Hlabels : ∀ g', label <$> g' = label <$> ps_graph st →
              Forall (λ nd, word_label (label nd)) g' ∧
              length g' = length (complete_lines lines)).
    { intros g' Heq. split.
      - apply (Forall_fmap label word_label). rewrite Heq.
        apply Forall_fmap. eapply Forall_impl; [done|]. by intros nd [_ ?].
      - rewrite <- Hlen, <- (length_fmap label g'), Heq. apply length_fmap. }
    destruct (add_neighbor_specs _ _) as [g'|[g' e]]; simpl.
    + destruct Hspecs as [Hlab Hlinked].
      destruct (Hlabels g' Hlab). done.
    + destruct Hspecs as (Hlab & Hlinked & l & -> & Hget).
      destruct (Hlabels g' Hlab). done.
  - destruct Hread as [-> Hnodes]. simpl.
    split; [by apply no_neighbors_linked_within|]. split.
    + eapply Forall_impl; [done|]. by intros nd [_ ?].
    + split; [done|]. eapply Forall_impl; [done|]. by intros nd [? _].
Qed.

(** Whatever the input, and whether or not an error comes with it, the
    returned graph is closed: every neighbor reference points to one of
    its nodes.  Every label is a non-empty run of letters, digits and
    underscores, so no label holds the comma that [CreateLabel] joins
    with. *)
Theorem ParseGraphDefFile_graph_closed lines :
  linked_within (ParseGraphDefFile lines).1 ∧
  Forall (λ nd, word_label (label nd)) (ParseGraphDefFile lines).1.
Proof.
  destruct (ParseGraphDefFile_outcomes lines) as (? & ? & _). done.
Qed.

(** A syntax error reports the number of the offending complete line: one
    more than the number of nodes made before it.  The graph returned
    with the error has those nodes and no edge. *)
Theorem ParseGraphDefFile_syntax_error lines n :
  (ParseGraphDefFile lines).2 = Some (SyntaxError n) →
  n = Z.of_nat (length (ParseGraphDefFile lines).1) + 1 ∧
  Forall (λ nd, neighbors nd = []) (ParseGraphDefFile lines).1.
Proof.
  intros He. destruct (ParseGraphDefFile_outcomes lines) as (_ & _ & H).
  by rewrite He in H.
Qed.

Lemma ParseGraphDefFile_syntax_error_witness :
  4 = Z.of_nat (length (ParseGraphDefFile
                  (short_lines ["v1: "; "  v2:"; "x y: v1"; "?"])).1) + 1 ∧
  Forall (λ nd, neighbors nd = [])
         (ParseGraphDefFile (short_lines ["v1: "; "  v2:"; "x y: v1"; "?"])).1.
Proof. apply ParseGraphDefFile_syntax_error. reflexivity. Defined.

(** When the parser reports that a neighbor label does not exist, no node
    of the returned graph has that label, wherever in the file it might
    have been declared. *)
Theorem ParseGraphDefFile_missing_neighbor lines neighbor_label :
  (ParseGraphDefFile lines).2 = Some (DoesNotExist neighbor_label) →
  Forall (λ nd, label nd ≠ neighbor_label) (ParseGraphDefFile lines).1.
Proof.
  intros He. destruct (ParseGraphDefFile_outcomes lines) as (_ & _ & H).
  rewrite He in H. destruct H as [Hget _].
  apply Forall_forall. pose proof (GetNode_from_spec
    (ParseGraphDefFile lines).1 neighbor_label 0) as Hspec.
  unfold GetNode in Hget. by rewrite Hget in Hspec.
Qed.

Lemma ParseGraphDefFile_missing_neighbor_witness :
  Forall (λ nd, label nd ≠ "v3")
         (ParseGraphDefFile (short_lines ["v1: v2 v3"; "v2: v1"])).1.
Proof. apply ParseGraphDefFile_missing_neighbor. reflexivity. Defined.

(** Unless a syntax error stops the reading, the graph has as many nodes
    as the file has complete lines. *)
Theorem ParseGraphDefFile_node_count lines :
  (∀ n, (ParseGraphDefFile lines).2 ≠ Some (SyntaxError n)) →
  length (ParseGraphDefFile lines).1 = length (complete_lines lines).
Proof.
  intros He. destruct (ParseGraphDefFile_outcomes lines) as (_ & _ & H).
  destruct ((ParseGraphDefFile lines).2) as [[l|n|l]|]; try done.
  - by destruct (He n).
  - by destruct H.
Qed.

Lemma ParseGraphDefFile_node_count_witness :
  length (ParseGraphDefFile
            [("v1: v2", false); ("long line, first part", true);
             ("v2: v1", false)]).1 =
  length (complete_lines
            [("v1: v2", false); ("long line, first part", true);
             ("v2: v1", false)]).
Proof. apply ParseGraphDefFile_node_count. intros n. discriminate. Defined.

Lemma parse_line_specs st line st' :
  parse_line st line = inl st' →
  (∀ ns, ns ∈ ps_neighbor_spec_list st → ns ∈ ps_neighbor_spec_list st') ∧
  ∀ lbl nstr, node_def_re line = Some (lbl, nstr) →
              neighbors_defined nstr = true →
              ∃ node, mkNeighborSpec node nstr ∈ ps_neighbor_spec_list st'.
Proof.
  unfold parse_line. destruct (node_def_re line) as [[lbl nstr]|].
  - destruct (ps_graph st ++ [NewGraphNode lbl None]) as [|n0 l0]; [done|].
    intros [= <-]. simpl. destruct (neighbors_defined nstr) eqn:Hd.
    + split; [intros ns ?; apply elem_of_app; by left|].
      intros ? ? [= <- <-] _. eexists. apply elem_of_app. right. left.
    + split; [done|]. intros ? ? [= <- <-]. congruence.
  - destruct (node_no_neighbors_re line); [|done].
    intros [= <-]. simpl. split; [done|]. done.
Qed.

Lemma read_lines_specs st lines st' :
  read_lines st lines = inl st' →
  (∀ ns, ns ∈ ps_neighbor_spec_list st → ns ∈ ps_neighbor_spec_list st') ∧
  ∀ line lbl nstr, (line, false) ∈ lines →
     node_def_re line = Some (lbl, nstr) → neighbors_defined nstr = true →
     ∃ node, mkNeighborSpec node nstr ∈ ps_neighbor_spec_list st'.
Proof.
  revert st. induction lines as [|[l isPrefix] rest IH]; intros st; simpl.
  - intros [= <-]. split; [done|]. by intros ? ? ? ?%elem_of_nil.
  - destruct isPrefix.
    + intros Hread. destruct (IH st Hread) as [Hmono Hfind].
      split; [done|]. intros line lbl nstr [[=]|Hin]%elem_of_cons.
      by apply Hfind.
    + destruct (parse_line st l) as [st1|] eqn:Hline; [|done].
      intros Hread. destruct (IH st1 Hread) as [Hmono Hfind].
      destruct (parse_line_specs st l st1 Hline) as [Hmono1 Hfind1].
      split; [auto|].
      intros line lbl nstr [[= -> ]|Hin]%elem_of_cons Hdef Hnd.
      * destruct (Hfind1 lbl nstr Hdef Hnd) as [node Hnode].
        exists node. auto.
      * by eapply Hfind.
Qed.

Lemma GetNode_Some_label g l i : GetNode g l = Some i → l ∈ label <$> g.
Proof.
  unfold GetNode. pose proof (GetNode_from_spec g l 0) as H.
  intros Heq. rewrite Heq in H. destruct H as (j & _ & (nd & Hnd & <-) & _).
  apply list_elem_of_fmap. exists nd. split; [done|].
  by eapply list_elem_of_lookup_2.
Qed.

Lemma add_neighbor_labels_found g node neighbor_labels g' :
  add_neighbor_labels g node neighbor_labels = inl g' →
  label <$> g' = label <$> g ∧
  Forall (λ l, l ∈ label <$> g) neighbor_labels.
Proof.
  revert g. induction neighbor_labels as [|l rest IH]; intros g; simpl.
  - intros [= <-]. split; [done | constructor].
  - destruct (GetNode g l) as [nn|] eqn:Hget; [|done].
    intros Hrest. destruct (IH _ Hrest) as [Hlab Hall].
    rewrite AddNeighbor_labels in Hlab, Hall.
    split; [done|]. constructor; [by eapply GetNode_Some_label | done].
Qed.

Lemma add_neighbor_specs_found g specs g' :
  add_neighbor_specs g specs = inl g' →
  label <$> g' = label <$> g ∧
  Forall (λ ns, Forall (λ l, l ∈ label <$> g) (Split (neighbor_str ns))) specs.
Proof.
  revert g. induction specs as [|ns rest IH]; intros g; simpl.
  - intros [= <-]. split; [done | constructor].
  - destruct (add_neighbor_labels g (ns_node ns) (Split (neighbor_str ns)))
      as [g1|] eqn:Hl; [|done].
    apply add_neighbor_labels_found in Hl as [Hlab1 Hall1].
    intros Hrest. destruct (IH _ Hrest) as [Hlab Hall].
    rewrite Hlab1 in Hlab, Hall. split; [done|]. by constructor.
Qed.

Lemma ParseGraphDefFile_accepted_pieces lines line lbl neighbors_str :
  (ParseGraphDefFile lines).2 = None →
  (line, false) ∈ lines →
  node_def_re line = Some (lbl, neighbors_str) →
  neighbors_defined neighbors_str = true →
  Forall (λ l, word_label l ∧ l ∈ label <$> (ParseGraphDefFile lines).1)
         (Split neighbors_str).
Proof.
  intros Hok Hin Hdef Hnd.
  destruct (ParseGraphDefFile_outcomes lines) as (_ & Hwords & _).
  revert Hok Hwords. unfold ParseGraphDefFile.
  destruct (read_lines _ lines) as [st|[g e]] eqn:Hread; [|done].
  destruct (add_neighbor_specs _ _) as [g'|[g' e]] eqn:Hspecs; [|done].
  simpl. intros _ Hwords.
  destruct (read_lines_specs _ _ _ Hread) as [_ Hfind].
  destruct (Hfind line lbl neighbors_str Hin Hdef Hnd) as [node Hnode].
  apply add_neighbor_specs_found in Hspecs as [Hlab Hall].
  rewrite Forall_forall in Hall. specialize (Hall _ Hnode). simpl in Hall.
  eapply Forall_impl; [done|]. simpl. intros l Hl. rewrite Hlab.
  split; [|done].
  rewrite <- Hlab in Hl. apply list_elem_of_fmap in Hl as (nd & -> & Hnd').
  rewrite Forall_forall in Hwords. by apply Hwords.
Qed.

(** When the parser succeeds, every piece that [strings.Split] cuts out of
    a neighbor list at the single spaces is the label of a node of the
    graph, and with that a non-empty word. *)
Theorem ParseGraphDefFile_accepted_neighbors lines line lbl neighbors_str :
  (ParseGraphDefFile lines).2 = None →
  (line, false) ∈ lines →
  node_def_re line = Some (lbl, neighbors_str) →
  neighbors_defined neighbors_str = true →
  Forall (λ l, word_label l ∧ l ∈ label <$> (ParseGraphDefFile lines).1)
         (Split neighbors_str).
Proof. apply ParseGraphDefFile_accepted_pieces. Qed.

Lemma ParseGraphDefFile_accepted_neighbors_witness :
  Forall (λ l, word_label l ∧
               l ∈ label <$> (ParseGraphDefFile
                                (short_lines ["v1: v2 v3"; "v2:"; "v3: v1"])).1)
         (Split "v2 v3").
Proof.
  apply (ParseGraphDefFile_accepted_neighbors
           (short_lines ["v1: v2 v3"; "v2:"; "v3: v1"]) "v1: v2 v3" "v1").
  - reflexivity.
  - left.
  - reflexivity.
  - reflexivity.
Defined.

Lemma split_on_space_trailing s current :
  "" ∈ split_on_space (s +:+ " ") current.
Proof.
  revert current. induction s as [|c s IH]; intros current.
  - change (split_on_space ("" +:+ " ") current) with [current; ""].
    right. left.
  - change (String c s +:+ " ") with (String c (s +:+ " ")).
    cbn [split_on_space]. case_bool_decide; [right|]; apply IH.
Qed.

(** A neighbor list that holds a character other than white space and
    ends with a space is never accepted: the last piece cut out of it is
    empty, and no node has an empty label. *)
Theorem ParseGraphDefFile_rejects_trailing_space lines line lbl s :
  (line, false) ∈ lines →
  node_def_re line = Some (lbl, s +:+ " ") →
  neighbors_defined (s +:+ " ") = true →
  is_Some (ParseGraphDefFile lines).2.
Proof.
  intros Hin Hdef Hnd.
  destruct ((ParseGraphDefFile lines).2) as [e|] eqn:Hok; [by exists e|].
  pose proof (ParseGraphDefFile_accepted_pieces lines line lbl _
                Hok Hin Hdef Hnd) as Hall.
  rewrite Forall_forall in Hall.
  destruct (Hall "") as [[Hne _] _]; [apply split_on_space_trailing | done].
Qed.

Lemma ParseGraphDefFile_rejects_trailing_space_witness :
  is_Some (ParseGraphDefFile (short_lines ["v1: v2 "; "v2:"])).2.
Proof.
  apply (ParseGraphDefFile_rejects_trailing_space _ "v1: v2 " "v1" "v2").
  - left.
  - reflexivity.
  - reflexivity.
Defined.

(** ** GetCliqueCandidates on slices *)

(** The candidates left in memory are those of the list version, and each
    of them is a slice within an allocated array. *)
Theorem GetCliqueCandidates_mem_candidates k node_list m :
  valid_slice m node_list →
  slice_nodes (GetCliqueCandidates_mem k node_list m).1 <$>
    (GetCliqueCandidates_mem k node_list m).2 =
  GetCliqueCandidates k (slice_nodes m node_list) ∧
  Forall (valid_slice (GetCliqueCandidates_mem k node_list m).1)
         (GetCliqueCandidates_mem k node_list m).2.
Proof.
  intros Hv.
  destruct (GetCliqueCandidates_rec_sim k (s_len node_list) node_list m
              eq_refl Hv) as (_ & Hval & Hread).
  by split.
Qed.

Lemma GetCliqueCandidates_mem_candidates_witness :
  slice_nodes (GetCliqueCandidates_mem 3 example_slice example_memory).1 <$>
    (GetCliqueCandidates_mem 3 example_slice example_memory).2 =
  GetCliqueCandidates 3 (slice_nodes example_memory example_slice) ∧
  Forall (valid_slice (GetCliqueCandidates_mem 3 example_slice example_memory).1)
         (GetCliqueCandidates_mem 3 example_slice example_memory).2.
Proof.
  apply GetCliqueCandidates_mem_candidates. split; vm_compute; lia.
Defined.

Lemma slice_set_length m s i x : length (slice_set m s i x) = length m.
Proof. apply length_alter. Qed.

Lemma new_candidate_mem_fresh m node item i :
  (new_candidate_mem m node item i).2 = mkSlice (length m) 0 (s_len item) ∧
  length (new_candidate_mem m node item i).1 = S (length m).
Proof.
  unfold new_candidate_mem, make_slice. cbv beta iota zeta. simpl.
  split; [done|]. rewrite slice_set_length.
  assert (∀ ks m', length (foldl
            (λ m0 k, slice_set m0 (mkSlice (length m) 0 (s_len item)) k
                               (slice_get m0 item k)) m' ks) = length m')
    as Hfold.
  { induction ks as [|k0 ks IH]; intros m'; simpl; [done|].
    by rewrite IH, slice_set_length. }
  rewrite Hfold, length_app. simpl. lia.
Qed.

Lemma pushes_fresh_refl st : pushes_fresh st st.
Proof. split; [done|]. exists []. split; [done | constructor]. Qed.

Lemma pushes_fresh_trans st1 st2 st3 :
  pushes_fresh st1 st2 → pushes_fresh st2 st3 → pushes_fresh st1 st3.
Proof.
  intros [Hl1 (p1 & Hp1 & Hf1)] [Hl2 (p2 & Hp2 & Hf2)].
  split; [lia|]. exists (p2 ++ p1). split.
  - by rewrite Hp2, Hp1, app_assoc.
  - apply Forall_app. split; [|done].
    eapply Forall_impl; [done|]. simpl. intros; lia.
Qed.

Lemma substitute_at_mem_pushes node item st i :
  pushes_fresh st (substitute_at_mem node item st i).
Proof.
  destruct st as [m ret]. unfold substitute_at_mem.
  destruct (new_candidate_mem_fresh m node item i) as [Hnew Hlen].
  destruct (new_candidate_mem m node item i) as [m' new]. simpl in *.
  subst new. destruct (IsDuplicate _ _); split; simpl; try lia.
  - exists []. split; [done | constructor].
  - eexists [_]. split; [done|]. apply Forall_singleton. done.
Qed.

Lemma substitute_item_mem_pushes node st item :
  pushes_fresh st (substitute_item_mem node st item).
Proof.
  unfold substitute_item_mem. generalize (seq 0 (s_len item)). intros idx.
  revert st. induction idx as [|i idx IH]; intros st; simpl.
  - apply pushes_fresh_refl.
  - eapply pushes_fresh_trans; [apply substitute_at_mem_pushes | apply IH].
Qed.

Lemma substitute_fold_mem_pushes node st items :
  pushes_fresh st (foldl (substitute_item_mem node) st items).
Proof.
  revert st. induction items as [|item items IH]; intros st; simpl.
  - apply pushes_fresh_refl.
  - eapply pushes_fresh_trans; [apply substitute_item_mem_pushes | apply IH].
Qed.

Lemma GetCliqueCandidates_rec_alias k n node_list m :
  s_len node_list = n → 2 ≤ k → k - 1 ≤ Z.of_nat n →
  (length m ≤ length (GetCliqueCandidates_rec k n node_list m).1)%nat ∧
  ∃ fresh,
    (GetCliqueCandidates_rec k n node_list m).2 =
      fresh ++ [mkSlice (s_array node_list)
                        (s_offset node_list + s_len node_list
                           - Z.to_nat (k - 1))
                        (Z.to_nat (k - 1))] ∧
    Forall (λ r, (length m ≤ s_array r)%nat) fresh.
Proof.
  revert node_list m. induction n as [|n IH]; intros node_list m Hn Hk Hlen;
    cbn [GetCliqueCandidates_rec];
    destruct (Z.ltb_spec k 2) as [?|_]; try lia;
    destruct (Z.ltb_spec (Z.of_nat (s_len node_list)) (k - 1)) as [?|_];
      try lia;
    destruct (Z.eqb_spec (Z.of_nat (s_len node_list)) (k - 1)) as [Heq|Hne];
      try lia.
  - split; [done|]. exists []. split; [|constructor].
    destruct node_list as [a o l]. simpl in *. do 2 f_equal; lia.
  - destruct (IH (slice_tail node_list) m) as (Hlen1 & fresh1 & Hres & Hfresh1);
      [unfold slice_tail; simpl; lia | done | lia |].
    destruct (GetCliqueCandidates_rec k n (slice_tail node_list) m)
      as [m1 clique_list] eqn:Hrec. simpl in Hlen1, Hres.
    destruct (substitute_fold_mem_pushes (slice_get m node_list 0)
                (m1, clique_list) clique_list)
      as [Hlen2 (pushed & Hpushed & Hfresh2)]. simpl in Hlen2, Hpushed, Hfresh2.
    split; [lia|]. exists (pushed ++ fresh1). split.
    + rewrite Hpushed, <- app_assoc. f_equal. rewrite Hres. do 3 f_equal.
      lia.
    + apply Forall_app. split; [|done].
      eapply Forall_impl; [done|]. simpl. intros; lia.
Qed.

(** For [k >= 2] and a list of at least [k - 1] nodes, the last candidate
    of the result is not a copy: it is the window of the caller's own array
    that shows the last [k - 1] nodes of the input.  All candidates before
    it are in arrays that the call allocated. *)
Theorem GetCliqueCandidates_mem_last_is_alias k node_list m :
  2 ≤ k → k - 1 ≤ Z.of_nat (s_len node_list) →
  ∃ fresh,
    (GetCliqueCandidates_mem k node_list m).2 =
      fresh ++ [mkSlice (s_array node_list)
                        (s_offset node_list + s_len node_list
                           - Z.to_nat (k - 1))
                        (Z.to_nat (k - 1))] ∧
    Forall (λ r, (length m ≤ s_array r)%nat) fresh.
Proof.
  intros Hk Hlen.
  by destruct (GetCliqueCandidates_rec_alias k (s_len node_list) node_list m
                 eq_refl Hk Hlen).
Qed.

Lemma GetCliqueCandidates_mem_last_is_alias_witness :
  ∃ fresh,
    (GetCliqueCandidates_mem 3 example_slice example_memory).2 =
      fresh ++ [mkSlice (s_array example_slice)
                        (s_offset example_slice + s_len example_slice
                           - Z.to_nat (3 - 1))
                        (Z.to_nat (3 - 1))] ∧
    Forall (λ r, (length example_memory ≤ s_array r)%nat) fresh.
Proof.
  apply GetCliqueCandidates_mem_last_is_alias; [lia | vm_compute; discriminate].
Defined.

(** ** PrintGraph and the parser *)

Lemma string_app_nil_r (s : string) : s +:+ "" = s.
Proof.
  induction s as [|c s IH]; [done|].
  change (String c (s +:+ "") = String c s). by rewrite IH.
Qed.

Lemma PrintGraph_neighbors_fold g out nodes :
  foldl (λ out n, out +:+ node_label g n +:+ " ") out nodes =
  out +:+ neighbors_text g nodes.
Proof.
  revert out. induction nodes as [|n rest IH]; intros out;
    cbn [foldl neighbors_text].
  - by rewrite string_app_nil_r.
  - by rewrite IH, !string_app_assoc.
Qed.

Lemma PrintGraph_fold g out nodes :
  foldl (λ out e,
           let out := out +:+ label e +:+ ":  " in
           let out := foldl (λ out n, out +:+ node_label g n +:+ " ")
                            out (neighbors e) in
           out +:+ newline)
        out nodes =
  out +:+ lines_text (PrintGraph_line g <$> nodes).
Proof.
  revert out. induction nodes as [|e rest IH]; intros out;
    cbn [foldl fmap list_fmap lines_text].
  - by rewrite string_app_nil_r.
  - cbv zeta. rewrite IH, PrintGraph_neighbors_fold. unfold PrintGraph_line.
    by rewrite !string_app_assoc.
Qed.

Lemma PrintGraph_text g :
  PrintGraph g = match g with
                 | [] => "empty graph" +:+ newline
                 | _ => lines_text (PrintGraph_line g <$> g)
                 end.
Proof.
  unfold PrintGraph. rewrite PrintGraph_fold. by destruct g.
Qed.

Lemma re_word_dot c : re_word c = true → re_dot c = true.
Proof.
  unfold re_word, re_dot. rewrite !bool_decide_eq_true. lia.
Qed.

Lemma re_word_not_space c : re_word c = true → re_space c = false.
Proof.
  unfold re_word, re_space. rewrite bool_decide_eq_true, bool_decide_eq_false.
  rewrite !elem_of_cons, elem_of_nil. lia.
Qed.

Lemma no_newline_app s1 s2 :
  no_newline (s1 +:+ s2) = no_newline s1 && no_newline s2.
Proof.
  induction s1 as [|c s1 IH]; [done|].
  change (re_dot c && no_newline (s1 +:+ s2) =
          re_dot c && no_newline s1 && no_newline s2).
  by rewrite IH, andb_assoc.
Qed.

Lemma all_word_no_newline s : all_word s = true → no_newline s = true.
Proof.
  induction s as [|c s IH]; [done|]. cbn [all_word no_newline].
  intros [Hc Hs]%andb_true_iff. by rewrite (re_word_dot c Hc), IH.
Qed.

Lemma node_label_all_word g n :
  Forall (λ nd, word_label (label nd)) g → all_word (node_label g n) = true.
Proof.
  intros Hg. unfold node_label. destruct (g !! n) as [nd|] eqn:Hn; [|done].
  rewrite Forall_forall in Hg.
  by destruct (Hg nd (list_elem_of_lookup_2 _ _ _ Hn)).
Qed.

Lemma string_length_app (s1 s2 : string) :
  String.length (s1 +:+ s2) = (String.length s1 + String.length s2)%nat.
Proof.
  induction s1 as [|c s1 IH]; [done|].
  change (S (String.length (s1 +:+ s2)) =
          S (String.length s1 + String.length s2)). by rewrite IH.
Qed.

Lemma no_line_end_app s1 s2 :
  no_line_end (s1 +:+ s2) = no_line_end s1 && no_line_end s2.
Proof.
  induction s1 as [|c s1 IH]; [done|].
  change (String c s1 +:+ s2) with (String c (s1 +:+ s2)).
  cbn [no_line_end]. by rewrite IH, andb_assoc.
Qed.

Lemma no_line_end_no_newline s : no_line_end s = true → no_newline s = true.
Proof.
  induction s as [|c s IH]; [done|]. cbn [no_line_end no_newline].
  intros [Hc Hs]%andb_true_iff. rewrite IH by done.
  apply bool_decide_eq_true in Hc as [Hc _].
  unfold re_dot. by rewrite bool_decide_eq_true_2.
Qed.

Lemma all_word_no_line_end s : all_word s = true → no_line_end s = true.
Proof.
  induction s as [|c s IH]; [done|]. cbn [all_word no_line_end].
  intros [Hc Hs]%andb_true_iff. rewrite IH by done.
  rewrite andb_true_r. apply bool_decide_eq_true.
  unfold re_word in Hc. apply bool_decide_eq_true in Hc. lia.
Qed.

Lemma all_word_no_colon s : all_word s = true → no_colon s = true.
Proof.
  induction s as [|c s IH]; [done|]. cbn [all_word no_colon].
  intros [Hc Hs]%andb_true_iff. rewrite IH by done.
  rewrite andb_true_r. apply bool_decide_eq_true. by intros ->.
Qed.

Lemma no_colon_app s1 s2 :
  no_colon (s1 +:+ s2) = no_colon s1 && no_colon s2.
Proof.
  induction s1 as [|c s1 IH]; [done|].
  change (String c s1 +:+ s2) with (String c (s1 +:+ s2)).
  cbn [no_colon]. by rewrite IH, andb_assoc.
Qed.

Lemma neighbors_text_plain g nodes :
  Forall (λ nd, word_label (label nd)) g →
  no_line_end (neighbors_text g nodes) = true ∧
  no_colon (neighbors_text g nodes) = true.
Proof.
  intros Hg. induction nodes as [|n rest [IH1 IH2]]; [done|].
  cbn [neighbors_text].
  rewrite !no_line_end_app, !no_colon_app, IH1, IH2.
  rewrite (all_word_no_line_end _ (node_label_all_word g n Hg)).
  by rewrite (all_word_no_colon _ (node_label_all_word g n Hg)).
Qed.

Lemma PrintGraph_line_no_line_end g e :
  Forall (λ nd, word_label (label nd)) g → all_word (label e) = true →
  no_line_end (PrintGraph_line g e) = true.
Proof.
  intros Hg He. unfold PrintGraph_line.
  rewrite !no_line_end_app, (proj1 (neighbors_text_plain g _ Hg)).
  by rewrite (all_word_no_line_end _ He).
Qed.

Lemma drop_carriage_return_plain s :
  no_line_end s = true → drop_carriage_return s = s.
Proof.
  induction s as [|c s IH]; [done|]. cbn [no_line_end drop_carriage_return].
  intros [Hc Hs]%andb_true_iff. apply bool_decide_eq_true in Hc as [_ Hc].
  destruct s as [|c' s'].
  - by rewrite bool_decide_eq_false_2.
  - by rewrite IH.
Qed.

(** A line that fits the buffer is returned whole. *)
Lemma text_lines_from_short line rest current :
  no_line_end line = true → no_line_end current = true →
  (String.length current + String.length line < MAX_LINE_LEN)%nat →
  text_lines_from (line +:+ newline +:+ rest) current =
  (current +:+ line, false) :: text_lines_from rest "".
Proof.
  revert current. induction line as [|c line IH]; intros current Hline Hcur Hlen.
  - change ("" +:+ newline +:+ rest) with (String (ascii_of_nat 10) rest).
    cbn [text_lines_from]. rewrite bool_decide_eq_true_2 by done.
    by rewrite drop_carriage_return_plain, string_app_nil_r.
  - cbn [no_line_end] in Hline. apply andb_true_iff in Hline as [Hc Hline].
    pose proof Hc as Hc'. apply bool_decide_eq_true in Hc' as [Hc1 Hc2].
    change (String c line +:+ newline +:+ rest)
      with (String c (line +:+ newline +:+ rest)).
    cbn [text_lines_from String.length] in *.
    rewrite bool_decide_eq_false_2 by done.
    rewrite bool_decide_eq_false_2 by lia.
    rewrite IH; [by rewrite string_app_assoc|done| |].
    + rewrite no_line_end_app, Hcur. cbn [no_line_end]. by rewrite Hc.
    + rewrite string_length_app. cbn [String.length]. lia.
Qed.

(** Of any line, the last fragment is returned as a complete line, after
    fragments with [isPrefix] set. *)
Lemma text_lines_from_fragments line rest current :
  no_line_end line = true → no_line_end current = true →
  ∃ fragments last before,
    text_lines_from (line +:+ newline +:+ rest) current =
      fragments ++ (last, false) :: text_lines_from rest "" ∧
    current +:+ line = before +:+ last.
Proof.
  revert current. induction line as [|c line IH]; intros current Hline Hcur.
  - exists [], current, "".
    change ("" +:+ newline +:+ rest) with (String (ascii_of_nat 10) rest).
    cbn [text_lines_from]. rewrite bool_decide_eq_true_2 by done.
    by rewrite drop_carriage_return_plain, string_app_nil_r.
  - cbn [no_line_end] in Hline. apply andb_true_iff in Hline as [Hc Hline].
    pose proof Hc as Hc'. apply bool_decide_eq_true in Hc' as [Hc1 Hc2].
    change (String c line +:+ newline +:+ rest)
      with (String c (line +:+ newline +:+ rest)).
    cbn [text_lines_from].
    rewrite bool_decide_eq_false_2 by done.
    rewrite (bool_decide_eq_false_2 (char_code c = 13%nat)) by done.
    destruct (bool_decide (S (String.length current) = MAX_LINE_LEN)).
    + destruct (IH "" Hline eq_refl) as (fragments & last & before & -> & Heq).
      exists ((current +:+ String c "", true) :: fragments), last,
             (current +:+ String c "" +:+ before).
      split; [done|]. change ("" +:+ line) with line in Heq.
      rewrite !string_app_assoc, <- Heq. done.
    + destruct (IH (current +:+ String c "") Hline)
        as (fragments & last & before & -> & Heq).
      { rewrite no_line_end_app, Hcur. cbn [no_line_end]. by rewrite Hc. }
      exists fragments, last, before. split; [done|].
      by rewrite <- Heq, string_app_assoc.
Qed.

Lemma text_lines_lines_text lines :
  Forall (λ line, no_line_end line = true ∧
                  (String.length line < MAX_LINE_LEN)%nat) lines →
  text_lines (lines_text lines) = short_lines lines.
Proof.
  unfold text_lines. induction 1 as [|line rest [Hline Hlen] _ IH]; [done|].
  cbn [lines_text]. by rewrite text_lines_from_short, IH.
Qed.

Lemma text_lines_last_fragment lines line :
  Forall (λ line, no_line_end line = true) lines → line ∈ lines →
  ∃ last before, (last, false) ∈ text_lines (lines_text lines) ∧
                 line = before +:+ last.
Proof.
  unfold text_lines. induction 1 as [|l rest Hl _ IH]; [by intros ?%elem_of_nil|].
  cbn [lines_text].
  destruct (text_lines_from_fragments l (lines_text rest) "" Hl eq_refl)
    as (fragments & last & before & -> & Heq).
  intros [->|Hin]%elem_of_cons.
  - exists last, before. split; [|done].
    apply elem_of_app. right. left.
  - destruct (IH Hin) as (last' & before' & Hin' & ->).
    exists last', before'. split; [|done].
    apply elem_of_app. right. by right.
Qed.
Lemma dot_run_no_newline s : no_newline s = true → dot_run s = s.
Proof.
  induction s as [|c s IH]; [done|]. cbn [no_newline dot_run].
  intros [Hc Hs]%andb_true_iff. by rewrite Hc, IH.
Qed.

Lemma match_word_finds after w rest label_so_far group :
  word_label w → after (":" +:+ rest) = Some group →
  match_word after (w +:+ ":" +:+ rest) label_so_far =
  Some (label_so_far +:+ w, group).
Proof.
  intros [Hne Hw] Hafter. revert label_so_far Hne Hw.
  induction w as [|c w IH]; intros acc Hne; [done|].
  cbn [all_word]. intros [Hc Hw]%andb_true_iff.
  change (String c w +:+ ":" +:+ rest) with (String c (w +:+ ":" +:+ rest)).
  cbn [match_word]. rewrite Hc. destruct w as [|c' w'].
  - change ("" +:+ ":" +:+ rest) with (String ":" rest).
    cbn [match_word].
    change (re_word ":") with false. cbv iota.
    change (String ":" rest) with (":" +:+ rest). by rewrite Hafter.
  - rewrite IH by done. by rewrite string_app_assoc.
Qed.

Lemma find_match_finds after w rest group :
  word_label w → after (":" +:+ rest) = Some group →
  find_match after (w +:+ ":" +:+ rest) = Some (w, group).
Proof.
  intros Hw Hafter.
  pose proof (match_word_finds after w rest "" group Hw Hafter) as Hm.
  destruct Hw as [Hne Hw]. destruct w as [|c w]; [done|].
  apply andb_true_iff in Hw as [Hc _].
  change (String c w +:+ ":" +:+ rest) with (String c (w +:+ ":" +:+ rest))
    in *.
  assert (match_here after (String c (w +:+ ":" +:+ rest)) =
          Some (String c w, group)) as Hhere.
  { cbn [match_here]. by rewrite (re_word_not_space c Hc). }
  cbn [find_match]. by rewrite Hhere.
Qed.

Lemma node_def_re_no_neighbors lbl :
  word_label lbl → node_def_re (lbl +:+ ":  ") = Some (lbl, " ").
Proof.
  intros Hlbl. by apply (find_match_finds after_label_def lbl "  " " ").
Qed.

Lemma node_def_re_neighbors lbl c text :
  word_label lbl → re_word c = true → no_newline text = true →
  node_def_re (lbl +:+ ":  " +:+ String c text) = Some (lbl, String c text).
Proof.
  intros Hlbl Hc Htext.
  apply (find_match_finds after_label_def lbl ("  " +:+ String c text)); [done|].
  change (match_spaces_dots (String " " (String " " (String c text))) =
          Some (String c text)).
  cbn [match_spaces_dots]. change (re_space " ") with true. cbv iota.
  rewrite (re_word_not_space c Hc), (re_word_dot c Hc).
  cbn [dot_run]. by rewrite (re_word_dot c Hc), dot_run_no_newline.
Qed.

Lemma neighbors_defined_word c text :
  re_word c = true → neighbors_defined (String c text) = true.
Proof.
  unfold re_word, neighbors_defined. rewrite bool_decide_eq_true.
  cbn [String.list_ascii_of_string fmap list_fmap].
  generalize (char_code <$> String.list_ascii_of_string text).
  generalize (char_code c). intros b rest Hb.
  assert (b < 128)%nat as Hlt by lia.
  assert (b ∉ [9; 10; 11; 12; 13; 32]%nat) as Hsp.
  { rewrite !elem_of_cons, elem_of_nil. lia. }
  cbn [neighbors_defined_codes]. rewrite bool_decide_eq_false_2 by done.
  clear Hb Hsp. do 128 (destruct b as [|b]; [done|]). lia.
Qed.


Lemma match_word_no_colon after s label_so_far :
  (∀ x group, after x = Some group → ∃ r, x = String ":" r) →
  no_colon s = true → match_word after s label_so_far = None.
Proof.
  intros Hafter. revert label_so_far.
  induction s as [|c s IH]; intros acc; [done|]. cbn [no_colon match_word].
  intros [Hc Hs]%andb_true_iff. rewrite IH by done.
  destruct (re_word c); [|done].
  destruct (after s) as [group|] eqn:Hs'; [|done].
  destruct (Hafter s group Hs') as [r ->]. done.
Qed.

Lemma match_here_no_colon after s :
  (∀ x group, after x = Some group → ∃ r, x = String ":" r) →
  no_colon s = true → match_here after s = None.
Proof.
  intros Hafter. induction s as [|c s IH]; [done|]. intros Hs.
  cbn [match_here]. rewrite (match_word_no_colon after _ "" Hafter Hs).
  cbn [no_colon] in Hs. apply andb_true_iff in Hs as [_ Hs].
  rewrite IH by done. by destruct (re_space c).
Qed.

Lemma find_match_no_colon after s :
  (∀ x group, after x = Some group → ∃ r, x = String ":" r) →
  no_colon s = true → find_match after s = None.
Proof.
  intros Hafter. induction s as [|c s IH]; [done|]. intros Hs.
  cbn [find_match]. rewrite (match_here_no_colon after _ Hafter Hs).
  cbn [no_colon] in Hs. apply andb_true_iff in Hs as [_ Hs]. by apply IH.
Qed.

Lemma after_label_def_colon x group :
  after_label_def x = Some group → ∃ r, x = String ":" r.
Proof.
  unfold after_label_def. destruct x as [|c r]; [done|].
  destruct (decide (c = ":"%char)) as [->|Hne]; [by exists r|].
  by destruct c as [[] [] [] [] [] [] [] []].
Qed.

Lemma after_label_no_neighbors_colon x group :
  after_label_no_neighbors x = Some group → ∃ r, x = String ":" r.
Proof.
  unfold after_label_no_neighbors. destruct x as [|c r]; [done|].
  destruct (decide (c = ":"%char)) as [->|Hne]; [by exists r|].
  by destruct c as [[] [] [] [] [] [] [] []].
Qed.

(** A line without a word character right before its colon matches
    neither expression. *)
Lemma no_label_no_match s :
  no_colon s = true ∨ (∃ r, s = String ":" r ∧ no_colon r = true) →
  node_def_re s = None ∧ node_no_neighbors_re s = None.
Proof.
  assert (∀ x, no_colon x = true →
            find_match after_label_def x = None ∧
            find_match after_label_no_neighbors x = None) as Hnone.
  { intros x Hx. split.
    - apply find_match_no_colon; [apply after_label_def_colon | done].
    - apply find_match_no_colon; [apply after_label_no_neighbors_colon | done]. }
  unfold node_def_re, node_no_neighbors_re. intros [Hs|(r & -> & Hr)].
  - by destruct (Hnone s Hs) as [-> ->].
  - cbn [find_match match_here match_word].
    change (re_space ":") with false. change (re_word ":") with false.
    cbv iota. by destruct (Hnone r Hr) as [-> ->].
Qed.

Lemma string_app_split (before last a b : string) :
  before +:+ last = a +:+ b →
  (∃ w, a = before +:+ w ∧ last = w +:+ b) ∨
  (∃ p, before = a +:+ p ∧ b = p +:+ last).
Proof.
  revert a. induction before as [|c before IH]; intros a.
  - intros Heq. left. by exists a.
  - destruct a as [|c' a].
    + intros Heq. right. by exists (String c before).
    + change (String c (before +:+ last) = String c' (a +:+ b) →
              (∃ w, String c' a = String c (before +:+ w) ∧ last = w +:+ b) ∨
              (∃ p, String c before = String c' (a +:+ p) ∧ b = p +:+ last)).
      intros [= -> Heq]. destruct (IH a Heq) as [(w & -> & ->)|(p & -> & ->)].
      * left. by exists w.
      * right. by exists p.
Qed.

Lemma read_lines_matched st lines st' line :
  read_lines st lines = inl st' → (line, false) ∈ lines →
  is_Some (node_def_re line) ∨ is_Some (node_no_neighbors_re line).
Proof.
  revert st. induction lines as [|[l isPrefix] rest IH]; intros st; simpl.
  - by intros _ ?%elem_of_nil.
  - destruct isPrefix.
    + intros Hread [[=]|Hin]%elem_of_cons. by eapply IH.
    + destruct (parse_line st l) as [st1|] eqn:Hline; [|done].
      intros Hread [[= <-]|Hin]%elem_of_cons; [|by eapply IH].
      unfold parse_line in Hline.
      destruct (node_def_re line); [left; by eexists|].
      destruct (node_no_neighbors_re line); [right; by eexists|done].
Qed.

Lemma read_lines_printed_nodes g st nodes :
  Forall (λ nd, word_label (label nd) ∧ neighbors nd = [] ∧
                associated_clique nd = None) nodes →
  read_lines st (short_lines (PrintGraph_line g <$> nodes)) =
  inl (mkParseState (ps_graph st ++ nodes) (ps_neighbor_spec_list st)
                    (ps_line_count st + len nodes)).
Proof.
  intros Hnodes. revert st.
  induction Hnodes as [|nd rest (Hlbl & Hnb & Hcl) _ IH]; intros st.
  - destruct st as [graph specs count]. cbn. unfold len. cbn.
    by rewrite app_nil_r, Z.add_0_r.
  - cbn [fmap list_fmap short_lines read_lines].
    change (list_fmap _ _ ?f ?l) with (f <$> l).
    assert (parse_line st (PrintGraph_line g nd) =
            inl (mkParseState (ps_graph st ++ [nd]) (ps_neighbor_spec_list st)
                              (ps_line_count st + 1))) as ->.
    { unfold parse_line, PrintGraph_line. rewrite Hnb. cbn [neighbors_text].
      rewrite string_app_nil_r, node_def_re_no_neighbors by done.
      change (neighbors_defined " ") with false. cbv beta iota zeta.
      destruct nd as [lbl nb cl]. cbn in Hnb, Hcl. subst nb cl.
      unfold NewGraphNode. cbn [label]. by destruct (ps_graph st). }
    fold (short_lines (PrintGraph_line g <$> rest)).
    rewrite IH. cbn [ps_graph ps_neighbor_spec_list ps_line_count].
    rewrite <- app_assoc. do 2 f_equal. unfold len. cbn [length]. lia.
Qed.

Lemma neighbors_text_ends_space g nodes :
  nodes ≠ [] → ∃ s, neighbors_text g nodes = s +:+ " ".
Proof.
  induction nodes as [|n rest IH]; [done|]. intros _. cbn [neighbors_text].
  destruct rest as [|n' rest'].
  - exists (node_label g n). done.
  - destruct IH as [s Hs]; [done|]. exists (node_label g n +:+ " " +:+ s).
    by rewrite Hs, !string_app_assoc.
Qed.

(** A non-empty graph without edges, with word labels, without
    associated cliques and with labels short enough for every printed line
    to fit the read buffer, is read back from its printed text. *)
Theorem PrintGraph_parsed_back_without_edges g :
  Forall (λ nd, word_label (label nd) ∧ neighbors nd = [] ∧
                associated_clique nd = None ∧
                (String.length (label nd) + 3 < MAX_LINE_LEN)%nat) g →
  g ≠ [] →
  ParseGraphDefFile (text_lines (PrintGraph g)) = (g, None).
Proof.
  intros Hg Hne.
  assert (Forall (λ nd, word_label (label nd)) g) as Hwords.
  { eapply Forall_impl; [done|]. by intros ? [? _]. }
  rewrite PrintGraph_text. destruct g as [|e g'] eqn:Heq; [done|].
  rewrite <- Heq in *. clear Heq.
  rewrite text_lines_lines_text.
  - unfold ParseGraphDefFile. rewrite read_lines_printed_nodes; [done|].
    eapply Forall_impl; [exact Hg|]. by intros ? (? & ? & ? & _).
  - apply Forall_fmap. eapply Forall_impl; [exact Hg|].
    intros nd ([_ Hw] & Hnb & _ & Hlen). split.
    + by apply PrintGraph_line_no_line_end.
    + unfold PrintGraph_line. rewrite Hnb, !string_length_app. simpl. lia.
Qed.

Lemma PrintGraph_parsed_back_without_edges_witness :
  ParseGraphDefFile
    (text_lines (PrintGraph [mkGraphNode "v1" [] None;
                             mkGraphNode "v2" [] None])) =
  ([mkGraphNode "v1" [] None; mkGraphNode "v2" [] None], None).
Proof.
  apply (PrintGraph_parsed_back_without_edges
           [mkGraphNode "v1" [] None; mkGraphNode "v2" [] None]).
  - repeat constructor; try done; vm_compute; lia.
  - done.
Defined.

(** The printed text of a graph with an edge is not accepted by the
    parser, however long its lines are.  Every printed neighbor label is
    followed by a space, so what the reader returns as the end of a line
    with neighbors either has no label before a colon, or has a neighbor
    list that ends with a space, whose last piece is empty. *)
Theorem PrintGraph_with_edge_not_parsed g nd :
  Forall (λ nd, word_label (label nd)) g → linked_within g →
  nd ∈ g → neighbors nd ≠ [] →
  is_Some (ParseGraphDefFile (text_lines (PrintGraph g))).2.
Proof.
  intros Hg Hlinked Hnd Hnb.
  assert (g ≠ []) as Hne by (intros ->; by apply elem_of_nil in Hnd).
  assert (PrintGraph g = lines_text (PrintGraph_line g <$> g)) as ->.
  { rewrite PrintGraph_text. by destruct g. }
  destruct (ParseGraphDefFile _).2 as [e|] eqn:Hok; [by exists e|].
  assert (word_label (label nd)) as Hlbl.
  { rewrite Forall_forall in Hg. by apply Hg. }
  destruct (text_lines_last_fragment (PrintGraph_line g <$> g)
              (PrintGraph_line g nd))
    as (last & before & Hlast & Hsplit).
  { apply Forall_fmap. eapply Forall_impl; [exact Hg|]. intros e [_ He].
    by apply PrintGraph_line_no_line_end. }
  { apply list_elem_of_fmap. by exists nd. }
  set (lines := text_lines (lines_text (PrintGraph_line g <$> g))) in *.
  destruct (neighbors_text_ends_space g (neighbors nd) Hnb) as [s Hs].
  destruct (neighbors_text_plain g (neighbors nd) Hg) as [Hnl Hnc].
  assert (∃ c text, neighbors_text g (neighbors nd) = String c text ∧
                    re_word c = true) as (c & text & Htext & Hc).
  { destruct (neighbors nd) as [|n rest] eqn:Hn; [done|].
    cbn [neighbors_text].
    assert (word_label (node_label g n)) as [Hn1 Hn2].
    { unfold linked_within in Hlinked. rewrite Forall_forall in Hlinked, Hg.
      specialize (Hlinked nd Hnd). rewrite Hn in Hlinked.
      apply Forall_cons in Hlinked as [Hlt _].
      apply lookup_lt_is_Some in Hlt as [nn Hnn]. unfold node_label.
      rewrite Hnn. apply Hg. by eapply list_elem_of_lookup_2. }
    destruct (node_label g n) as [|c w]; [done|].
    apply andb_true_iff in Hn2 as [Hc _].
    by exists c, (w +:+ " " +:+ neighbors_text g rest). }
  (* the fragment either holds the end of the label and all that follows,
     or starts at the colon or after it *)
  unfold PrintGraph_line in Hsplit.
  change (label nd +:+ ":  " +:+ neighbors_text g (neighbors nd))
    with (label nd +:+ ":" +:+ "  " +:+ neighbors_text g (neighbors nd))
    in Hsplit.
  assert (no_colon ("  " +:+ neighbors_text g (neighbors nd)) = true) as Hnc2.
  { by rewrite no_colon_app, Hnc. }
  assert (is_Some (node_def_re last) ∨ is_Some (node_no_neighbors_re last))
    as Hmatched.
  { revert Hok. unfold ParseGraphDefFile.
    destruct (read_lines _ lines) as [st|[g0 e0]] eqn:Hread; [|done].
    intros _. by eapply read_lines_matched. }
  assert (node_def_re last = None ∧ node_no_neighbors_re last = None →
          False) as Hno.
  { intros [H1 H2]. rewrite H1, H2 in Hmatched.
    by destruct Hmatched as [[? [=]]|[? [=]]]. }
  exfalso. symmetry in Hsplit.
  destruct (string_app_split _ _ _ _ Hsplit)
    as [(w & Hw & Hlastw)|(p & Hp & Hrest)].
  - destruct w as [|cw w'].
    + apply Hno, no_label_no_match. right.
      exists ("  " +:+ neighbors_text g (neighbors nd)). by rewrite Hlastw.
    + assert (word_label (String cw w')) as Hww.
      { split; [done|]. destruct Hlbl as [_ Hall]. rewrite Hw in Hall.
        rewrite all_word_app in Hall. by apply andb_true_iff in Hall as [_ ?]. }
      assert (Forall (λ l, word_label l ∧
                           l ∈ label <$> (ParseGraphDefFile lines).1)
                     (Split (neighbors_text g (neighbors nd)))) as Hall.
      { apply (ParseGraphDefFile_accepted_pieces _ last (String cw w'));
          [done|done| |].
        - rewrite Hlastw, Htext.
          change (String cw w' +:+ ":" +:+ "  " +:+ String c text)
            with (String cw w' +:+ ":  " +:+ String c text).
          apply node_def_re_neighbors; [done..|].
          apply no_line_end_no_newline. rewrite Htext in Hnl.
          cbn [no_line_end] in Hnl. by apply andb_true_iff in Hnl as [_ ?].
        - rewrite Htext. by apply neighbors_defined_word. }
      rewrite Forall_forall in Hall.
      destruct (Hall "") as [[Hempty _] _]; [|done].
      rewrite Hs. apply split_on_space_trailing.
  - apply Hno, no_label_no_match. destruct p as [|cp p'].
    + right. exists ("  " +:+ neighbors_text g (neighbors nd)).
      change ("" +:+ last) with last in Hrest. by rewrite <- Hrest.
    + left. change (String ":" ("  " +:+ neighbors_text g (neighbors nd)) =
                    String cp (p' +:+ last)) in Hrest.
      injection Hrest as _ Hrest. rewrite Hrest, no_colon_app in Hnc2.
      by apply andb_true_iff in Hnc2 as [_ ?].
Qed.

Lemma PrintGraph_with_edge_not_parsed_witness :
  is_Some (ParseGraphDefFile
             (text_lines (PrintGraph [mkGraphNode "v1" [1%nat] None;
                                      mkGraphNode "v2" [0%nat] None]))).2.
Proof.
  apply (PrintGraph_with_edge_not_parsed
           [mkGraphNode "v1" [1%nat] None; mkGraphNode "v2" [0%nat] None]
           (mkGraphNode "v1" [1%nat] None)).
  - repeat constructor; done.
  - repeat constructor; simpl; lia.
  - left.
  - done.
Defined.
